(** * xodr-editor: a shallow embedding of the road-geometry core

    The development follows the JavaScript sources:
    - [src/xodr/spline.js]     cubic polynomials and piecewise cubic splines,
    - [src/xodr/geometry.js]   the curve sampler and polygon assembly,
    - [src/xodr/opendrive.js]  the OpenDRIVE reader,
    - [src/index.js]           the lane-run builder,
    - [src/editor.js]          corner rounding and the editor-axes payload.

    JavaScript numbers are modelled as real numbers: arithmetic is exact and
    neither NaN nor the infinities occur.  Comparisons of the source become
    decisions on [R]; [Math.*] functions are the corresponding real functions. *)

From Stdlib Require Import Reals Lra Lia List ZArith Bool Ascii String Sorted Permutation DecimalString.
From Stdlib Require DecimalNat.
Import ListNotations.
Local Open Scope R_scope.
Set Warnings "-register-all".

(** ** JavaScript numbers and [Math] *)

Module Js.

Definition geb (x y : R) : bool := if Rge_dec x y then true else false.
Definition gtb (x y : R) : bool := if Rgt_dec x y then true else false.
Definition leb (x y : R) : bool := if Rle_dec x y then true else false.
Definition ltb (x y : R) : bool := if Rlt_dec x y then true else false.
Definition eqb (x y : R) : bool := if Req_dec_T x y then true else false.

(** [Math.max], [Math.min], [Math.abs] *)
Definition max := Rmax.
Definition min := Rmin.
Definition abs := Rabs.

(** [Math.ceil]: the least integer not below [x]. *)
Definition ceil (x : R) : Z := (1 - up (- x))%Z.

(** [Math.sign] *)
Definition sign (x : R) : R :=
  if ltb 0 x then 1 else if ltb x 0 then -1 else 0.

(** [Math.pow(x, 1.5)] on a non-negative argument *)
Definition pow_3_2 (x : R) : R := x * sqrt x.

(** [Math.hypot] on two arguments *)
Definition hypot (x y : R) : R := sqrt (x * x + y * y).

(** [Math.atan2 y x], with values in (-PI, PI]. *)
Definition atan2 (y x : R) : R :=
  if ltb 0 x then atan (y / x)
  else if ltb x 0 then
         (if leb 0 y then atan (y / x) + PI else atan (y / x) - PI)
       else if ltb 0 y then PI / 2
            else if ltb y 0 then - (PI / 2) else 0.

(** [Array.prototype.sort] with the comparator [(a,b) => key a - key b]:
    a stable sort, here by insertion. *)
Fixpoint insert_by {A : Type} (key : A -> R) (x : A) (l : list A) : list A :=
  match l with
  | [] => [x]
  | y :: l' => if ltb (key x) (key y) then x :: y :: l'
               else y :: insert_by key x l'
  end.

Definition sort_by {A : Type} (key : A -> R) (l : list A) : list A :=
  fold_left (fun acc x => insert_by key x acc) l [].

(** [Set.prototype.add] on a set of numbers kept in insertion order. *)
Fixpoint set_add (x : R) (s : list R) : list R :=
  match s with
  | [] => [x]
  | y :: s' => if eqb x y then s else y :: set_add x s'
  end.

End Js.

(** ** spline.js *)

(** [class Poly3] *)
Module Poly3.

Record t : Type := mk { a : R; b : R; c : R; d : R }.

Definition zero : t := mk 0 0 0 0.

Definition value (p : t) (ds : R) : R :=
  a p + b p * ds + c p * ds * ds + d p * ds * ds * ds.
Definition deriv (p : t) (ds : R) : R :=
  b p + 2 * c p * ds + 3 * d p * ds * ds.
Definition deriv2 (p : t) (ds : R) : R := 2 * c p + 6 * d p * ds.
Definition deriv3 (p : t) : R := 6 * d p.

Definition rebase (p : t) (delta : R) : t :=
  let f0 := value p delta in
  let f1 := deriv p delta in
  let f2 := deriv2 p delta in
  let f3 := deriv3 p in
  mk f0 f1 (f2 / 2) (f3 / 6).

Definition add (p q : t) : t :=
  mk (a p + a q) (b p + b q) (c p + c q) (d p + d q).
Definition negate (p : t) : t := mk (- a p) (- b p) (- c p) (- d p).

End Poly3.

(** [class CubicSpline]: the object is its [seg] array. *)
Module CubicSpline.

Record Seg : Type := mkSeg { s0 : R; poly : Poly3.t }.

Definition t : Type := list Seg.

(** the tolerance of [get_poly] *)
Definition tol : R := 1e-12.

Definition empty_spline : t := [].

(** the plain records [{s0, a, b, c, d}] accepted by [fromSegments] *)
Record RawSeg : Type := mkRaw { r_s0 : R; r_a : R; r_b : R; r_c : R; r_d : R }.

Definition fromSegments (segments : list RawSeg) : t :=
  Js.sort_by s0
    (map (fun s => mkSeg (r_s0 s) (Poly3.mk (r_a s) (r_b s) (r_c s) (r_d s)))
         segments).

Definition addSegment (sp : t) (s a b c d : R) : t :=
  Js.sort_by s0 (sp ++ [mkSeg s (Poly3.mk a b c d)]).

Definition empty (sp : t) : bool :=
  match sp with [] => true | _ => false end.

(** the [for ... of] loop of [get_poly], with its [break] *)
Fixpoint scan (s : R) (candidate : Seg) (l : list Seg) : Seg :=
  match l with
  | [] => candidate
  | sg :: l' => if Js.geb (s + tol) (s0 sg) then scan s sg l' else candidate
  end.

Definition get_poly (sp : t) (s : R) (extendStart : bool) : Seg :=
  match sp with
  | [] => mkSeg s Poly3.zero
  | sg0 :: _ =>
      let candidate := scan s sg0 sp in
      if Js.geb (s + tol) (s0 candidate) then candidate
      else if extendStart then sg0 else candidate
  end.

Definition get (sp : t) (s : R) (def : R) : R :=
  match sp with
  | [] => def
  | _ => let sg := get_poly sp s true in
         Poly3.value (poly sg) (s - s0 sg)
  end.

Definition negate (sp : t) : t :=
  map (fun sg => mkSeg (s0 sg) (Poly3.negate (poly sg))) sp.

(** the merged knot set of [add], in insertion order, then sorted *)
Definition ticksSet (this other : t) : list R :=
  fold_left (fun set sg => Js.set_add (s0 sg) set) other
    (fold_left (fun set sg => Js.set_add (s0 sg) set) this []).

Definition ticks (this other : t) : list R :=
  Js.sort_by (fun x => x) (ticksSet this other).

(** the polynomial stored by [add] at the knot [s] *)
Definition sumAt (this other : t) (s : R) : Poly3.t :=
  let aP := get_poly this s true in
  let bP := get_poly other s true in
  let deltaA := s - s0 aP in
  let deltaB := s - s0 bP in
  let pA := Poly3.rebase (poly aP) deltaA in
  let pB := Poly3.rebase (poly bP) deltaB in
  Poly3.add pA pB.

Definition add (this other : t) : t :=
  fold_left
    (fun out s =>
       let p := sumAt this other s in
       addSegment out s (Poly3.a p) (Poly3.b p) (Poly3.c p) (Poly3.d p))
    (ticks this other) empty_spline.

End CubicSpline.

(** Vocabulary for statements about splines. *)
Module SplineSpec.
Import CubicSpline.

Definition knots (sp : t) : list R := map s0 sp.

(** the knots of a spline increase strictly *)
Definition strict (sp : t) : Prop := StronglySorted Rlt (knots sp).

(** two different knots are further apart than the tolerance of [get_poly] *)
Definition separated (K : list R) : Prop :=
  forall x y, In x K -> In y K -> x < y -> x + tol < y.

(** the segment stored by [add] at the knot [s] *)
Definition sumSeg (A B : t) (s : R) : Seg := mkSeg s (sumAt A B s).

(** two splines with knots that are not aligned: the second knot of the
    first lies within the tolerance of [get_poly] after the knot of the
    second *)
Definition stepAfter : t :=
  [mkSeg 0 Poly3.zero; mkSeg (1 + 5e-13) (Poly3.mk 1 0 0 0)].

Definition flatFrom1 : t := [mkSeg 1 Poly3.zero].

End SplineSpec.

(** ** geometry.js *)

Module Geometry.

(** the [type] tag of a planView primitive *)
Inductive GeomType : Type := line | arc | spiral | poly3 | unknown.

(** A planView primitive.  Fields that only some types carry are optional:
    an absent field reads as [undefined] in the source. *)
Record Geom : Type := mkGeom {
  g_s : R; g_x : R; g_y : R; g_hdg : R; g_length : R;
  g_type : GeomType;
  g_curvature : option R;
  g_curvStart : option R;
  g_curvEnd : option R;
  g_aU : R; g_bU : R; g_cU : R; g_dU : R;
  g_aV : R; g_bV : R; g_cV : R; g_dV : R
}.

(** a [line] primitive, as the reader builds it *)
Definition mkLine (s x y hdg length : R) : Geom :=
  mkGeom s x y hdg length line None None None 0 0 0 0 0 0 0 0.

(** a [spiral] primitive, as the reader builds it *)
Definition mkSpiral (s x y hdg length : R) (curvStart curvEnd : option R) : Geom :=
  mkGeom s x y hdg length spiral None curvStart curvEnd 0 0 0 0 0 0 0 0.

(** a sample [[x, y, theta, s]] *)
Record Sample : Type := mkSample { p_x : R; p_y : R; p_th : R; p_s : R }.

(** [Number(v) || 0] on an optional number *)
Definition numOr0 (v : option R) : R :=
  match v with Some r => r | None => 0 end.

(** [v || d] on an optional number: absent and 0 both give the default *)
Definition orDefault (v : option R) (d : R) : R :=
  match v with
  | Some r => if Js.eqb r 0 then d else r
  | None => d
  end.

(** the indices [0, 1, ..., n] of a loop [for (let i = 0; i <= n; i++)] *)
Definition upto (n : Z) : list nat := seq 0 (S (Z.to_nat n)).

(** the indices [1, ..., n] of a loop [for (let i = 1; i <= n; i++)] *)
Definition from1 (n : Z) : list nat := seq 1 (Z.to_nat n).

(** [n = Math.max(1, Math.ceil(q))], for the value [q] of [length / step] *)
Definition stepsFor (q : R) : Z := Z.max 1 (Js.ceil q).

(** the number of steps of [sampleSegment], the quotient taken exactly *)
Definition stepCount (length step : R) : Z := stepsFor (length / step).

(** the straight-line samples shared by three branches of [sampleSegment] *)
Definition lineSamples (x y hdg ds : R) (n : Z) : list Sample :=
  map (fun i =>
         let s := INR i * ds in
         let px := x + s * cos hdg in
         let py := y + s * sin hdg in
         let th := hdg in
         mkSample px py th s)
      (upto n).

(** the spiral branch of [sampleSegment]: the running point is threaded
    through the loop *)
Fixpoint spiralSteps (hdg k0 dk ds : R) (px py : R) (ixs : list nat) : list Sample :=
  match ixs with
  | [] => []
  | i :: ixs' =>
      let s1 := (INR i - 1) * ds in
      let s2 := INR i * ds in
      let th1 := hdg + k0 * s1 + 0.5 * dk * s1 * s1 in
      let th2 := hdg + k0 * s2 + 0.5 * dk * s2 * s2 in
      let thm := 0.5 * (th1 + th2) in
      let dx := ds * cos thm in
      let dy := ds * sin thm in
      let px' := px + dx in
      let py' := py + dy in
      mkSample px' py' th2 s2 :: spiralSteps hdg k0 dk ds px' py' ixs'
  end.

(** [sampleSegment(geom, step)] from the quotient on: [q] is the value of
    [length / step], the only place where [step] is used *)
Definition samplesAt (geom : Geom) (q : R) : list Sample :=
  let x := g_x geom in
  let y := g_y geom in
  let hdg := g_hdg geom in
  let length := g_length geom in
  if Js.leb length 0 then []
  else
    let n := stepsFor q in
    let ds := length / IZR n in
    match g_type geom with
    | line => lineSamples x y hdg ds n
    | arc =>
        let k := numOr0 (g_curvature geom) in
        if Js.ltb (Js.abs k) 1e-12 then lineSamples x y hdg ds n
        else
          let invk := 1 / k in
          map (fun i =>
                 let s := INR i * ds in
                 let th := hdg + k * s in
                 let px := x + (sin th - sin hdg) * invk in
                 let py := y - (cos th - cos hdg) * invk in
                 mkSample px py th s)
              (upto n)
    | spiral =>
        let k0 := numOr0 (g_curvStart geom) in
        let k1 := numOr0 (g_curvEnd geom) in
        let L := length in
        let dk := (k1 - k0) / L in
        mkSample x y hdg 0 :: spiralSteps hdg k0 dk ds x y (from1 n)
    | poly3 =>
        let cosH := cos hdg in
        let sinH := sin hdg in
        map (fun i =>
               let s := INR i * ds in
               let u := g_aU geom + g_bU geom * s + g_cU geom * s * s
                        + g_dU geom * s * s * s in
               let v := g_aV geom + g_bV geom * s + g_cV geom * s * s
                        + g_dV geom * s * s * s in
               let lx := u * cosH - v * sinH in
               let ly := u * sinH + v * cosH in
               let px := x + lx in
               let py := y + ly in
               let du := g_bU geom + 2 * g_cU geom * s + 3 * g_dU geom * s * s in
               let dv := g_bV geom + 2 * g_cV geom * s + 3 * g_dV geom * s * s in
               let tx := du * cosH - dv * sinH in
               let ty := du * sinH + dv * cosH in
               let th := Js.atan2 ty tx in
               mkSample px py th s)
            (upto n)
    | unknown => lineSamples x y hdg ds n
    end.

(** [sampleSegment(geom, step)]; the step is positive at every call site.
    The quotient is taken exactly here; [samplesAt] gives the samples for
    whatever value the division of the source returns. *)
Definition sampleSegment (geom : Geom) (step : R) : list Sample :=
  samplesAt geom (g_length geom / step).

(** the options [{ baseStep, maxAngle }] of the adaptive sampler *)
Record Opts : Type := mkOpts { baseStep : option R; maxAngle : option R }.

(** the step chosen by one iteration of the spiral loop *)
Definition spiralStep (k0 dk L baseStep maxAngle s : R) : R :=
  let a := 0.5 * Js.abs dk in
  let b := Js.abs (k0 + dk * s) in
  let h := baseStep in
  let h :=
    if Js.gtb a 1e-12 then
      let disc := Js.max 0 (b * b + 4 * a * maxAngle) in
      Js.min h ((- b + sqrt disc) / (2 * a))
    else if Js.gtb b 1e-12 then Js.min h (maxAngle / b)
    else h in
  Js.max 0.05 (Js.min h (L - s)).

(** the RK4 step of the spiral loop on the state [[x, y, theta]]: the new
    state after a step of length [h] from arc length [s] *)
Definition rk4Step (k0 dk s h : R) (px py th : R) : R * R * R :=
  let kfun := fun ss => k0 + dk * ss in
  let f := fun (ss : R) (st : R * R * R) =>
             let theta := snd st in
             (cos theta, sin theta, kfun ss) in
  let c0 := fun (v : R * R * R) => fst (fst v) in
  let c1 := fun (v : R * R * R) => snd (fst v) in
  let c2 := fun (v : R * R * R) => snd v in
  let st := (px, py, th) in
  let k1v := f s st in
  let k2v := f (s + 0.5 * h)
               (c0 st + 0.5 * h * c0 k1v, c1 st + 0.5 * h * c1 k1v,
                c2 st + 0.5 * h * c2 k1v) in
  let k3v := f (s + 0.5 * h)
               (c0 st + 0.5 * h * c0 k2v, c1 st + 0.5 * h * c1 k2v,
                c2 st + 0.5 * h * c2 k2v) in
  let k4v := f (s + h)
               (c0 st + h * c0 k3v, c1 st + h * c1 k3v, c2 st + h * c2 k3v) in
  (c0 st + (h / 6) * (c0 k1v + 2 * c0 k2v + 2 * c0 k3v + c0 k4v),
   c1 st + (h / 6) * (c1 k1v + 2 * c1 k2v + 2 * c1 k3v + c1 k4v),
   c2 st + (h / 6) * (c2 k1v + 2 * c2 k2v + 2 * c2 k3v + c2 k4v)).

(** the [while (s < L - 1e-9)] loop of the spiral branch *)
Fixpoint spiralLoop (fuel : nat) (k0 dk L baseStep maxAngle : R)
  (s px py th : R) : list Sample :=
  match fuel with
  | O => []
  | S fuel' =>
      if Js.ltb s (L - 1e-9) then
        let h := spiralStep k0 dk L baseStep maxAngle s in
        let st' := rk4Step k0 dk s h px py th in
        let px' := fst (fst st') in
        let py' := snd (fst st') in
        let th' := snd st' in
        let s' := s + h in
        mkSample px' py' th' s'
          :: spiralLoop fuel' k0 dk L baseStep maxAngle s' px' py' th'
      else []
  end.

(** Every iteration of the spiral loop advances by at least 0.05, so this
    many iterations reach the end of the primitive. *)
Definition spiralFuel (L : R) : nat := S (Z.to_nat (Js.ceil (L / 0.05))).

(** the local quantities of one iteration of the ParamPoly3 loop *)
Definition poly3Heading (geom : Geom) (s : R) : R :=
  let cosH := cos (g_hdg geom) in
  let sinH := sin (g_hdg geom) in
  let du := g_bU geom + 2 * g_cU geom * s + 3 * g_dU geom * s * s in
  let dv := g_bV geom + 2 * g_cV geom * s + 3 * g_dV geom * s * s in
  let tx := du * cosH - dv * sinH in
  let ty := du * sinH + dv * cosH in
  Js.atan2 ty tx.

Definition poly3Point (geom : Geom) (s : R) : Sample :=
  let cosH := cos (g_hdg geom) in
  let sinH := sin (g_hdg geom) in
  let u := g_aU geom + g_bU geom * s + g_cU geom * s * s + g_dU geom * s * s * s in
  let v := g_aV geom + g_bV geom * s + g_cV geom * s * s + g_dV geom * s * s * s in
  let lx := u * cosH - v * sinH in
  let ly := u * sinH + v * cosH in
  mkSample (g_x geom + lx) (g_y geom + ly) (poly3Heading geom s) s.

Definition poly3Curvature (geom : Geom) (s : R) : R :=
  let cosH := cos (g_hdg geom) in
  let sinH := sin (g_hdg geom) in
  let du := g_bU geom + 2 * g_cU geom * s + 3 * g_dU geom * s * s in
  let dv := g_bV geom + 2 * g_cV geom * s + 3 * g_dV geom * s * s in
  let d2u := 2 * g_cU geom + 6 * g_dU geom * s in
  let d2v := 2 * g_cV geom + 6 * g_dV geom * s in
  let tx := du * cosH - dv * sinH in
  let ty := du * sinH + dv * cosH in
  let denom := Js.pow_3_2 (tx * tx + ty * ty) in
  let ax := d2u * cosH - d2v * sinH in
  let ay := d2u * sinH + d2v * cosH in
  if Js.gtb denom 1e-9 then Js.abs ((tx * ay - ty * ax) / denom) else 0.

Definition poly3Step (geom : Geom) (L baseStep maxAngle s : R) : R :=
  let curvature := poly3Curvature geom s in
  let dsAngle := if Js.gtb curvature 1e-9 then maxAngle / curvature else L in
  Js.min (Js.min (Js.max 0.2 baseStep) dsAngle) (L - s).

(** the [while (s < L + 1e-9)] loop of the ParamPoly3 branch, with its
    [break] and its clamp of [s] to [L] *)
Fixpoint poly3Loop (fuel : nat) (geom : Geom) (L baseStep maxAngle : R) (s : R)
  : list Sample :=
  match fuel with
  | O => []
  | S fuel' =>
      if Js.ltb s (L + 1e-9) then
        let h := poly3Step geom L baseStep maxAngle s in
        poly3Point geom s ::
          (if Js.geb s L then []
           else
             let s' := s + h in
             let s' := if Js.gtb s' L then L else s' in
             poly3Loop fuel' geom L baseStep maxAngle s')
      else []
  end.

(** A bound on the numerator of the curvature estimate over [0, L], from the
    coefficients; the steps of the ParamPoly3 loop are at least
    [poly3MinStep] long until the end is reached, which bounds its length. *)
Definition poly3NumBound (geom : Geom) (L : R) : R :=
  let du := Js.abs (g_bU geom) + 2 * Js.abs (g_cU geom) * L
            + 3 * Js.abs (g_dU geom) * L * L in
  let dv := Js.abs (g_bV geom) + 2 * Js.abs (g_cV geom) * L
            + 3 * Js.abs (g_dV geom) * L * L in
  let d2u := 2 * Js.abs (g_cU geom) + 6 * Js.abs (g_dU geom) * L in
  let d2v := 2 * Js.abs (g_cV geom) + 6 * Js.abs (g_dV geom) * L in
  2 * (du + dv) * (d2u + d2v).

Definition poly3MinStep (geom : Geom) (L maxAngle : R) : R :=
  Js.min 0.2 (Js.min L (maxAngle / (1e9 * (poly3NumBound geom L + 1)))).

Definition poly3Fuel (geom : Geom) (L maxAngle : R) : nat :=
  S (S (Z.to_nat (Js.ceil (L / poly3MinStep geom L maxAngle)))).

(** [pts[pts.length - 1][3]] *)
Definition lastS (pts : list Sample) : option R :=
  match rev pts with [] => None | p :: _ => Some (p_s p) end.

(** [sampleSegmentAdaptive(geom, opts)] *)
Definition sampleSegmentAdaptive (geom : Geom) (opts : Opts) : list Sample :=
  let x := g_x geom in
  let y := g_y geom in
  let hdg := g_hdg geom in
  let L := g_length geom in
  if negb (Js.gtb L 0) then []
  else
    let baseStep := Js.max 0.2 (orDefault (baseStep opts) 0.7) in
    let maxAngle := Js.max 0.005 (orDefault (maxAngle opts) 0.03) in
    match g_type geom with
    | line => sampleSegment geom baseStep
    | arc =>
        let k := numOr0 (g_curvature geom) in
        let dsAngle := if Js.gtb (Js.abs k) 1e-12 then maxAngle / Js.abs k else L in
        let ds := Js.min baseStep dsAngle in
        sampleSegment geom ds
    | spiral =>
        let k0 := numOr0 (g_curvStart geom) in
        let k1 := numOr0 (g_curvEnd geom) in
        let dk := (k1 - k0) / L in
        mkSample x y hdg 0
          :: spiralLoop (spiralFuel L) k0 dk L baseStep maxAngle 0 x y hdg
    | poly3 =>
        let pts := poly3Loop (poly3Fuel geom L maxAngle) geom L baseStep maxAngle 0 in
        match lastS pts with
        | None => pts ++ [poly3Point geom L]
        | Some sl => if Js.ltb sl L then pts ++ [poly3Point geom L] else pts
        end
    | unknown => sampleSegment geom baseStep
    end.

(** the options [{ step, maxAngle }] of the whole-road sampler *)
Record SeqOpts : Type := mkSeqOpts { so_step : option R; so_maxAngle : option R }.

(** [sampleGeometrySequence(geoms, opts)] *)
Definition sampleGeometrySequence (geoms : list Geom) (opts : SeqOpts)
  : list Sample :=
  let baseStep := orDefault (so_step opts) 0.7 in
  let maxAngle := orDefault (so_maxAngle opts) 0.03 in
  fold_left
    (fun out g =>
       let baseS := g_s g in
       let pts := sampleSegmentAdaptive g (mkOpts (Some baseStep) (Some maxAngle)) in
       let pts := map (fun p => mkSample (p_x p) (p_y p) (p_th p) (baseS + p_s p)) pts in
       let pts := match out, pts with
                  | _ :: _, _ :: rest => rest
                  | _, _ => pts
                  end in
       out ++ pts)
    geoms [].

(** [offsetPolyline(samples, offset)] *)
Definition offsetPolyline (samples : list Sample) (offset : R) : list Sample :=
  map (fun p =>
         let nx := - sin (p_th p) in
         let ny := cos (p_th p) in
         mkSample (p_x p + nx * offset) (p_y p + ny * offset) (p_th p) (p_s p))
      samples.

(** GeoJSON features, with the coordinates in the codomain of the projector *)
Record LineString (C P : Type) : Type :=
  mkLineString { ls_properties : option P; ls_coordinates : list C }.

Record Polygon (C P : Type) : Type :=
  mkPolygon { pg_properties : P; pg_ring : list C }.

Arguments mkLineString {C P}.
Arguments ls_properties {C P}.
Arguments ls_coordinates {C P}.
Arguments mkPolygon {C P}.
Arguments pg_properties {C P}.
Arguments pg_ring {C P}.

(** [toLineString(samples, projector)]: the properties are empty *)
Definition toLineString {C P : Type} (samples : list Sample)
  (projector : R * R -> C) : LineString C P :=
  let coords := map (fun p => projector (p_x p, p_y p)) samples in
  mkLineString None coords.

(** [toPolygon(leftSamples, rightSamples, projector, properties)].  The ring
    is closed with [left[0]]; for an empty [left] the source appends
    [undefined], which is left out here. *)
Definition toPolygon {C P : Type} (leftSamples rightSamples : list Sample)
  (projector : R * R -> C) (properties : P) : Polygon C P :=
  let left := map (fun p => projector (p_x p, p_y p)) leftSamples in
  let right := rev (map (fun p => projector (p_x p, p_y p)) rightSamples) in
  let ring := left ++ right ++ firstn 1 left in
  mkPolygon properties ring.

End Geometry.

(** ** JavaScript strings to numbers *)

Module JsString.

Local Open Scope Z_scope.

Definition chars (s : string) : list Ascii.ascii := list_ascii_of_string s.

Definition isDigit (c : Ascii.ascii) : bool :=
  let n := Ascii.nat_of_ascii c in (48 <=? n)%nat && (n <=? 57)%nat.

(** the longest prefix of decimal digits, and what follows it *)
Fixpoint spanDigits (l : list Ascii.ascii) : list Ascii.ascii * list Ascii.ascii :=
  match l with
  | c :: l' => if isDigit c then let r := spanDigits l' in (c :: fst r, snd r)
               else ([], l)
  | [] => ([], [])
  end.

Definition digitsValue (l : list Ascii.ascii) : Z :=
  fold_left (fun acc c => 10 * acc + Z.of_nat (Ascii.nat_of_ascii c - 48)) l 0.

(** an optional sign: [true] for a minus *)
Definition readSign (l : list Ascii.ascii) : bool * list Ascii.ascii :=
  match l with
  | "-"%char :: l' => (true, l')
  | "+"%char :: l' => (false, l')
  | _ => (false, l)
  end.

(** [String.prototype.trim]: blanks, tabs, line ends, vertical tabs and
    form feeds *)
Definition isBlank (c : Ascii.ascii) : bool :=
  let n := Ascii.nat_of_ascii c in
  (n =? 32)%nat || ((9 <=? n)%nat && (n <=? 13)%nat).

Fixpoint dropBlanks (l : list Ascii.ascii) : list Ascii.ascii :=
  match l with
  | c :: l' => if isBlank c then dropBlanks l' else l
  | [] => []
  end.

Definition trimChars (l : list Ascii.ascii) : list Ascii.ascii :=
  rev (dropBlanks (rev (dropBlanks l))).

Definition trim (s : string) : string := string_of_list_ascii (trimChars (chars s)).

(** the value of a digit in a radix up to 16, when it is one *)
Definition digitIn (radix : nat) (c : Ascii.ascii) : option Z :=
  let n := Ascii.nat_of_ascii c in
  let v := if (48 <=? n)%nat && (n <=? 57)%nat then Some (n - 48)%nat
           else if (97 <=? n)%nat && (n <=? 102)%nat then Some (n - 87)%nat
           else if (65 <=? n)%nat && (n <=? 70)%nat then Some (n - 55)%nat
           else None in
  match v with
  | Some d => if (d <? radix)%nat then Some (Z.of_nat d) else None
  | None => None
  end.

(** the value of a non-empty numeral in a radix: nothing when a character is
    no digit of it *)
Definition radixValue (radix : nat) (l : list Ascii.ascii) : option Z :=
  match l with
  | [] => None
  | _ =>
      fold_left (fun acc c =>
                   match acc, digitIn radix c with
                   | Some a, Some d => Some (Z.of_nat radix * a + d)
                   | _, _ => None
                   end) l (Some 0)
  end.

(** a decimal literal: an optional sign, digits with an optional fraction,
    an optional exponent *)
Definition decimalLiteral (l0 : list Ascii.ascii) : option R :=
  let (neg, l) := readSign l0 in
  let (ip, l) := spanDigits l in
  let (fp, l) := match l with
                 | "."%char :: l' => spanDigits l'
                 | _ => ([], l)
                 end in
  match ip ++ fp with
  | [] => None
  | mant =>
      let ex := match l with
                | "e"%char :: l' | "E"%char :: l' =>
                    let (eneg, l'') := readSign l' in
                    let (ed, rest) := spanDigits l'' in
                    match ed with
                    | [] => None
                    | _ => Some ((if eneg then - digitsValue ed else digitsValue ed),
                                 rest)
                    end
                | _ => Some (0, l)
                end in
      match ex with
      | Some (e, []) =>
          let m := IZR (digitsValue mant) in
          let v := (m * powerRZ 10 (e - Z.of_nat (List.length fp)))%R in
          Some (if neg then (- v)%R else v)
      | _ => None
      end
  end.

(** [Number(s)] when the result is finite; [None] stands for [NaN] and the
    infinities.  The string is trimmed; the empty string is 0; [0x], [0o]
    and [0b] introduce hexadecimal, octal and binary numerals; everything
    else is a decimal literal.  The value is the exact real the literal
    denotes: there is no rounding to a double and no overflow. *)
Definition Number (s : string) : option R :=
  match trimChars (chars s) with
  | [] => Some 0%R
  | "0"%char :: "x"%char :: l | "0"%char :: "X"%char :: l =>
      option_map IZR (radixValue 16 l)
  | "0"%char :: "o"%char :: l | "0"%char :: "O"%char :: l =>
      option_map IZR (radixValue 8 l)
  | "0"%char :: "b"%char :: l | "0"%char :: "B"%char :: l =>
      option_map IZR (radixValue 2 l)
  | l => decimalLiteral l
  end.

(** [a || b] on attribute values: [null] and the empty string are falsy *)
Definition orElse (a b : option string) : option string :=
  match a with
  | Some ""%string | None => b
  | Some _ => a
  end.

(** [a || d] with a string default *)
Definition orString (a : option string) (d : string) : string :=
  match a with
  | Some ""%string | None => d
  | Some v => v
  end.

(** [a || undefined] *)
Definition orUndefined (a : option string) : option string :=
  match a with
  | Some ""%string | None => None
  | Some _ => a
  end.

End JsString.

(** ** The document tree handed over by [DOMParser] *)

Module Dom.

Inductive Node : Type :=
| Text (s : string)
| Element (tag : string) (attrs : list (string * string)) (children : list Node).

Definition isElement (tag : string) (n : Node) : bool :=
  match n with
  | Element t _ _ => String.eqb t tag
  | Text _ => false
  end.

Definition children (n : Node) : list Node :=
  match n with
  | Element _ _ ch => ch
  | Text _ => []
  end.

(** [el.getAttribute(name)]: [None] is [null] *)
Definition getAttribute (n : Node) (name : string) : option string :=
  match n with
  | Element _ attrs _ =>
      match find (fun kv => String.eqb (fst kv) name) attrs with
      | Some kv => Some (snd kv)
      | None => None
      end
  | Text _ => None
  end.

(** [el.textContent] *)
Fixpoint textContent (n : Node) : string :=
  match n with
  | Text s => s
  | Element _ _ ch =>
      (fix go (l : list Node) : string :=
         match l with
         | [] => EmptyString
         | c :: l' => append (textContent c) (go l')
         end) ch
  end.

(** the elements of a subtree in document order, each with the tag of its
    parent element *)
Fixpoint subtree (parent : option string) (n : Node) : list (option string * Node) :=
  match n with
  | Text _ => []
  | Element t _ ch =>
      (parent, n) ::
        (fix go (l : list Node) : list (option string * Node) :=
           match l with
           | [] => []
           | c :: l' => subtree (Some t) c ++ go l'
           end) ch
  end.

(** [doc.querySelectorAll('tag')] on the document with root element [root] *)
Definition selectAll (root : Node) (tag : string) : list Node :=
  map snd (filter (fun pe => isElement tag (snd pe)) (subtree None root)).

(** [doc.querySelectorAll('p > c')] on the document with root element [root] *)
Definition selectChildOf (root : Node) (p c : string) : list Node :=
  map snd
    (filter (fun pe =>
               match fst pe with
               | Some t => String.eqb t p && isElement c (snd pe)
               | None => false
               end)
            (subtree None root)).

(** [el.querySelectorAll('tag')]: the descendants of [el], not [el] itself *)
Definition descendantsNamed (el : Node) (tag : string) : list Node :=
  List.concat (map (fun c => selectAll c tag) (children el)).

(** [el.querySelectorAll(':scope > tag')] *)
Definition childrenNamed (el : Node) (tag : string) : list Node :=
  filter (isElement tag) (children el).

(** [el.querySelector(':scope > tag')]: [None] is [null] *)
Definition childNamed (el : Node) (tag : string) : option Node :=
  hd_error (childrenNamed el tag).

(** [el.querySelectorAll(':scope > a > b')] *)
Definition grandChildrenNamed (el : Node) (a b : string) : list Node :=
  List.concat (map (fun c => childrenNamed c b) (childrenNamed el a)).

End Dom.

(** ** opendrive.js *)

Module OpenDrive.

Import Dom.
Local Open Scope string_scope.

(** [textOf(el)] for a present element *)
Definition textOf (el : Node) : string := JsString.trim (textContent el).

(** [num(v)]: [None] is [undefined].  A numeral beyond the range of a
    double, which the source reads as an infinity and drops, reads here as
    the number it spells. *)
Definition num (v : option string) : option R :=
  match v with
  | None => None
  | Some s => JsString.Number s
  end.

(** [num(v) || 0] *)
Definition num0 (v : option string) : R :=
  match num v with Some r => r | None => 0%R end.

(** the type-specific part of a planView primitive *)
Inductive Shape : Type :=
| SLine
| SArc (curvature : option R)
| SSpiral (curvStart curvEnd : option R)
| SPoly3 (aU bU cU dU aV bV cV dV : option R).

Record PlanGeom : Type := mkPlanGeom {
  pv_s : option R; pv_x : option R; pv_y : option R; pv_hdg : option R;
  pv_length : option R; pv_shape : Shape
}.

Record LaneOffset : Type := mkLaneOffset {
  lo_s : R; lo_a : R; lo_b : R; lo_c : R; lo_d : R
}.

Record WidthRec : Type := mkWidthRec {
  wr_sOffset : option R; wr_a : option R; wr_b : option R; wr_c : option R;
  wr_d : option R
}.

Record RoadMark : Type := mkRoadMark {
  rm_sOffset : R; rm_type : string; rm_color : option string;
  rm_width : option R; rm_material : option string;
  rm_laneChange : option string; rm_weight : option string;
  rm_height : option R; rm_rule : option string
}.

Record Lane : Type := mkLane {
  ln_id : option R; ln_type : string; ln_widths : list WidthRec;
  ln_roadMarks : list RoadMark;
  ln_predecessor : option R; ln_successor : option R
}.

Record LaneSection : Type := mkLaneSection {
  sec_s : option R; sec_left : list Lane; sec_center : list Lane;
  sec_right : list Lane
}.

Record Road : Type := mkRoad {
  rd_id : option string; rd_name : string; rd_length : option R;
  rd_planView : list PlanGeom; rd_laneSections : list LaneSection;
  rd_laneOffsets : list LaneOffset
}.

Record Header : Type := mkHeader {
  lat0 : option R; lon0 : option R; geoRef : string
}.

Record RoadModel : Type := mkRoadModel { header : Header; roads : list Road }.

(** the character class of [findNumberInCrs].  The pattern is built from a
    template literal, where the backslash before the minus is dropped: the
    class reads [[0-9eE+-.]], and [+-.] is the range from the plus sign to
    the full stop, which also holds the comma. *)
Definition crsChar (c : ascii) : bool :=
  let n := Ascii.nat_of_ascii c in
  JsString.isDigit c
  || Ascii.eqb c "e" || Ascii.eqb c "E"
  || ((43 <=? n)%nat && (n <=? 46)%nat).

Fixpoint spanCrs (l : list ascii) : list ascii :=
  match l with
  | c :: l' => if crsChar c then c :: spanCrs l' else []
  | [] => []
  end.

Fixpoint stripPrefix (p l : list ascii) : option (list ascii) :=
  match p, l with
  | [], _ => Some l
  | a :: p', b :: l' => if Ascii.eqb a b then stripPrefix p' l' else None
  | _ :: _, [] => None
  end.

(** the leftmost match of the pattern, [key=] followed by a longest
    non-empty run of the class: its captured group *)
Fixpoint crsMatch (pat l : list ascii) : option (list ascii) :=
  let here := match stripPrefix pat l with
              | Some rest => match spanCrs rest with
                             | [] => None
                             | m => Some m
                             end
              | None => None
              end in
  match here with
  | Some m => Some m
  | None => match l with
            | [] => None
            | _ :: l' => crsMatch pat l'
            end
  end.

(** [findNumberInCrs(crsText, key)]; the key holds no special character.
    A captured group that is no number gives [NaN] in the source and [None]
    here. *)
Definition findNumberInCrs (crsText key : string) : option R :=
  match crsText with
  | EmptyString => None
  | _ =>
      match crsMatch (JsString.chars (key ++ "=")) (JsString.chars crsText) with
      | Some m => JsString.Number (string_of_list_ascii m)
      | None => None
      end
  end.

(** the body of the [forEach] over the [geometry] elements: a primitive, or
    nothing when no known child element selects its type *)
Definition readGeometry (g : Node) : option PlanGeom :=
  let base := mkPlanGeom (num (getAttribute g "s")) (num (getAttribute g "x"))
                (num (getAttribute g "y")) (num (getAttribute g "hdg"))
                (num (getAttribute g "length")) in
  match childNamed g "line" with
  | Some _ => Some (base SLine)
  | None =>
      match childNamed g "arc" with
      | Some arc => Some (base (SArc (num (getAttribute arc "curvature"))))
      | None =>
          match childNamed g "spiral" with
          | Some sp =>
              let curvStart := num (JsString.orElse (getAttribute sp "curvStart")
                                      (getAttribute sp "curvatureStart")) in
              let curvEnd := num (JsString.orElse (getAttribute sp "curvEnd")
                                    (getAttribute sp "curvatureEnd")) in
              Some (base (SSpiral curvStart curvEnd))
          | None =>
              match childNamed g "paramPoly3" with
              | Some p =>
                  Some (base (SPoly3
                                (num (getAttribute p "aU")) (num (getAttribute p "bU"))
                                (num (getAttribute p "cU")) (num (getAttribute p "dU"))
                                (num (getAttribute p "aV")) (num (getAttribute p "bV"))
                                (num (getAttribute p "cV")) (num (getAttribute p "dV"))))
              | None => None
              end
          end
      end
  end.

(** [arr.push(v)] for an optional value *)
Definition pushSome {A : Type} (acc : list A) (v : option A) : list A :=
  match v with Some a => (acc ++ [a])%list | None => acc end.

Definition readWidth (w : Node) : WidthRec :=
  mkWidthRec (num (getAttribute w "sOffset")) (num (getAttribute w "a"))
    (num (getAttribute w "b")) (num (getAttribute w "c"))
    (num (getAttribute w "d")).

Definition readRoadMark (rm : Node) : RoadMark :=
  mkRoadMark (num0 (getAttribute rm "sOffset"))
    (JsString.orString (getAttribute rm "type") "none")
    (JsString.orUndefined (getAttribute rm "color"))
    (num (getAttribute rm "width"))
    (JsString.orUndefined (getAttribute rm "material"))
    (JsString.orUndefined (getAttribute rm "laneChange"))
    (JsString.orUndefined (getAttribute rm "weight"))
    (num (getAttribute rm "height"))
    (JsString.orUndefined (getAttribute rm "rule")).

(** the link of a lane to [which] ([predecessor] or [successor]) *)
Definition readLink (lane : Node) (which : string) : option R :=
  match childNamed lane "link" with
  | Some link =>
      match childNamed link which with
      | Some e => num (getAttribute e "id")
      | None => None
      end
  | None => None
  end.

Definition readLane (lane : Node) : Lane :=
  mkLane (num (getAttribute lane "id"))
    (JsString.orString (getAttribute lane "type") "none")
    (map readWidth (childrenNamed lane "width"))
    (Js.sort_by rm_sOffset (map readRoadMark (childrenNamed lane "roadMark")))
    (readLink lane "predecessor") (readLink lane "successor").

(** [readLanes(container)]: sorted by descending id.  For a lane without a
    numeric id the comparator [b.id - a.id] of the source is NaN and the
    order is left to the engine's sort; such a lane is ordered here as if
    its id were 0, and statements about the order assume numeric ids. *)
Definition readLanes (container : option Node) : list Lane :=
  match container with
  | None => []
  | Some c =>
      Js.sort_by (fun l => (- match ln_id l with Some i => i | None => 0 end)%R)
        (map readLane (childrenNamed c "lane"))
  end.

Definition readLaneOffset (lo : Node) : LaneOffset :=
  mkLaneOffset (num0 (getAttribute lo "s")) (num0 (getAttribute lo "a"))
    (num0 (getAttribute lo "b")) (num0 (getAttribute lo "c"))
    (num0 (getAttribute lo "d")).

Definition readLaneSection (ls : Node) : LaneSection :=
  mkLaneSection (num (getAttribute ls "s"))
    (readLanes (childNamed ls "left"))
    (readLanes (childNamed ls "center"))
    (readLanes (childNamed ls "right")).

(** the body of the [forEach] over the [road] elements: the record pushed
    onto [roads] *)
Definition readRoad (r : Node) : Road :=
  let id := getAttribute r "id" in
  let name := JsString.orString (getAttribute r "name") "" in
  let length := num (getAttribute r "length") in
  let planView :=
    fold_left (fun acc g => pushSome acc (readGeometry g))
      (grandChildrenNamed r "planView" "geometry") [] in
  let laneOffsets :=
    Js.sort_by lo_s (map readLaneOffset (grandChildrenNamed r "lanes" "laneOffset")) in
  let laneSections :=
    map readLaneSection (grandChildrenNamed r "lanes" "laneSection") in
  mkRoad id name length planView laneSections laneOffsets.

(** [parseOpenDrive], from the document that [DOMParser] returns for the
    text: [inl] is the thrown error *)
Definition parseOpenDrive (doc : Node) : string + RoadModel :=
  match selectAll doc "parsererror" with
  | _ :: _ => inl "XML parse error"
  | [] =>
      let header := hd_error (selectChildOf doc "OpenDRIVE" "header") in
      let geoRefNode :=
        match header with
        | Some h => hd_error (descendantsNamed h "geoReference")
        | None => None
        end in
      let geoRef := match geoRefNode with Some n => textOf n | None => "" end in
      let lat0 := findNumberInCrs geoRef "lat_0" in
      let lon0 := findNumberInCrs geoRef "lon_0" in
      let roads :=
        fold_left (fun roads r => (roads ++ [readRoad r])%list)
          (selectChildOf doc "OpenDRIVE" "road") [] in
      inr (mkRoadModel (mkHeader lat0 lon0 geoRef) roads)
  end.

(** a width record with all its numbers present *)
Record Width : Type := mkWidth {
  w_sOffset : R; w_a : R; w_b : R; w_c : R; w_d : R
}.

(** [laneWidthAt(widths, sInSection)] *)
Definition laneWidthAt (widths : list Width) (sInSection : R) : R :=
  match widths with
  | [] => 0%R
  | w0 :: _ =>
      let seg :=
        fold_left (fun seg w =>
                     if Js.geb (sInSection + 1e-9) (w_sOffset w) then w else seg)
          widths w0 in
      let ds := (sInSection - w_sOffset seg)%R in
      (w_a seg + w_b seg * ds + w_c seg * ds * ds + w_d seg * ds * ds * ds)%R
  end.

(** a document with a road element that has no id, no length and no
    geometry, followed by a complete road *)
Definition incompleteRoadDoc : Node :=
  Element "OpenDRIVE" []
    [Element "header" [] [];
     Element "road" [] [];
     Element "road" [("id", "1"); ("length", "10")]
       [Element "planView" []
          [Element "geometry"
             [("s", "0"); ("x", "0"); ("y", "0"); ("hdg", "0"); ("length", "10")]
             [Element "line" [] []]]]].

(** the document of a parse failure, as browsers report it *)
Definition brokenDoc : Node :=
  Element "parsererror" [] [Text "error on line 1"].

End OpenDrive.

(** ** index.js: lane runs along a lane track *)

Module LaneBuilder.

Import Geometry OpenDrive.

Inductive Side : Type := left | right.

(** a lane of a section, with the numbers the builder evaluates *)
Record LaneRec : Type := mkLaneRec {
  l_id : R; l_type : string; l_widths : list Width
}.

Record Section : Type := mkSection {
  s_s : R; s_left : list LaneRec; s_right : list LaneRec
}.

Record Road : Type := mkRoadData {
  laneSections : list Section; laneOffsets : list LaneOffset
}.

(** a node of a lane track: the lane [n_id] of the section with index [n_si] *)
Record TrackNode : Type := mkNode { n_si : nat; n_id : R }.

Record Track : Type := mkTrack { t_side : Side; t_nodes : list TrackNode }.

(** the vanishing threshold *)
Definition EPS : R := 0.005.

(** [arr.map((x, i) => [i, x])] *)
Definition indexed {A : Type} (l : list A) : list (nat * A) :=
  combine (seq 0 (List.length l)) l.

(** [sectionAt(s)] together with [road.laneSections.indexOf(sec)]; [None] is
    [null], with index -1 *)
Definition sectionAt (road : Road) (s : R) : option (nat * Section) :=
  match laneSections road with
  | [] => None
  | ls0 :: _ =>
      Some (fold_left
              (fun sec ils => if Js.geb (s + 1e-9) (s_s (snd ils)) then ils else sec)
              (indexed (laneSections road)) (0%nat, ls0))
  end.

(** [laneOffsetAt(s)] *)
Definition laneOffsetAt (road : Road) (s : R) : R :=
  match laneOffsets road with
  | [] => 0
  | r0 :: _ =>
      let rec :=
        fold_left (fun rec r => if Js.geb (s + 1e-9) (lo_s r) then r else rec)
          (laneOffsets road) r0 in
      let ds := s - lo_s rec in
      lo_a rec + lo_b rec * ds + lo_c rec * ds * ds + lo_d rec * ds * ds * ds
  end.

(** [interpPoint(p1, p2, t)] *)
Definition interpPoint (p1 p2 : Sample) (t : R) : Sample :=
  let x := p_x p1 + (p_x p2 - p_x p1) * t in
  let y := p_y p1 + (p_y p2 - p_y p1) * t in
  let th := p_th p1 + (p_th p2 - p_th p1) * t in
  let s := p_s p1 + (p_s p2 - p_s p1) * t in
  mkSample x y th s.

(** [offsetPoint(sample, offset)] *)
Definition offsetPoint (sample : Sample) (offset : R) : Sample :=
  let nx := - sin (p_th sample) in
  let ny := cos (p_th sample) in
  mkSample (p_x sample + nx * offset) (p_y sample + ny * offset)
    (p_th sample) (p_s sample).

(** [sec?.[side] || []] *)
Definition lanesOf (side : Side) (sec : option (nat * Section)) : list LaneRec :=
  match sec with
  | Some (_, ls) => match side with left => s_left ls | right => s_right ls end
  | None => []
  end.

(** [sec?.s || 0] *)
Definition startOf (sec : option (nat * Section)) : R :=
  match sec with Some (_, ls) => s_s ls | None => 0 end.

(** [track.nodes.find(n => n.si === si)] *)
Definition nodeAt (track : Track) (sec : option (nat * Section)) : option TrackNode :=
  match sec with
  | Some (si, _) => find (fun n => Nat.eqb (n_si n) si) (t_nodes track)
  | None => None
  end.

(** [widths.find(w => w.id === id)] *)
Definition findLane (lanes : list LaneRec) (id : R) : option LaneRec :=
  find (fun ln => Js.eqb (l_id ln) id) lanes.

(** [laneWidthAt(thisLane?.widths || [], s - (sec?.s || 0))] *)
Definition widthAt (side : Side) (sec : option (nat * Section)) (id s : R) : R :=
  let thisLane := findLane (lanesOf side sec) id in
  laneWidthAt (match thisLane with Some ln => l_widths ln | None => [] end)
    (s - startOf sec).

(** the outer lateral offset: the lane offset plus, on the left, the widths
    of the lanes with [id <= laneId], minus, on the right, those of the
    lanes with [id >= laneId] taken in ascending order of id *)
Definition outerAt (road : Road) (side : Side) (sec : option (nat * Section))
  (id s : R) : R :=
  match side with
  | left =>
      fold_left
        (fun outer ln =>
           let w := laneWidthAt (l_widths ln) (s - startOf sec) in
           if Js.leb (l_id ln) id then outer + w else outer)
        (lanesOf left sec) (laneOffsetAt road s)
  | right =>
      fold_left
        (fun outer ln =>
           let w := laneWidthAt (l_widths ln) (s - startOf sec) in
           if Js.geb (l_id ln) id then outer - w else outer)
        (Js.sort_by l_id (lanesOf right sec)) (laneOffsetAt road s)
  end.

(** [side === 'left' ? off - w : off + w] *)
Definition innerOf (side : Side) (off w : R) : R :=
  match side with left => off - w | right => off + w end.

(** the properties of a lane-run polygon that describe the run; the road
    attributes, the feature identifier and the road-mark attributes copied
    alongside are left out.  [p_laneId] is [None] for the string ['track']. *)
Record Props : Type := mkProps {
  p_side : Side; p_laneId : option R; p_laneType : string;
  p_s0 : R; p_s1 : R; p_secStartS : R; p_secEndS : R
}.

(** the state of the loop of [buildLaneRunsTrack] *)
Record State (C : Type) : Type := mkState {
  runOuter : list Sample; runInner : list Sample;
  active : bool; prevWidth : R; runType : option string;
  features : list (Polygon C Props)
}.

Arguments mkState {C}.
Arguments runOuter {C}.
Arguments runInner {C}.
Arguments active {C}.
Arguments prevWidth {C}.
Arguments runType {C}.
Arguments features {C}.

Definition initial {C : Type} : State C := mkState [] [] false 0 None [].

(** [runOuter[0][3]] and [runOuter[runOuter.length - 1][3]] of a run that is
    not empty *)
Definition firstS (run : list Sample) : R :=
  match run with p :: _ => p_s p | [] => 0 end.

Definition finalS (run : list Sample) : R :=
  match rev run with p :: _ => p_s p | [] => 0 end.

(** [runType || other] *)
Definition typeOr (runType : option string) (other : string) : string :=
  match runType with
  | Some EmptyString | None => other
  | Some t => t
  end.

(** the polygon of a run: [toPolygon(runOuter, runInner, ...)] on the left,
    [toPolygon(runInner, runOuter, ...)] on the right *)
Definition runPolygon {C : Type} (projector : R * R -> C) (side : Side)
  (runOuter runInner : list Sample) (props : Props) : Polygon C Props :=
  match side with
  | left => toPolygon runOuter runInner projector props
  | right => toPolygon runInner runOuter projector props
  end.

(** the block [if (runOuter.length >= 2 && runInner.length >= 2) { ... }]
    that pushes the polygon of the run *)
Definition pushRun {C : Type} (road : Road) (projector : R * R -> C)
  (side : Side) (laneId : option R) (laneType : string)
  (runOuter runInner : list Sample) (features : list (Polygon C Props))
  : list (Polygon C Props) :=
  if (2 <=? List.length runOuter)%nat && (2 <=? List.length runInner)%nat then
    let s0 := firstS runOuter in
    let s1 := finalS runOuter in
    let props := mkProps side laneId laneType s0 s1
                   (startOf (sectionAt road s0)) (startOf (sectionAt road s1)) in
    features ++ [runPolygon projector side runOuter runInner props]
  else features.

(** the interpolation parameter of a threshold crossing *)
Definition crossing (w0 wCur : R) : R :=
  if Js.eqb (wCur - w0) 0 then 0 else (EPS - w0) / (wCur - w0).

(** [node0 = track.nodes.find(n => n.si === si0) || node], for the section
    of the previous sample *)
Definition nodeBefore (road : Road) (track : Track) (node : TrackNode)
  (prev : Sample) : TrackNode :=
  match nodeAt track (sectionAt road (p_s prev)) with
  | Some n => n
  | None => node
  end.

(** [w0]: the width of the lane at the previous sample *)
Definition widthBefore (road : Road) (track : Track) (node : TrackNode)
  (prev : Sample) : R :=
  let s0 := p_s prev in
  widthAt (t_side track) (sectionAt road s0)
    (n_id (nodeBefore road track node prev)) s0.

(** [offPrevOuter]: the outer offset at the previous sample *)
Definition outerBefore (road : Road) (track : Track) (node : TrackNode)
  (prev : Sample) : R :=
  let s0 := p_s prev in
  outerAt road (t_side track) (sectionAt road s0)
    (n_id (nodeBefore road track node prev)) s0.

(** the pair of boundary points pushed where a run starts or ends between
    the previous sample and the current one: [(outer, inner)] *)
Definition boundaryPair (road : Road) (track : Track) (node : TrackNode)
  (prev cur : Sample) (wCur outer : R) : Sample * Sample :=
  let side := t_side track in
  let w0 := widthBefore road track node prev in
  let t := crossing w0 wCur in
  let sp := interpPoint prev cur t in
  let offPrevOuter := outerBefore road track node prev in
  let offOuterInterp := offPrevOuter + (outer - offPrevOuter) * t in
  (offsetPoint sp offOuterInterp,
   offsetPoint sp (innerOf side offOuterInterp EPS)).

(** [(thisLane && (thisLane.type || 'none')) || 'none'] *)
Definition typeNowOf (thisLane : option LaneRec) : string :=
  match thisLane with
  | Some ln => match l_type ln with EmptyString => "none"%string | t => t end
  | None => "none"%string
  end.

(** one iteration of the loop of [buildLaneRunsTrack]: [prev] is
    [samples[i-1]], absent when [i = 0] *)
Definition trackStep {C : Type} (road : Road) (projector : R * R -> C)
  (track : Track) (prev : option Sample) (cur : Sample) (st : State C) : State C :=
  let s := p_s cur in
  let sec := sectionAt road s in
  match nodeAt track sec with
  | None =>
      if active st then
        mkState [] [] false 0 (runType st)
          (pushRun road projector (t_side track) None (typeOr (runType st) "")
             (runOuter st) (runInner st) (features st))
      else st
  | Some node =>
      let side := t_side track in
      let thisLane := findLane (lanesOf side sec) (n_id node) in
      let wCur := widthAt side sec (n_id node) s in
      let outer := outerAt road side sec (n_id node) s in
      let inner := innerOf side outer wCur in
      let pOuter := offsetPoint cur outer in
      let pInner := offsetPoint cur inner in
      let typeNow := typeNowOf thisLane in
      let widthOk := Js.gtb wCur EPS in
      if widthOk then
        if negb (active st) then
          let boundary :=
            match prev with
            | Some p =>
                if Js.leb (prevWidth st) EPS then
                  let b := boundaryPair road track node p cur wCur outer in
                  ([fst b], [snd b])
                else ([], [])
            | None => ([], [])
            end in
          mkState (runOuter st ++ fst boundary ++ [pOuter])
            (runInner st ++ snd boundary ++ [pInner])
            true wCur (Some typeNow) (features st)
        else
          mkState (runOuter st ++ [pOuter]) (runInner st ++ [pInner])
            true wCur (runType st) (features st)
      else if active st then
        let boundary :=
          match prev with
          | Some p =>
              let b := boundaryPair road track node p cur wCur outer in
              ([fst b], [snd b])
          | None => ([], [])
          end in
        let runOuter' := runOuter st ++ fst boundary in
        let runInner' := runInner st ++ snd boundary in
        mkState [] [] false wCur (runType st)
          (pushRun road projector side (Some (n_id node))
             (typeOr (runType st) typeNow) runOuter' runInner' (features st))
      else
        mkState (runOuter st) (runInner st) (active st) wCur (runType st)
          (features st)
  end.

(** the loop over the samples *)
Fixpoint trackLoop {C : Type} (road : Road) (projector : R * R -> C)
  (track : Track) (prev : option Sample) (samples : list Sample) (st : State C)
  : State C :=
  match samples with
  | [] => st
  | cur :: rest =>
      trackLoop road projector track (Some cur) rest
        (trackStep road projector track prev cur st)
  end.

(** [track.nodes[track.nodes.length - 1]?.id] *)
Definition lastNodeId (track : Track) : option R :=
  match rev (t_nodes track) with n :: _ => Some (n_id n) | [] => None end.

(** [buildLaneRunsTrack(track)] on the samples of the road *)
Definition buildLaneRunsTrack {C : Type} (road : Road) (projector : R * R -> C)
  (samples : list Sample) (track : Track) : list (Polygon C Props) :=
  let st := trackLoop road projector track None samples initial in
  if active st then
    pushRun road projector (t_side track) (lastNodeId track)
      (typeOr (runType st) "") (runOuter st) (runInner st) (features st)
  else features st.

(** Vocabulary for statements about lane runs. *)

(** the width of the track's lane at arc length [s]; [None] where the track
    has no lane in the section *)
Definition laneWidthOn (road : Road) (track : Track) (s : R) : option R :=
  let sec := sectionAt road s in
  match nodeAt track sec with
  | Some node => Some (widthAt (t_side track) sec (n_id node) s)
  | None => None
  end.

(** [p] lies at the lateral offset [off] from the centreline point [c], to
    the left of its heading for a positive offset, and carries its heading
    and its arc length *)
Definition lateralAt (c : Sample) (off : R) (p : Sample) : Prop :=
  p_x p = p_x c - sin (p_th c) * off
  /\ p_y p = p_y c + cos (p_th c) * off
  /\ p_th p = p_th c /\ p_s p = p_s c.

(** [c] lies between [a] and [b], at the parameter [t] in every component *)
Definition betweenAt (a b : Sample) (t : R) (c : Sample) : Prop :=
  p_x c = p_x a + (p_x b - p_x a) * t
  /\ p_y c = p_y a + (p_y b - p_y a) * t
  /\ p_th c = p_th a + (p_th b - p_th a) * t
  /\ p_s c = p_s a + (p_s b - p_s a) * t.





(** the projected vertices of a boundary *)
Definition projected {C : Type} (projector : R * R -> C) (run : list Sample)
  : list C :=
  map (fun p => projector (p_x p, p_y p)) run.

(** the ring of the polygon of a run *)
Definition ringOf {C : Type} (projector : R * R -> C) (side : Side)
  (O I : list Sample) : list C :=
  match side with
  | left => projected projector O ++ rev (projected projector I)
              ++ firstn 1 (projected projector O)
  | right => projected projector I ++ rev (projected projector O)
               ++ firstn 1 (projected projector I)
  end.



(** examples: a road with one section and one left lane whose width grows
    linearly from 0, and a track that follows this lane *)
Definition wedgeRoad : Road :=
  mkRoadData [mkSection 0 [mkLaneRec 1 "driving" [mkWidth 0 0 1 0 0]] []] [].

Definition wedgeSection : Section :=
  mkSection 0 [mkLaneRec 1 "driving" [mkWidth 0 0 1 0 0]] [].

Definition wedgeTrack : Track := mkTrack left [mkNode 0 1].

(** the projector of a headless run: local coordinates as they are *)
Definition idProj (xy : R * R) : R * R := xy.

Definition wedgeSamples : list Sample :=
  [mkSample 0 0 0 0; mkSample 1 0 0 1; mkSample 2 0 0 2].

End LaneBuilder.

(** ** editor.js: corner rounding *)

Module Editor.

(** a screen point [{x, y}] *)
Record Pt : Type := mkPt { x : R; y : R }.

(** the map widget: [map.project] and [map.unproject], on [[lng, lat]] pairs *)
Record MapView : Type := mkMap {
  project : R * R -> Pt;
  unproject : Pt -> R * R
}.

(** the table of rounding factors of an axis: the object
    [{ [vertexIndex]: k }] with its finite numeric entries *)
Definition Rounding : Type := list (nat * R).

(** a JavaScript [Map] with string keys, in insertion order *)
Definition JsMap (V : Type) : Type := list (string * V).

Definition map_get {V : Type} (m : JsMap V) (k : string) : option V :=
  match find (fun kv => String.eqb (fst kv) k) m with
  | Some kv => Some (snd kv)
  | None => None
  end.

Fixpoint map_set {V : Type} (m : JsMap V) (k : string) (v : V) : JsMap V :=
  match m with
  | [] => [(k, v)]
  | kv :: m' => if String.eqb (fst kv) k then (k, v) :: m'
                else kv :: map_set m' k v
  end.

(** an axis: [{ id, geometry: { coordinates } }] *)
Record Feature : Type := mkFeature { f_id : string; coordinates : list (R * R) }.

Definition toPx (map : MapView) (ll : R * R) : Pt := project map ll.
Definition toLL (map : MapView) (p : Pt) : R * R := unproject map p.

Definition sub (a b : Pt) : Pt := mkPt (x a - x b) (y a - y b).
Definition add (a b : Pt) : Pt := mkPt (x a + x b) (y a + y b).
Definition mul (a : Pt) (k : R) : Pt := mkPt (x a * k) (y a * k).
Definition len (v : Pt) : R := Js.hypot (x v) (y v).
Definition norm (v : Pt) : Pt :=
  let L := len v in
  if Js.gtb L 1e-9 then mkPt (x v / L) (y v / L) else mkPt 0 0.
Definition leftN (v : Pt) : Pt := mkPt (- y v) (x v).
Definition dot (a b : Pt) : R := x a * x b + y a * y b.
Definition crossZ (a b : Pt) : R := x a * y b - y a * x b.

(** [getRoundK(axisId, idx)] *)
Definition getRoundK (roundingByAxis : JsMap Rounding) (axisId : string)
  (idx : nat) : R :=
  match map_get roundingByAxis axisId with
  | Some m =>
      match find (fun kv => Nat.eqb (fst kv) idx) m with
      | Some kv => snd kv
      | None => 1
      end
  | None => 1
  end.

(** [setRoundK(axisId, idx, k)] for a numeric [k] *)
Definition setRoundK (roundingByAxis : JsMap Rounding) (axisId : string)
  (idx : nat) (k : R) : JsMap Rounding :=
  let m := match map_get roundingByAxis axisId with Some m => m | None => [] end in
  let v := Js.max 0 (Js.min 1 k) in
  let m' := if existsb (fun kv => Nat.eqb (fst kv) idx) m
            then List.map (fun kv => if Nat.eqb (fst kv) idx then (idx, v) else kv) m
            else m ++ [(idx, v)] in
  map_set roundingByAxis axisId m'.

(** [px[i]] *)
Definition at_ (px : list Pt) (i : nat) : Pt := nth i px (mkPt 0 0).

(** [tangentLengthAt(coords, idx, axisId)] *)
Definition tangentLengthAt (map : MapView) (roundingByAxis : JsMap Rounding)
  (coords : list (R * R)) (idx : nat) (axisId : string) : R :=
  if (idx <=? 0)%nat || (List.length coords - 1 <=? idx)%nat then 0
  else
    let P0 := toPx map (nth (idx - 1) coords (0, 0)) in
    let P1 := toPx map (nth idx coords (0, 0)) in
    let P2 := toPx map (nth (idx + 1) coords (0, 0)) in
    let v0 := norm (sub P1 P0) in
    let v1 := norm (sub P2 P1) in
    let c := x v0 * x v1 + y v0 * y v1 in
    let alpha := acos (Js.max (-1) (Js.min 1 c)) in
    if negb (Js.gtb alpha 1e-3) then 0
    else
      let tanHalf := tan (alpha / 2) in
      if negb (Js.gtb tanHalf 1e-6) then 0
      else
        let Lprev := len (sub P1 P0) in
        let Lnext := len (sub P2 P1) in
        let minLen := Js.min Lprev Lnext in
        let k := getRoundK roundingByAxis axisId idx in
        let t_goal := (Js.max 0 (Js.min 1 k) * minLen / alpha) * tanHalf in
        let t_max_base := 0.49 * minLen in
        Js.max 0 (Js.min t_goal t_max_base).

(** [tangentLengthAtLL(axisId, axisCoordsLL, idx)] *)
Definition tangentLengthAtLL (map : MapView) (roundingByAxis : JsMap Rounding)
  (axisId : string) (axisCoordsLL : list (R * R)) (idx : nat) : R :=
  tangentLengthAt map roundingByAxis axisCoordsLL idx axisId.

(** the loops [while (end < start) end += 2 PI] and
    [while (end > start) end -= 2 PI], run for as many iterations as they
    need *)
Fixpoint raiseEnd (fuel : nat) (start end_ : R) : R :=
  match fuel with
  | O => end_
  | S fuel' => if Js.ltb end_ start then raiseEnd fuel' start (end_ + PI * 2)
               else end_
  end.

Fixpoint lowerEnd (fuel : nat) (start end_ : R) : R :=
  match fuel with
  | O => end_
  | S fuel' => if Js.gtb end_ start then lowerEnd fuel' start (end_ - PI * 2)
               else end_
  end.

Definition turns (d : R) : nat := Z.to_nat (Js.ceil (d / (PI * 2))).

(** what the loop of [smoothAxisCoords] does at an internal vertex: it keeps
    the vertex, or replaces it by an arc with tangent length [t] *)
Inductive Corner : Type :=
| Kept
| Rounded (t : R) (arc : list (R * R)).

(** the tangent length [t] chosen at vertex [i] from the target [t_goal] *)
Definition clampTangent (map : MapView) (roundingByAxis : JsMap Rounding)
  (feat : Feature) (n i : nat) (l1 l2 t_goal : R) : R :=
  let t_prevN := if (1 <=? i - 1)%nat
                 then tangentLengthAtLL map roundingByAxis (f_id feat)
                        (coordinates feat) (i - 1)
                 else 0 in
  let t_nextN := if (i + 1 <=? n - 2)%nat
                 then tangentLengthAtLL map roundingByAxis (f_id feat)
                        (coordinates feat) (i + 1)
                 else 0 in
  let t_max_adj := Js.max 0 (Js.min (l1 - t_prevN) (l2 - t_nextN)) in
  let t_max_base := 0.49 * Js.min l1 l2 in
  let t_max := Js.max 0 (Js.min t_max_base t_max_adj) in
  Js.max 1.0 (Js.min t_goal t_max).

(** the points of the arc between the tangent points [T1] and [T2] *)
Definition arcPoints (map : MapView) (P1 v0 v1 : Pt) (turn t tanHalf : R)
  : list (R * R) :=
  let R_ := t / tanHalf in
  let T1 := add P1 (mul v0 (- t)) in
  let T2 := add P1 (mul v1 t) in
  let n0 := leftN v0 in
  let n1 := leftN v1 in
  let C1 := add T1 (mul n0 (turn * R_)) in
  let C2 := add T2 (mul n1 (turn * R_)) in
  let C := mul (add C1 C2) 0.5 in
  let a1 := Js.atan2 (y T1 - y C) (x T1 - x C) in
  let a2 := Js.atan2 (y T2 - y C) (x T2 - x C) in
  let start := a1 in
  let end_ := if Js.gtb turn 0 then raiseEnd (turns (start - a2)) start a2
              else lowerEnd (turns (a2 - start)) start a2 in
  let sArc := Js.abs ((end_ - start) * R_) in
  let segLen := 8 in
  let steps := Z.max 2 (Js.ceil (sArc / segLen)) in
  [toLL map T1]
    ++ List.map
         (fun k =>
            let ttheta := start + (end_ - start) * (INR k / IZR steps) in
            let pt := mkPt (x C + R_ * cos ttheta) (y C + R_ * sin ttheta) in
            toLL map pt)
         (seq 1 (Z.to_nat steps - 1))
    ++ [toLL map T2].

(** the body of the loop of [smoothAxisCoords] at the internal vertex [i] *)
Definition corner (map : MapView) (roundingByAxis : JsMap Rounding)
  (feat : Feature) (px : list Pt) (i : nat) : Corner :=
  let P0 := at_ px (i - 1) in
  let P1 := at_ px i in
  let P2 := at_ px (i + 1) in
  let v0 := norm (sub P1 P0) in
  let v1 := norm (sub P2 P1) in
  let l1 := len (sub P1 P0) in
  let l2 := len (sub P2 P1) in
  let c := dot v0 v1 in
  let alpha := acos (Js.max (-1) (Js.min 1 c)) in
  let turn := Js.sign (crossZ v0 v1) in
  if Js.ltb alpha 1e-3 || Js.eqb turn 0 then Kept
  else
    let k := getRoundK roundingByAxis (f_id feat) i in
    let Ltarget := Js.max 0 (Js.min 1 k) * Js.min l1 l2 in
    let tanHalf := tan (alpha / 2) in
    if Js.leb tanHalf 1e-6 then Kept
    else
      let R_by_len := Ltarget / alpha in
      let t_goal := R_by_len * tanHalf in
      let t := clampTangent map roundingByAxis feat (List.length px) i l1 l2 t_goal in
      Rounded t (arcPoints map P1 v0 v1 turn t tanHalf).

(** [smoothAxisCoords(feat)] *)
Definition smoothAxisCoords (map : MapView) (roundingByAxis : JsMap Rounding)
  (feat : Feature) : list (R * R) :=
  let coords := coordinates feat in
  if (List.length coords <=? 2)%nat then coords
  else
    let px := List.map (toPx map) coords in
    [toLL map (at_ px 0)]
      ++ flat_map
           (fun i =>
              match corner map roundingByAxis feat px i with
              | Kept => [toLL map (at_ px i)]
              | Rounded _ arc => arc
              end)
           (seq 1 (List.length px - 2))
      ++ [toLL map (at_ px (List.length px - 1))].

(** a headless map: screen coordinates are the coordinates themselves *)
Definition idMap : MapView :=
  mkMap (fun ll => mkPt (fst ll) (snd ll)) (fun p => (x p, y p)).

(** [toLL(toPx(c))]: a coordinate sent to the screen and back *)
Definition roundTrip (map : MapView) (c : R * R) : R * R := toLL map (toPx map c).

(** a right-angled corner with rounding factor 0, and a staircase of unit
    steps, and of steps ten units long, with the default factors *)
Definition cornerAxis : Feature := mkFeature "a" [(0, 0); (10, 0); (10, 10)].
Definition cornerRounding : JsMap Rounding := [("a"%string, [(1%nat, 0)])].
Definition stair (name : string) (L : R) : Feature :=
  mkFeature name [(0, 0); (L, 0); (L, L); (2 * L, L)].
Definition stairAxis : Feature := stair "s" 1.
Definition wideStairAxis : Feature := stair "w" 10.

(** *** The editor-axes payload *)

(** the part of the editor session that export and ingest touch: the two
    registries, the set of imported axis ids and the counter of [nextId] *)
Record Session : Type := mkSession {
  roadsById : JsMap Feature;
  roundingByAxis : JsMap Rounding;
  importedAxisIds : list string;
  nextN : nat
}.

(** the decimal spelling of a counter value or of a vertex index *)
Definition decimal (n : nat) : string :=
  DecimalString.NilZero.string_of_uint (Nat.to_uint n).

(** [nextId()]: the identifier and the advanced counter *)
Definition nextId (n : nat) : string * nat :=
  (append "axis_" (decimal (S n)), S n).

(** a record [{ id, coords, rounding }] of [axesBlob] *)
Record BlobRec : Type := mkBlobRec {
  b_id : string;
  b_coords : list (R * R);
  b_rounding : Rounding
}.

(** the [axesBlob] that [__ed_buildXodr] collects from the registries *)
Definition axesBlob (s : Session) : list BlobRec :=
  List.map
    (fun kv =>
       let id := fst kv in
       let f := snd kv in
       let coords := List.map (fun c => (fst c, snd c)) (coordinates f) in
       let rounding := match map_get (roundingByAxis s) id with
                       | Some m => m
                       | None => []
                       end in
       mkBlobRec id coords rounding)
    (roadsById s).

(** a JSON value: what [JSON.stringify] writes and [JSON.parse] reads back.
    A number stands for the real it denotes, and the fields of an object
    are listed with each key once. *)
Inductive Json : Type :=
| JNull
| JNum (r : R)
| JStr (s : string)
| JArr (items : list Json)
| JObj (fields : list (string * Json)).

(** [JSON.stringify(axesBlob)]: an array of objects with the properties
    [id], [coords] (an array of two-element arrays) and [rounding] (an
    object whose keys are the decimal spellings of the vertex indices) *)
Definition jsonOfPair (c : R * R) : Json := JArr [JNum (fst c); JNum (snd c)].

Definition jsonOfRounding (m : Rounding) : Json :=
  JObj (List.map (fun kv => (decimal (fst kv), JNum (snd kv))) m).

Definition jsonOfRec (b : BlobRec) : Json :=
  JObj [("id"%string, JStr (b_id b));
        ("coords"%string, JArr (List.map jsonOfPair (b_coords b)));
        ("rounding"%string, jsonOfRounding (b_rounding b))].

Definition stringify (blob : list BlobRec) : Json := JArr (List.map jsonOfRec blob).

(** the content of the CDATA block of the [editorAxes] element that
    [__ed_buildXodr] writes into the [userData] of the exported document *)
Definition editorAxesBlock (s : Session) : Json := stringify (axesBlob s).

(** Modelled from the spec: the reader of the embedded payload is not in
    [src/]; [editor.js] only hands [window.__EDITOR_AXES_BUFFER] to
    [editorIngestEditorAxes].  The spec has the block embed the axes
    "verbatim (as an embedded serialized payload)" and the round trip
    "re-ingest its embedded edit payload": the reader gives the ingest the
    value that [JSON.parse] reads from the text of the block, which is the
    value that was serialised. *)
Definition readEditorAxes (block : Json) : Json := block.

(** [obj[key]] on the fields of a parsed object; [None] is [undefined] *)
Definition field (fields : list (string * Json)) (key : string) : option Json :=
  match find (fun kv => String.eqb (fst kv) key) fields with
  | Some kv => Some (snd kv)
  | None => None
  end.

(** the vertex index that a property key spells, if it spells one: the
    keys that [m[idx]] can read *)
Definition indexOfKey (key : string) : option nat :=
  match DecimalString.NilZero.uint_of_string key with
  | Some d => let n := Nat.of_uint d in
              if String.eqb (decimal n) key then Some n else None
  | None => None
  end.

(** a record of the payload as the loop of [editorIngestEditorAxes] reads
    it: [p_id] is the [id] when it is a string, [p_coords] the [coords]
    when they are an array of coordinate pairs, [p_rounding] the [rounding]
    when it is an object *)
Record AxisRec : Type := mkAxisRec {
  p_id : option string;
  p_coords : option (list (R * R));
  p_rounding : option Rounding
}.

(** [[c[0], c[1]]] for an element of [rec.coords] that is an array starting
    with two numbers; [None] for any other element, which this model does
    not follow *)
Definition pairOfJson (c : Json) : option (R * R) :=
  match c with
  | JArr (JNum x :: JNum y :: _) => Some (x, y)
  | _ => None
  end.

(** [rec.coords.map(c => [c[0], c[1]])] *)
Definition coordsOfJson (items : list Json) : option (list (R * R)) :=
  fold_right
    (fun c acc =>
       match pairOfJson c, acc with
       | Some xy, Some l => Some (xy :: l)
       | _, _ => None
       end)
    (Some []) items.

(** [rec.id], as [rec.id || nextId()] tests it: a string, or a falsy value
    ([undefined], [null], 0), which reads as no id; [None] for any other
    value, a key that is not a string, which this model does not follow *)
Definition idOfJson (v : option Json) : option (option string) :=
  match v with
  | None | Some JNull => Some None
  | Some (JStr id) => Some (Some id)
  | Some (JNum r) => if Js.eqb r 0 then Some None else None
  | Some (JArr _) | Some (JObj _) => None
  end.

(** the table that [roundingByAxis.set(id, rec.rounding)] stores when
    [rec.rounding && typeof rec.rounding === 'object']: the numeric entries
    of the object, or of the array, under the vertex indices *)
Definition roundingOfJson (v : option Json) : option Rounding :=
  match v with
  | Some (JObj fields) =>
      Some (flat_map
              (fun kv => match indexOfKey (fst kv), snd kv with
                         | Some i, JNum k => [(i, k)]
                         | _, _ => []
                         end)
              fields)
  | Some (JArr items) =>
      Some (flat_map
              (fun iv => match snd iv with
                         | JNum k => [(fst iv, k)]
                         | _ => []
                         end)
              (combine (seq 0 (List.length items)) items))
  | _ => None
  end.

(** one element of the payload as the loop reads it: [Some None] when the
    guard [!rec || !Array.isArray(rec.coords)] skips it, [None] when this
    model does not follow it *)
Definition viewOfJson (rec : Json) : option (option AxisRec) :=
  match rec with
  | JObj fields =>
      match field fields "coords" with
      | Some (JArr items) =>
          match idOfJson (field fields "id"), coordsOfJson items with
          | Some id, Some coords =>
              Some (Some (mkAxisRec id (Some coords)
                            (roundingOfJson (field fields "rounding"))))
          | _, _ => None
          end
      | _ => Some None
      end
  | _ => Some None
  end.

Definition viewsOfJson (items : list Json) : option (list (option AxisRec)) :=
  fold_right
    (fun rec acc =>
       match viewOfJson rec, acc with
       | Some v, Some l => Some (v :: l)
       | _, _ => None
       end)
    (Some []) items.

(** [Set.prototype.add] on strings *)
Definition set_add_string (s : list string) (k : string) : list string :=
  if existsb (String.eqb k) s then s else s ++ [k].

(** the body of the loop of [editorIngestEditorAxes] for one record;
    [None] is a record that the guard skips *)
Definition ingestRec (s : Session) (rec : option AxisRec) : Session :=
  match rec with
  | None => s
  | Some rec =>
      match p_coords rec with
      | None => s
      | Some rcoords =>
          let idn := match p_id rec with
                     | Some EmptyString | None => nextId (nextN s)
                     | Some id => (id, nextN s)
                     end in
          let id := fst idn in
          let coords := List.map (fun c => (fst c, snd c)) rcoords in
          let roads := map_set (roadsById s) id (mkFeature id coords) in
          let rounding := match p_rounding rec with
                          | Some m => map_set (roundingByAxis s) id m
                          | None => roundingByAxis s
                          end in
          mkSession roads rounding (set_add_string (importedAxisIds s) id) (snd idn)
      end
  end.

(** [editorIngestEditorAxes(data)]: the registries after the ingest; the
    rebuilds and the refresh of the map that follow leave them as they are.
    The registries are cleared first; a [data] that is not an array leaves
    them empty ([null] reads as the empty array, a string has no element
    with coordinates, and iterating a number or an object throws into the
    [catch] of the function).  [None] is a payload that this model does not
    follow. *)
Definition editorIngestEditorAxes (s : Session) (data : Json) : option Session :=
  let cleared := mkSession [] [] [] (nextN s) in
  match data with
  | JArr items =>
      match viewsOfJson items with
      | Some views => Some (fold_left ingestRec views cleared)
      | None => None
      end
  | _ => Some cleared
  end.

(** the keys of a [Map], in insertion order *)
Definition keys {V : Type} (m : JsMap V) : list string := List.map fst m.

(** the rounding table written for an axis: its table, or an empty one *)
Definition tableOf (s : Session) (id : string) : Rounding :=
  match map_get (roundingByAxis s) id with Some m => m | None => [] end.

(** a session with two axes, one of them with a rounding table *)
Definition twoAxes : Session :=
  mkSession
    [("axis_1"%string, mkFeature "axis_1" [(0, 0); (10, 0); (10, 10)]);
     ("axis_2"%string, mkFeature "axis_2" [(0, 5); (20, 5)])]
    [("axis_1"%string, [(1%nat, 0.5)])] [] 2.

(** export, then ingest of the embedded payload *)
Definition reingest (s : Session) : option Session :=
  editorIngestEditorAxes s (readEditorAxes (editorAxesBlock s)).

End Editor.

(** * More of the sources *)

(** ** spline.js *)

Module SplineOps.
Import CubicSpline.

(** the segment that [negate] stores for a segment *)
Definition negSeg (sg : Seg) : Seg := mkSeg (s0 sg) (Poly3.negate (poly sg)).

End SplineOps.

(** ** index.js: offsets of a lane, samples at the section boundaries *)

Module RoadSamples.

Import Geometry OpenDrive LaneBuilder.

(** [computeOffsets(side, laneId, s, secOverride)]: [(wCur, outer, inner)] *)
Definition computeOffsets (road : Road) (side : Side) (laneId s : R)
  (secOverride : option (nat * Section)) : R * R * R :=
  let sec := match secOverride with
             | Some _ => secOverride
             | None => sectionAt road s
             end in
  let wCur := widthAt side sec laneId s in
  let outer := outerAt road side sec laneId s in
  (wCur, outer, innerOf side outer wCur).

(** the loop [pushWidths(arr)] over the lanes of one side of a section *)
Definition pushWidths (ls : Section) (arr : list LaneRec) (set : list R) : list R :=
  fold_left
    (fun set ln =>
       fold_left (fun set w => Js.set_add (s_s ls + w_sOffset w) set)
         (l_widths ln) set)
    arr set.

(** the set [enforceS] of the arc lengths at which a sample is enforced:
    the starts of the lane sections and of the width records *)
Definition enforceS (road : Road) : list R :=
  fold_left
    (fun set ls =>
       pushWidths ls (s_right ls) (pushWidths ls (s_left ls) (Js.set_add (s_s ls) set)))
    (laneSections road) [].

(** [Array.from(enforceS).filter(Number.isFinite).sort((a,b) => a - b)] *)
Definition ticks (road : Road) : list R := Js.sort_by (fun t => t) (enforceS road).

(** the samples pushed for the interval from [p0] to [p1]: one for each
    tick strictly inside it, then [p1] *)
Definition between (ticks : list R) (p0 p1 : Sample) : list Sample :=
  let s0 := p_s p0 in
  let s1 := p_s p1 in
  flat_map
    (fun t =>
       if Js.gtb t (s0 + 1e-9) && Js.ltb t (s1 - 1e-9) then
         let tt := (t - s0) / (s1 - s0) in
         [interpPoint p0 p1 tt]
       else [])
    ticks
  ++ [p1].

(** the loop [for (let i = 1; i < samples.length; i++)] that fills [out] *)
Fixpoint fillFrom (ticks : list R) (p0 : Sample) (rest : list Sample) : list Sample :=
  match rest with
  | [] => []
  | p1 :: rest' => between ticks p0 p1 ++ fillFrom ticks p1 rest'
  end.

(** the block of [buildGeometry] that enriches the samples of a road (at
    least two, at that point) with the enforced arc lengths *)
Definition enrichSamples (road : Road) (samples : list Sample) : list Sample :=
  match ticks road with
  | [] => samples
  | tks =>
      match samples with
      | [] => samples
      | p0 :: rest => Js.sort_by p_s (p0 :: fillFrom tks p0 rest)
      end
  end.

(** Vocabulary: the sum of the widths, at arc length [s] in the section, of
    the lanes that pass a test. *)
Definition widthSum (keep : LaneRec -> bool) (lanes : list LaneRec) (sIn : R) : R :=
  fold_right
    (fun ln acc => if keep ln then laneWidthAt (l_widths ln) sIn + acc else acc)
    0 lanes.

(** a section with the left lanes 2 and 1 and the right lanes -1 and -2, of
    constant widths *)
Definition fourLanes : Section :=
  mkSection 0
    [mkLaneRec 2 "sidewalk" [mkWidth 0 1.5 0 0 0];
     mkLaneRec 1 "driving" [mkWidth 0 3.5 0 0 0]]
    [mkLaneRec (-1) "driving" [mkWidth 0 3.5 0 0 0];
     mkLaneRec (-2) "sidewalk" [mkWidth 0 1.5 0 0 0]].

Definition fourLaneRoad : Road := mkRoadData [fourLanes] [].

End RoadSamples.

(** ** index.js: text for the popups *)

Module Html.

(** the replacement of one character by [escapeHtml] *)
Definition escapeChar (c : ascii) : list ascii :=
  if Ascii.eqb c "&" then list_ascii_of_string "&amp;"
  else if Ascii.eqb c "<" then list_ascii_of_string "&lt;"
  else if Ascii.eqb c ">" then list_ascii_of_string "&gt;"
  else if Ascii.eqb c "034" then list_ascii_of_string "&quot;"
  else if Ascii.eqb c "'" then list_ascii_of_string "&#39;"
  else [c].

(** [escapeHtml(s)] on a string *)
Definition escapeHtml (s : string) : string :=
  string_of_list_ascii (flat_map escapeChar (list_ascii_of_string s)).

(** the characters that [escapeHtml] replaces *)
Definition special (c : ascii) : bool :=
  Ascii.eqb c "&" || Ascii.eqb c "<" || Ascii.eqb c ">"
  || Ascii.eqb c "034" || Ascii.eqb c "'".

End Html.

(** ** editor.js: editing an axis *)

Module AxisEdit.
Import Editor.

(** the turn [ang(a, b, c)] of the polyline at [b], in radians *)
Definition ang (a b c : R * R) : R :=
  let ax := fst b - fst a in
  let ay := snd b - snd a in
  let bx := fst c - fst b in
  let by_ := snd c - snd b in
  let la := Js.hypot ax ay in
  let lb := Js.hypot bx by_ in
  if Js.ltb la 1e-9 || Js.ltb lb 1e-9 then 0
  else
    let cos_ := (ax * bx + ay * by_) / (la * lb) in
    acos (Js.max (-1) (Js.min 1 cos_)).

(** the loop [for (i = 1; i < coords.length - 1; i++)] of
    [simplifyAxisForEditor], on the vertices [coords[i], coords[i+1], ...]
    still to visit: [b = coords[i]] is pushed when the turn from the last
    kept vertex is above the threshold *)
Fixpoint keepCorners (th : R) (out rest : list (R * R)) : list (R * R) :=
  match rest with
  | b :: ((c :: _) as rest') =>
      let a := last out (0, 0) in
      let an := ang a b c in
      keepCorners th (if Js.gtb an th then out ++ [b] else out) rest'
  | _ => out
  end.

(** the distance [Math.hypot(p[0]-q[0], p[1]-q[1])] *)
Definition dist (p q : R * R) : R := Js.hypot (fst p - fst q) (snd p - snd q).

(** the loop that drops a vertex identical to the one kept before it *)
Definition dedupe (out : list (R * R)) : list (R * R) :=
  fold_left
    (fun ded p =>
       let q := last ded (0, 0) in
       if Js.gtb (dist p q) 1e-12 then ded ++ [p] else ded)
    (tl out) [hd (0, 0) out].

(** [simplifyAxisForEditor(coords, angleDeg)] *)
Definition simplifyAxisForEditor (coords : list (R * R)) (angleDeg : R)
  : list (R * R) :=
  if (List.length coords <=? 2)%nat then coords
  else
    let th := Js.max 0.5 angleDeg * PI / 180 in
    let out := keepCorners th [hd (0, 0) coords] (tl coords)
               ++ [last coords (0, 0)] in
    let ded := dedupe out in
    if (2 <=? List.length ded)%nat then ded else coords.

(** [l1] holds some of the elements of [l2], in the order of [l2] *)
Inductive subseq {A : Type} : list A -> list A -> Prop :=
| subseq_nil : subseq [] []
| subseq_skip (l1 l2 : list A) (a : A) : subseq l1 l2 -> subseq l1 (a :: l2)
| subseq_keep (l1 l2 : list A) (a : A) : subseq l1 l2 -> subseq (a :: l1) (a :: l2).

(** the editor's [mode] *)
Inductive Mode : Type := Idle | Select | Edit | Draw.

(** an entry [{ type: 'edit', id, prevCoords }] of [historyEdit] *)
Record Action : Type := mkAction {
  a_id : option string;
  prevCoords : list (R * R)
}.

(** the editor while an axis is edited: the registries, [mode], [activeId]
    ([None] is [null]), [selectedVertexIdx] and the stack [historyEdit], its
    top at the end of the list *)
Record EditState : Type := mkEdit {
  session : Session;
  mode : Mode;
  activeId : option string;
  selectedVertexIdx : Z;
  historyEdit : list Action
}.

(** [coords.splice(i, 1)]: what is left of [coords] *)
Definition splice1 {A : Type} (coords : list A) (i : nat) : list A :=
  firstn i coords ++ skipn (S i) coords.

(** the registries with the coordinates of the axis [f] replaced *)
Definition setCoordinates (s : Session) (id : string) (f : Feature)
  (coords : list (R * R)) : Session :=
  mkSession (map_set (roadsById s) id (mkFeature (f_id f) coords))
    (roundingByAxis s) (importedAxisIds s) (nextN s).

(** [deleteSelectedVertex()] *)
Definition deleteSelectedVertex (s : EditState) : EditState :=
  match mode s with
  | Edit =>
      if (selectedVertexIdx s <? 0)%Z then s
      else
        match activeId s with
        | None => s
        | Some id =>
            match map_get (roadsById (session s)) id with
            | None => s
            | Some f =>
                let coords := coordinates f in
                if (List.length coords <=? 2)%nat then s
                else
                  let prev := List.map (fun c => (fst c, snd c)) coords in
                  let coords' := splice1 coords (Z.to_nat (selectedVertexIdx s)) in
                  mkEdit (setCoordinates (session s) id f coords') (mode s)
                    (activeId s)
                    (Z.min (selectedVertexIdx s)
                       (Z.of_nat (List.length coords') - 1))
                    (historyEdit s ++ [mkAction (Some id) prev])
            end
        end
  | _ => s
  end.

(** [undoEdit()] *)
Definition undoEdit (s : EditState) : EditState :=
  match rev (historyEdit s) with
  | [] => s
  | act :: older =>
      let popped := mkEdit (session s) (mode s) (activeId s)
                      (selectedVertexIdx s) (rev older) in
      match a_id act with
      | None | Some EmptyString => popped
      | Some id =>
          match map_get (roadsById (session s)) id with
          | None => popped
          | Some f =>
              mkEdit
                (setCoordinates (session s) id f
                   (List.map (fun c => (fst c, snd c)) (prevCoords act)))
                (mode s) (activeId s) (selectedVertexIdx s) (rev older)
          end
      end
  end.

(** the axis of [twoAxes] with three vertices, in edit mode, its middle
    vertex selected *)
Definition editingCorner : EditState :=
  mkEdit twoAxes Edit (Some "axis_1"%string) 1 [].

End AxisEdit.


(** * Facts about the embedding *)

(** ** Comparisons, sorting and number sets *)

Lemma geb_true_iff (x y : R) : Js.geb x y = true <-> y <= x.
Proof. unfold Js.geb; destruct (Rge_dec x y); split; intros; try lra; discriminate. Qed.

Lemma geb_false_iff (x y : R) : Js.geb x y = false <-> x < y.
Proof. unfold Js.geb; destruct (Rge_dec x y); split; intros; try lra; discriminate. Qed.

Lemma gtb_true_iff (x y : R) : Js.gtb x y = true <-> y < x.
Proof. unfold Js.gtb; destruct (Rgt_dec x y); split; intros; try lra; discriminate. Qed.

Lemma gtb_false_iff (x y : R) : Js.gtb x y = false <-> x <= y.
Proof. unfold Js.gtb; destruct (Rgt_dec x y); split; intros; try lra; discriminate. Qed.

Lemma leb_true_iff (x y : R) : Js.leb x y = true <-> x <= y.
Proof. unfold Js.leb; destruct (Rle_dec x y); split; intros; try lra; discriminate. Qed.

Lemma leb_false_iff (x y : R) : Js.leb x y = false <-> y < x.
Proof. unfold Js.leb; destruct (Rle_dec x y); split; intros; try lra; discriminate. Qed.

Lemma ltb_true_iff (x y : R) : Js.ltb x y = true <-> x < y.
Proof. unfold Js.ltb; destruct (Rlt_dec x y); split; intros; try lra; discriminate. Qed.

Lemma ltb_false_iff (x y : R) : Js.ltb x y = false <-> y <= x.
Proof. unfold Js.ltb; destruct (Rlt_dec x y); split; intros; try lra; discriminate. Qed.

Lemma eqb_true_iff (x y : R) : Js.eqb x y = true <-> x = y.
Proof. unfold Js.eqb; destruct (Req_dec_T x y); split; intros; try lra; discriminate. Qed.

Lemma eqb_false_iff (x y : R) : Js.eqb x y = false <-> x <> y.
Proof. unfold Js.eqb; destruct (Req_dec_T x y); split; intros; try lra; try discriminate; reflexivity. Qed.

(** Evaluation of the comparisons on concrete numbers. *)
Ltac js_decide :=
  match goal with
  | |- context [Js.geb ?x ?y] =>
      first [rewrite (proj2 (geb_true_iff x y)) by lra
            |rewrite (proj2 (geb_false_iff x y)) by lra]
  | |- context [Js.gtb ?x ?y] =>
      first [rewrite (proj2 (gtb_true_iff x y)) by lra
            |rewrite (proj2 (gtb_false_iff x y)) by lra]
  | |- context [Js.leb ?x ?y] =>
      first [rewrite (proj2 (leb_true_iff x y)) by lra
            |rewrite (proj2 (leb_false_iff x y)) by lra]
  | |- context [Js.ltb ?x ?y] =>
      first [rewrite (proj2 (ltb_true_iff x y)) by lra
            |rewrite (proj2 (ltb_false_iff x y)) by lra]
  | |- context [Js.eqb ?x ?y] =>
      first [rewrite (proj2 (eqb_true_iff x y)) by lra
            |rewrite (proj2 (eqb_false_iff x y)) by lra]
  end.


Section Sorting.

Context {A : Type} (key : A -> R).

Lemma insert_by_last (x : A) (l : list A) :
  (forall y, In y l -> key y <= key x) -> Js.insert_by key x l = l ++ [x].
Proof.
  induction l as [|y l IH]; intros H; simpl; [reflexivity|].
  destruct (Js.ltb (key x) (key y)) eqn:Hlt.
  - apply ltb_true_iff in Hlt. specialize (H y (or_introl eq_refl)). lra.
  - rewrite IH; [reflexivity|]. intros z Hz. apply H. now right.
Qed.

Lemma sort_by_snoc (l : list A) (x : A) :
  Js.sort_by key (l ++ [x]) = Js.insert_by key x (Js.sort_by key l).
Proof. unfold Js.sort_by. now rewrite fold_left_app. Qed.

Lemma insert_by_perm (x : A) (l : list A) :
  Permutation (Js.insert_by key x l) (x :: l).
Proof.
  induction l as [|y l IH]; simpl; [reflexivity|].
  destruct (Js.ltb (key x) (key y)); [reflexivity|].
  rewrite IH. apply perm_swap.
Qed.

Lemma sort_by_perm (l : list A) : Permutation (Js.sort_by key l) l.
Proof.
  induction l as [|x l IH] using rev_ind; [reflexivity|].
  rewrite sort_by_snoc, insert_by_perm, IH.
  apply Permutation_cons_append.
Qed.

Lemma insert_by_sorted (x : A) (l : list A) :
  StronglySorted (fun u v => key u <= key v) l ->
  StronglySorted (fun u v => key u <= key v) (Js.insert_by key x l).
Proof.
  induction 1 as [|y l Hl IH Hy]; simpl.
  - repeat constructor.
  - destruct (Js.ltb (key x) (key y)) eqn:Hlt;
      [apply ltb_true_iff in Hlt|apply ltb_false_iff in Hlt].
    + constructor; [now constructor|].
      constructor; [lra|].
      rewrite Forall_forall in *. intros z Hz. specialize (Hy z Hz). lra.
    + constructor; [exact IH|].
      rewrite Forall_forall in *. intros z Hz.
      apply (Permutation_in _ (insert_by_perm x l)) in Hz.
      destruct Hz as [<-|Hz]; [lra|now apply Hy].
Qed.

Lemma sort_by_sorted (l : list A) :
  StronglySorted (fun u v => key u <= key v) (Js.sort_by key l).
Proof.
  induction l as [|x l IH] using rev_ind; [constructor|].
  rewrite sort_by_snoc. now apply insert_by_sorted.
Qed.

Lemma sorted_snoc_inv {B : Type} (Rel : B -> B -> Prop) (l : list B) (x : B) :
  StronglySorted Rel (l ++ [x]) ->
  StronglySorted Rel l /\ forall y, In y l -> Rel y x.
Proof.
  induction l as [|z l IH]; simpl; intros H.
  - split; [constructor|intros y []].
  - inversion H as [|? ? H1 H2]; subst. destruct (IH H1) as [H3 H4].
    rewrite Forall_forall in H2. split.
    + constructor; [exact H3|]. rewrite Forall_forall. intros u Hu.
      apply H2, in_or_app. now left.
    + intros y [<-|Hy]; [|now apply H4]. apply H2, in_or_app. right. now left.
Qed.

Lemma sort_by_sorted_id (l : list A) :
  StronglySorted (fun u v => key u <= key v) l -> Js.sort_by key l = l.
Proof.
  induction l as [|x l IH] using rev_ind; intros H; [reflexivity|].
  apply sorted_snoc_inv in H. destruct H as [H1 H2].
  rewrite sort_by_snoc, IH by exact H1. now apply insert_by_last.
Qed.

End Sorting.

Lemma set_add_in (x y : R) (s : list R) :
  In y (Js.set_add x s) <-> y = x \/ In y s.
Proof.
  induction s as [|z s IH]; simpl.
  - intuition auto.
  - destruct (Js.eqb x z) eqn:E; simpl.
    + apply eqb_true_iff in E. subst z. intuition auto.
    + rewrite IH. intuition auto.
Qed.

Lemma set_add_nodup (x : R) (s : list R) : NoDup s -> NoDup (Js.set_add x s).
Proof.
  induction 1 as [|z s Hz Hs IH]; simpl.
  - repeat constructor. intros [].
  - destruct (Js.eqb x z) eqn:E; [now constructor|].
    apply eqb_false_iff in E. constructor; [|exact IH].
    rewrite set_add_in. intros [->|H]; [now apply E|now apply Hz].
Qed.

Lemma fold_set_add_in {A : Type} (key : A -> R) (l : list A) (s : list R) (y : R) :
  In y (fold_left (fun set sg => Js.set_add (key sg) set) l s)
  <-> In y (map key l) \/ In y s.
Proof.
  revert s; induction l as [|x l IH]; intros s; simpl; [intuition auto|].
  rewrite IH, set_add_in. intuition auto.
Qed.

Lemma fold_set_add_nodup {A : Type} (key : A -> R) (l : list A) (s : list R) :
  NoDup s -> NoDup (fold_left (fun set sg => Js.set_add (key sg) set) l s).
Proof.
  revert s; induction l as [|x l IH]; intros s Hs; simpl; [exact Hs|].
  apply IH. now apply set_add_nodup.
Qed.

(** A sorted list without repetitions is strictly sorted. *)
Lemma sorted_nodup_strict (l : list R) :
  StronglySorted Rle l -> NoDup l -> StronglySorted Rlt l.
Proof.
  induction 1 as [|x l Hl IH Hx]; intros Hnd; [constructor|].
  inversion Hnd as [|? ? Hnin Hnd']; subst.
  constructor; [now apply IH|].
  rewrite Forall_forall in *. intros y Hy.
  destruct (Rle_lt_or_eq_dec _ _ (Hx y Hy)) as [Hlt|Heq]; [exact Hlt|].
  subst y. contradiction.
Qed.

(** ** Splines: [CubicSpline.add] *)

Module SplineFacts.
Import CubicSpline SplineSpec.

Lemma tol_pos : 0 < tol.
Proof. unfold tol. lra. Qed.

Lemma poly_eta (p : Poly3.t) :
  Poly3.mk (Poly3.a p) (Poly3.b p) (Poly3.c p) (Poly3.d p) = p.
Proof. now destruct p. Qed.

Lemma rebase_value (p : Poly3.t) (delta x : R) :
  Poly3.value (Poly3.rebase p delta) x = Poly3.value p (x + delta).
Proof. unfold Poly3.rebase, Poly3.value, Poly3.deriv, Poly3.deriv2, Poly3.deriv3; simpl. field. Qed.

Lemma add_value (p q : Poly3.t) (x : R) :
  Poly3.value (Poly3.add p q) x = Poly3.value p x + Poly3.value q x.
Proof. unfold Poly3.add, Poly3.value; simpl. ring. Qed.

Lemma scan_in (s : R) (cand : Seg) (l : list Seg) :
  scan s cand l = cand \/ In (scan s cand l) l.
Proof.
  revert cand; induction l as [|x l IH]; intros cand; simpl; [now left|].
  destruct (Js.geb (s + tol) (s0 x)); [|now left].
  destruct (IH x) as [->|H]; right; auto.
Qed.

Lemma get_poly_in (sp : t) (s : R) :
  sp <> [] -> In (get_poly sp s true) sp.
Proof.
  destruct sp as [|sg0 rest]; [congruence|intros _].
  unfold get_poly.
  destruct (Js.geb _ _); [|now left].
  destruct (scan_in s sg0 (sg0 :: rest)) as [->|H]; [now left|exact H].
Qed.

(** [get_poly] depends on its argument only through the outcome of the
    tolerance test at the knots. *)
Lemma scan_ext (s1 s2 : R) (cand : Seg) (l : list Seg) :
  (forall sg, In sg l -> (s0 sg <= s1 + tol <-> s0 sg <= s2 + tol)) ->
  scan s1 cand l = scan s2 cand l.
Proof.
  revert cand; induction l as [|x l IH]; intros cand H; simpl; [reflexivity|].
  destruct (Js.geb (s1 + tol) (s0 x)) eqn:E1, (Js.geb (s2 + tol) (s0 x)) eqn:E2.
  - apply IH. intros sg Hsg. apply H. now right.
  - apply geb_true_iff in E1. apply geb_false_iff in E2.
    apply (H x (or_introl eq_refl)) in E1. lra.
  - apply geb_true_iff in E2. apply geb_false_iff in E1.
    apply (H x (or_introl eq_refl)) in E2. lra.
  - reflexivity.
Qed.

Lemma get_poly_ext (sp : t) (s1 s2 : R) :
  sp <> [] ->
  (forall sg, In sg sp -> (s0 sg <= s1 + tol <-> s0 sg <= s2 + tol)) ->
  get_poly sp s1 true = get_poly sp s2 true.
Proof.
  destruct sp as [|sg0 rest]; [congruence|intros _ H].
  unfold get_poly. rewrite (scan_ext s1 s2 sg0 (sg0 :: rest) H).
  set (cnd := scan s2 sg0 (sg0 :: rest)).
  assert (Hin : In cnd (sg0 :: rest)).
  { destruct (scan_in s2 sg0 (sg0 :: rest)) as [E|E]; fold cnd in E; [rewrite E; now left|exact E]. }
  destruct (Js.geb (s1 + tol) (s0 cnd)) eqn:E1, (Js.geb (s2 + tol) (s0 cnd)) eqn:E2;
    try reflexivity.
  - apply geb_true_iff in E1. apply geb_false_iff in E2. apply (H _ Hin) in E1. lra.
  - apply geb_true_iff in E2. apply geb_false_iff in E1. apply (H _ Hin) in E2. lra.
Qed.

(** When every later knot fails the tolerance test, the first segment is
    returned, whether it passes the test or is extended leftward. *)
Lemma get_poly_first (sg0 : Seg) (rest : list Seg) (s : R) :
  (forall sg, In sg rest -> s + tol < s0 sg) ->
  get_poly (sg0 :: rest) s true = sg0.
Proof.
  intros H. unfold get_poly.
  assert (Hs : scan s sg0 (sg0 :: rest) = sg0).
  { simpl. destruct (Js.geb _ _); [|reflexivity].
    destruct rest as [|y r]; simpl; [reflexivity|].
    destruct (Js.geb (s + tol) (s0 y)) eqn:E; [|reflexivity].
    apply geb_true_iff in E. specialize (H y (or_introl eq_refl)). lra. }
  rewrite Hs. now destruct (Js.geb _ _).
Qed.

Lemma scan_sorted (s : R) (cand : Seg) (l : list Seg) :
  StronglySorted Rlt (s0 cand :: knots l) ->
  s0 cand <= s + tol ->
  let c := scan s cand l in
  s0 c <= s + tol /\
  forall x, In x (cand :: l) -> s0 x <= s + tol -> s0 x <= s0 c.
Proof.
  revert cand; induction l as [|y r IH]; intros cand Hs Hc; simpl.
  - split; [exact Hc|]. intros x [<-|[]] _. lra.
  - inversion Hs as [|? ? Hs' Hall]; subst.
    assert (Hcy : s0 cand < s0 y) by (inversion Hall; assumption).
    destruct (Js.geb (s + tol) (s0 y)) eqn:E.
    + apply geb_true_iff in E.
      destruct (IH y Hs' E) as [H1 H2]. split; [exact H1|].
      intros x [<-|Hx] Hxs; [|now apply H2].
      specialize (H2 y (or_introl eq_refl) E). lra.
    + apply geb_false_iff in E. split; [exact Hc|].
      intros x [<-|[<-|Hx]] Hxs; try lra.
      inversion Hs' as [|? ? _ Hall']; subst.
      rewrite Forall_forall in Hall'.
      specialize (Hall' (s0 x) (in_map s0 _ _ Hx)). lra.
Qed.

(** The segment selected in a spline with strictly increasing knots. *)
Lemma get_poly_sorted (sp : t) (s : R) :
  sp <> [] -> strict sp ->
  let c := get_poly sp s true in
  In c sp /\
  ((s0 c <= s + tol /\ forall x, In x sp -> s0 x <= s + tol -> s0 x <= s0 c)
   \/ (forall x, In x sp -> s + tol < s0 x /\ s0 c <= s0 x)).
Proof.
  intros Hne Hs. split; [now apply get_poly_in|].
  destruct sp as [|sg0 rest]; [congruence|].
  unfold strict, knots in Hs; simpl in Hs.
  destruct (Rle_lt_dec (s0 sg0) (s + tol)) as [Hle|Hlt].
  - left. unfold get_poly. simpl scan.
    rewrite (proj2 (geb_true_iff _ _) Hle).
    destruct (scan_sorted s sg0 rest Hs Hle) as [H1 H2].
    rewrite (proj2 (geb_true_iff _ _) H1). split; assumption.
  - right.
    assert (Hall : forall x, In x (sg0 :: rest) -> s0 sg0 <= s0 x).
    { intros x [<-|Hx]; [lra|].
      inversion Hs as [|? ? _ Hf]; subst. rewrite Forall_forall in Hf.
      specialize (Hf _ (in_map s0 _ _ Hx)). lra. }
    rewrite get_poly_first.
    + intros x Hx. specialize (Hall x Hx). lra.
    + intros x Hx. specialize (Hall x (or_intror Hx)). lra.
Qed.

(** *** The merged knots *)

Lemma ticksSet_in (A B : t) (x : R) :
  In x (ticksSet A B) <-> In x (knots A) \/ In x (knots B).
Proof.
  unfold ticksSet, knots. rewrite !fold_set_add_in. simpl. intuition auto.
Qed.

Lemma ticks_in (A B : t) (x : R) :
  In x (ticks A B) <-> In x (knots A) \/ In x (knots B).
Proof.
  rewrite <- ticksSet_in. unfold ticks. split; intros H.
  - eapply Permutation_in; [apply sort_by_perm|exact H].
  - eapply Permutation_in; [symmetry; apply sort_by_perm|exact H].
Qed.

Lemma ticks_strict (A B : t) : StronglySorted Rlt (ticks A B).
Proof.
  apply sorted_nodup_strict.
  - apply (sort_by_sorted (fun x : R => x)).
  - eapply Permutation_NoDup; [symmetry; apply sort_by_perm|].
    unfold ticksSet. apply fold_set_add_nodup, fold_set_add_nodup. constructor.
Qed.

(** *** The segments stored by [add] *)

Lemma sumSeg_sorted (A B : t) (l : list R) :
  StronglySorted Rlt l ->
  StronglySorted (fun u v => s0 u <= s0 v) (map (sumSeg A B) l).
Proof.
  induction 1 as [|x l Hl IH Hx]; simpl; constructor; [exact IH|].
  rewrite Forall_forall in *. intros u Hu. apply in_map_iff in Hu.
  destruct Hu as [v [<- Hv]]. simpl. specialize (Hx v Hv). lra.
Qed.

Lemma add_fold (A B : t) (l done : list R) :
  StronglySorted Rlt (done ++ l) ->
  fold_left
    (fun out s =>
       let p := sumAt A B s in
       addSegment out s (Poly3.a p) (Poly3.b p) (Poly3.c p) (Poly3.d p))
    l (map (sumSeg A B) done)
  = map (sumSeg A B) (done ++ l).
Proof.
  revert done; induction l as [|x l IH]; intros done Hs; cbn [fold_left].
  - now rewrite app_nil_r.
  - replace (done ++ x :: l) with ((done ++ [x]) ++ l) in * by now rewrite <- app_assoc.
    rewrite <- IH by exact Hs. f_equal.
    cbv zeta. unfold addSegment. rewrite poly_eta.
    change [mkSeg x (sumAt A B x)] with (map (sumSeg A B) [x]).
    rewrite <- map_app. apply sort_by_sorted_id, sumSeg_sorted.
    clear IH. induction l as [|y l IHl] using rev_ind; [now rewrite app_nil_r in Hs|].
    apply IHl. rewrite app_assoc in Hs. now apply sorted_snoc_inv in Hs.
Qed.

Lemma add_segments (A B : t) : add A B = map (sumSeg A B) (ticks A B).
Proof.
  unfold add, empty_spline.
  apply (add_fold A B (ticks A B) []). simpl. apply ticks_strict.
Qed.

(** *** The operands seen from a merged knot *)

Lemma operand_at (A : t) (K : list R) (x tau : R) :
  strict A ->
  (forall k, In k (knots A) -> In k K) ->
  separated K ->
  In tau K ->
  (tau <= x + tol /\ (forall k, In k K -> k <= x + tol -> k <= tau))
  \/ (forall k, In k K -> x + tol < k /\ tau <= k) ->
  let aP := get_poly A tau true in
  Poly3.value (Poly3.rebase (poly aP) (tau - s0 aP)) (x - tau) = get A x 0.
Proof.
  intros HA HK Hsep Htau Hcase aP. pose proof tol_pos as Htol.
  rewrite rebase_value.
  replace (x - tau + (tau - s0 aP)) with (x - s0 aP) by ring.
  subst aP. destruct A as [|sg0 rest].
  - simpl. unfold Poly3.value. simpl. ring.
  - cbn [get].
    cut (get_poly (sg0 :: rest) tau true = get_poly (sg0 :: rest) x true);
      [intros ->; reflexivity|].
    assert (Hk : forall sg, In sg (sg0 :: rest) -> In (s0 sg) K).
    { intros sg Hsg. apply HK. unfold knots. now apply in_map. }
    destruct Hcase as [[H1 H2]|H].
    + apply get_poly_ext; [discriminate|]. intros sg Hsg. split; intros Hle.
      * destruct (Rle_lt_dec (s0 sg) tau) as [Hl|Hl]; [lra|].
        specialize (Hsep tau (s0 sg) Htau (Hk sg Hsg) Hl). lra.
      * specialize (H2 _ (Hk sg Hsg) Hle). lra.
    + rewrite !get_poly_first; [reflexivity| |].
      * intros sg Hsg. apply H, Hk. now right.
      * intros sg Hsg.
        assert (Hlt : s0 sg0 < s0 sg).
        { unfold strict, knots in HA. simpl in HA.
          inversion HA as [|? ? _ Hf]; subst. rewrite Forall_forall in Hf.
          apply Hf. now apply in_map. }
        destruct (H (s0 sg0) (Hk sg0 (or_introl eq_refl))) as [_ H0].
        apply Hsep; [exact Htau|apply Hk; now right|lra].
Qed.

End SplineFacts.

(** ** C1: the sum of two splines *)

Module SplineSum.
Import CubicSpline SplineSpec SplineFacts.

Ltac spline_eval :=
  repeat (cbn [scan s0 poly get_poly get]; unfold tol; try js_decide).

Lemma ticks_stepAfter : ticks stepAfter flatFrom1 = [0; 1; 1 + 5e-13].
Proof.
  unfold ticks, ticksSet, stepAfter, flatFrom1, Js.sort_by.
  repeat (cbn [fold_left Js.set_add Js.insert_by s0]; try js_decide).
  reflexivity.
Qed.

(** at the merged knot 1 the first operand is looked up in its segment that
    starts only after it *)
Lemma get_poly_stepAfter_1 :
  get_poly stepAfter 1 true = mkSeg (1 + 5e-13) (Poly3.mk 1 0 0 0).
Proof. unfold stepAfter. spline_eval. reflexivity. Qed.

Lemma get_stepAfter : get stepAfter (1 - 6e-13) 0 = 0.
Proof.
  unfold stepAfter. spline_eval.
  unfold Poly3.value, Poly3.zero; cbn [Poly3.a Poly3.b Poly3.c Poly3.d]. lra.
Qed.

Lemma get_flatFrom1 : get flatFrom1 (1 - 6e-13) 0 = 0.
Proof.
  unfold flatFrom1. spline_eval.
  unfold Poly3.value, Poly3.zero; cbn [Poly3.a Poly3.b Poly3.c Poly3.d]. lra.
Qed.

Lemma sumAt_stepAfter_1 : sumAt stepAfter flatFrom1 1 = Poly3.mk 1 0 0 0.
Proof.
  unfold sumAt. rewrite get_poly_stepAfter_1.
  unfold flatFrom1. spline_eval.
  unfold Poly3.add, Poly3.rebase, Poly3.value, Poly3.deriv, Poly3.deriv2,
    Poly3.deriv3, Poly3.zero; cbn [Poly3.a Poly3.b Poly3.c Poly3.d].
  f_equal; lra.
Qed.

Lemma get_add_stepAfter : get (add stepAfter flatFrom1) (1 - 6e-13) 0 = 1.
Proof.
  rewrite add_segments, ticks_stepAfter.
  unfold map, sumSeg. rewrite sumAt_stepAfter_1.
  spline_eval.
  unfold Poly3.value; cbn [Poly3.a Poly3.b Poly3.c Poly3.d]. lra.
Qed.

End SplineSum.

(** C1, as stated, fails: take the spline that is 0 from the knot 0 and 1
    from the knot 1 + 5e-13, and the spline that is 0 from the knot 1.  Their
    sum evaluated at 1 - 6e-13 is 1, while both operands evaluate to 0
    there. *)
Lemma add_get_counterexample :
  CubicSpline.get (CubicSpline.add SplineSpec.stepAfter SplineSpec.flatFrom1)
    (1 - 6e-13) 0
  <> CubicSpline.get SplineSpec.stepAfter (1 - 6e-13) 0
     + CubicSpline.get SplineSpec.flatFrom1 (1 - 6e-13) 0.
Proof.
  rewrite SplineSum.get_add_stepAfter, SplineSum.get_stepAfter,
    SplineSum.get_flatFrom1.
  lra.
Qed.

(** C1 (amended): for splines whose knots increase strictly and whose merged
    knots are pairwise further apart than the tolerance 1e-12 of [get_poly],
    the spline returned by [add] evaluates, at every point, to the sum of the
    values of the operands. *)
Theorem add_get (A B : CubicSpline.t) (x : R) :
  SplineSpec.strict A -> SplineSpec.strict B ->
  SplineSpec.separated (SplineSpec.knots A ++ SplineSpec.knots B) ->
  CubicSpline.get (CubicSpline.add A B) x 0
  = CubicSpline.get A x 0 + CubicSpline.get B x 0.
Proof.
  intros HA HB Hsep. rewrite SplineFacts.add_segments.
  pose proof (SplineFacts.ticks_strict A B) as Hst.
  pose proof (SplineFacts.ticks_in A B) as Hin.
  destruct (CubicSpline.ticks A B) as [|k0 ks] eqn:E.
  - destruct A as [|sa A'].
    + destruct B as [|sb B']; [simpl; ring|].
      exfalso. apply (proj2 (Hin (CubicSpline.s0 sb))). right. now left.
    + exfalso. apply (proj2 (Hin (CubicSpline.s0 sa))). left. now left.
  - set (K := k0 :: ks) in *.
    set (out := map (SplineSpec.sumSeg A B) K).
    assert (Hne : out <> []) by (unfold out, K; discriminate).
    assert (Hso : SplineSpec.strict out).
    { unfold SplineSpec.strict, SplineSpec.knots, out.
      rewrite map_map. simpl. now rewrite map_id. }
    destruct (SplineFacts.get_poly_sorted out x Hne Hso) as [Hc Hcase].
    unfold CubicSpline.get. fold out.
    destruct out as [|o0 os] eqn:Eo; [congruence|]. rewrite <- Eo in *.
    set (c := CubicSpline.get_poly out x true) in *.
    unfold out in Hc. apply in_map_iff in Hc. destruct Hc as [tau [Hc Htau]].
    assert (HsepK : SplineSpec.separated K).
    { intros u v Hu Hv. apply Hsep; apply in_or_app; now apply Hin. }
    assert (Hcase' :
             (tau <= x + CubicSpline.tol /\
              (forall k, In k K -> k <= x + CubicSpline.tol -> k <= tau))
             \/ (forall k, In k K -> x + CubicSpline.tol < k /\ tau <= k)).
    { rewrite <- Hc in Hcase.
      change (CubicSpline.s0 (SplineSpec.sumSeg A B tau)) with tau in Hcase.
      destruct Hcase as [[H1 H2]|H]; [left|right].
      - split; [exact H1|]. intros k Hk Hle.
        apply (H2 (SplineSpec.sumSeg A B k)); [|exact Hle].
        unfold out. now apply in_map.
      - intros k Hk. apply (H (SplineSpec.sumSeg A B k)).
        unfold out. now apply in_map. }
    rewrite <- Hc. simpl. unfold CubicSpline.sumAt.
    rewrite SplineFacts.add_value.
    rewrite (SplineFacts.operand_at A K x tau HA), (SplineFacts.operand_at B K x tau HB);
      auto; intros k Hk; apply Hin; auto.
Qed.

Lemma add_get_witness :
  CubicSpline.get
    (CubicSpline.add [CubicSpline.mkSeg 0 (Poly3.mk 1 2 0 0)]
                     [CubicSpline.mkSeg 1 (Poly3.mk 3 0 1 0)]) 2 0
  = CubicSpline.get [CubicSpline.mkSeg 0 (Poly3.mk 1 2 0 0)] 2 0
    + CubicSpline.get [CubicSpline.mkSeg 1 (Poly3.mk 3 0 1 0)] 2 0.
Proof.
  apply add_get.
  - repeat constructor.
  - repeat constructor.
  - intros u v Hu Hv; simpl in Hu, Hv; unfold CubicSpline.tol;
      repeat match goal with H : _ \/ _ |- _ => destruct H end;
      subst; try contradiction; lra.
Defined.


(** ** [Math.ceil], [Math.max], [Math.min] *)

Lemma ceil_bounds (x : R) : IZR (Js.ceil x) - 1 < x <= IZR (Js.ceil x).
Proof.
  unfold Js.ceil. destruct (archimed (- x)) as [H1 H2].
  rewrite minus_IZR. simpl (IZR 1). lra.
Qed.

Lemma ceil_unique (x : R) (z : Z) : IZR z - 1 < x <= IZR z -> Js.ceil x = z.
Proof.
  intros [H1 H2]. unfold Js.ceil.
  assert (E : (1 - z)%Z = up (- x)).
  { apply tech_up; rewrite minus_IZR; simpl (IZR 1); lra. }
  rewrite <- E. lia.
Qed.

Lemma ceil_IZR (z : Z) : Js.ceil (IZR z) = z.
Proof. apply ceil_unique. lra. Qed.

Lemma ceil_pos (x : R) : 0 < x -> (1 <= Js.ceil x)%Z.
Proof.
  intros Hx. destruct (ceil_bounds x) as [_ H].
  assert (0 < IZR (Js.ceil x)) by lra.
  apply lt_IZR in H0. lia.
Qed.

Lemma max_l (x y : R) : y <= x -> Js.max x y = x.
Proof. intros. unfold Js.max. now apply Rmax_left. Qed.

Lemma max_r (x y : R) : x <= y -> Js.max x y = y.
Proof. intros. unfold Js.max. now apply Rmax_right. Qed.

Lemma min_l (x y : R) : x <= y -> Js.min x y = x.
Proof. intros. unfold Js.min. now apply Rmin_left. Qed.

Lemma min_r (x y : R) : y <= x -> Js.min x y = y.
Proof. intros. unfold Js.min. now apply Rmin_right. Qed.

Lemma INR_to_nat (n : Z) : (0 <= n)%Z -> INR (Z.to_nat n) = IZR n.
Proof. intros H. now rewrite INR_IZR_INZ, Z2Nat.id. Qed.

(** ** The curve sampler *)

(** [sampleSegment] takes its number of steps from the quotient
    [length / step]. *)
Ltac fold_steps :=
  repeat match goal with
         | |- context [Geometry.stepsFor (?l / ?s)] =>
             change (Geometry.stepsFor (l / s)) with (Geometry.stepCount l s)
         end.

Module SamplerFacts.
Import Geometry.

Lemma stepCount_ceil (length step : R) :
  0 < length -> 0 < step -> stepCount length step = Js.ceil (length / step).
Proof.
  intros HL Hs. unfold stepCount, stepsFor. apply Z.max_r, ceil_pos.
  now apply Rdiv_lt_0_compat.
Qed.

Lemma stepCount_pos (length step : R) : (1 <= stepCount length step)%Z.
Proof. unfold stepCount, stepsFor. lia. Qed.

Lemma lastS_snoc (pts : list Sample) (p : Sample) : lastS (pts ++ [p]) = Some (p_s p).
Proof. unfold lastS. now rewrite rev_app_distr. Qed.

Lemma lastS_cons (p q : Sample) (pts : list Sample) :
  lastS (p :: q :: pts) = lastS (q :: pts).
Proof.
  unfold lastS. simpl. destruct (rev pts ++ [q]) eqn:E.
  - destruct (rev pts); discriminate.
  - reflexivity.
Qed.

Lemma lastS_cons_last (p q : Sample) : lastS [p; q] = Some (p_s q).
Proof. reflexivity. Qed.

Lemma lastS_map_upto (f : nat -> Sample) (n : Z) :
  lastS (map f (upto n)) = Some (p_s (f (Z.to_nat n))).
Proof.
  unfold upto. rewrite seq_S, map_app. simpl. apply lastS_snoc.
Qed.

(** The samples of a straight primitive are evenly spaced and end at its
    declared length. *)
Lemma lineSamples_nth (x y hdg ds : R) (n : Z) (i : nat) :
  (i <= Z.to_nat n)%nat ->
  nth_error (lineSamples x y hdg ds n) i
  = Some (mkSample (x + INR i * ds * cos hdg) (y + INR i * ds * sin hdg)
            hdg (INR i * ds)).
Proof.
  intros Hi. unfold lineSamples, upto.
  rewrite nth_error_map, nth_error_nth' with (d := 0%nat) by (rewrite length_seq; lia).
  rewrite seq_nth by lia. reflexivity.
Qed.

Lemma spiralSteps_last (hdg k0 dk ds : R) (ixs : list nat) :
  forall (px py : R) (p0 : Sample) (i : nat),
    lastS (p0 :: spiralSteps hdg k0 dk ds px py (ixs ++ [i])) = Some (INR i * ds).
Proof.
  induction ixs as [|j ixs IH]; intros px py p0 i.
  - reflexivity.
  - cbn [app spiralSteps]. cbv zeta. rewrite lastS_cons. apply IH.
Qed.

Lemma steps_end (L : R) (n : Z) :
  0 < L -> (1 <= n)%Z -> INR (Z.to_nat n) * (L / IZR n) = L.
Proof.
  intros HL Hn. rewrite INR_to_nat by lia.
  assert (0 < IZR n) by (apply IZR_lt; lia). field. lra.
Qed.

(** Whatever the type of the primitive, the uniform sampler ends at the
    declared length. *)
Lemma sampleSegment_last (g : Geom) (step : R) :
  0 < g_length g -> 0 < step -> lastS (sampleSegment g step) = Some (g_length g).
Proof.
  intros HL _. unfold sampleSegment, samplesAt; fold_steps.
  rewrite (proj2 (leb_false_iff _ _)) by exact HL. cbv zeta.
  pose proof (stepCount_pos (g_length g) step) as Hn.
  set (n := stepCount (g_length g) step) in *.
  assert (Hline : forall x y hdg,
             lastS (lineSamples x y hdg (g_length g / IZR n) n) = Some (g_length g)).
  { intros. unfold lineSamples. rewrite lastS_map_upto. cbn [p_s].
    f_equal. now apply steps_end. }
  destruct (g_type g); try apply Hline.
  - destruct (Js.ltb _ _); [apply Hline|].
    rewrite lastS_map_upto. cbn [p_s]. f_equal. now apply steps_end.
  - unfold from1. destruct (Z.to_nat n) as [|m] eqn:Em; [lia|].
    rewrite seq_S, spiralSteps_last. f_equal.
    change (1 + m)%nat with (S m). rewrite <- Em. now apply steps_end.
  - rewrite lastS_map_upto. cbn [p_s]. f_equal. now apply steps_end.
Qed.

Lemma lastS_In (pts : list Sample) (sl : R) :
  lastS pts = Some sl -> exists p, In p pts /\ p_s p = sl.
Proof.
  unfold lastS. destruct (rev pts) as [|p r] eqn:E; [discriminate|].
  intros [= <-]. exists p. split; [|reflexivity].
  apply in_rev. rewrite E. now left.
Qed.

End SamplerFacts.

(** ** C8: sampling a line *)




(** ** The adaptive loops run to their end *)

Module LoopFacts.
Import Geometry SamplerFacts.

Lemma spiralStep_ge (k0 dk L b m s : R) : 0.05 <= spiralStep k0 dk L b m s.
Proof. unfold spiralStep. cbv zeta. unfold Js.max. apply Rmax_l. Qed.

Lemma spiralStep_le (k0 dk L b m s : R) :
  s + spiralStep k0 dk L b m s <= Rmax (s + 0.05) L.
Proof.
  unfold spiralStep. cbv zeta. unfold Js.max, Js.min.
  set (hh := if Js.gtb _ _ then _ else _).
  pose proof (Rmin_r hh (L - s)).
  unfold Rmax. repeat destruct (Rle_dec _ _); lra.
Qed.

(** The fuel of the spiral loop is never used up: the loop stops on its own
    condition, and more fuel gives the same samples. *)
Lemma spiralLoop_fuel (k0 dk L b m : R) (fuel : nat) :
  forall (k : nat) (s px py th : R),
    L - s <= 0.05 * INR fuel ->
    spiralLoop (S fuel + k) k0 dk L b m s px py th
    = spiralLoop (S fuel) k0 dk L b m s px py th.
Proof.
  induction fuel as [|fuel IH]; intros k s px py th Hs.
  - cbn [Nat.add spiralLoop]. simpl INR in Hs.
    now rewrite (proj2 (ltb_false_iff _ _)) by lra.
  - change (S (S fuel) + k)%nat with (S (S fuel + k)).
    cbn [spiralLoop]. destruct (Js.ltb s (L - 1e-9)); [|reflexivity].
    cbv zeta. f_equal. apply IH.
    pose proof (spiralStep_ge k0 dk L b m s). rewrite S_INR in Hs. lra.
Qed.

Lemma spiralFuel_enough (L : R) :
  0 < L -> exists fuel, spiralFuel L = S fuel /\ L - 0 <= 0.05 * INR fuel.
Proof.
  intros HL. unfold spiralFuel. eexists. split; [reflexivity|].
  assert (H : 0 < L / 0.05) by (apply Rdiv_lt_0_compat; lra).
  pose proof (ceil_pos _ H). rewrite INR_to_nat by lia.
  destruct (ceil_bounds (L / 0.05)) as [_ Hc].
  apply Rmult_le_compat_l with (r := 0.05) in Hc; [|lra].
  replace (0.05 * (L / 0.05)) with L in Hc by (field; lra). lra.
Qed.

(** The spiral branch with any larger fuel returns the same samples. *)
Lemma spiral_total (k0 dk L b m px py th : R) (k : nat) :
  0 < L ->
  spiralLoop (spiralFuel L + k) k0 dk L b m 0 px py th
  = spiralLoop (spiralFuel L) k0 dk L b m 0 px py th.
Proof.
  intros HL. destruct (spiralFuel_enough L HL) as (fuel & -> & Hf).
  now apply spiralLoop_fuel.
Qed.

Lemma abs_mult_le (a c A : R) : Rabs c <= 1 -> Rabs a <= A -> Rabs (a * c) <= A.
Proof.
  intros Hc Ha. rewrite Rabs_mult.
  pose proof (Rabs_pos a). pose proof (Rabs_pos c). nra.
Qed.

Lemma abs_rot_minus (a b c s A B : R) :
  Rabs c <= 1 -> Rabs s <= 1 -> Rabs a <= A -> Rabs b <= B ->
  Rabs (a * c - b * s) <= A + B.
Proof.
  intros Hc Hs Ha Hb. unfold Rminus.
  eapply Rle_trans; [apply Rabs_triang|]. rewrite Rabs_Ropp.
  pose proof (abs_mult_le a c A Hc Ha). pose proof (abs_mult_le b s B Hs Hb). lra.
Qed.

Lemma abs_rot_plus (a b c s A B : R) :
  Rabs c <= 1 -> Rabs s <= 1 -> Rabs a <= A -> Rabs b <= B ->
  Rabs (a * s + b * c) <= A + B.
Proof.
  intros Hc Hs Ha Hb.
  eapply Rle_trans; [apply Rabs_triang|].
  pose proof (abs_mult_le a s A Hs Ha). pose proof (abs_mult_le b c B Hc Hb). lra.
Qed.

Lemma abs_cos (x : R) : Rabs (cos x) <= 1.
Proof. apply Rabs_le. pose proof (COS_bound x). lra. Qed.

Lemma abs_sin (x : R) : Rabs (sin x) <= 1.
Proof. apply Rabs_le. pose proof (SIN_bound x). lra. Qed.

Lemma abs_d1 (b c d s L : R) :
  0 <= s <= L ->
  Rabs (b + 2 * c * s + 3 * d * s * s) <= Rabs b + 2 * Rabs c * L + 3 * Rabs d * L * L.
Proof.
  intros Hs.
  eapply Rle_trans; [apply Rabs_triang|].
  eapply Rle_trans; [apply Rplus_le_compat_r, Rabs_triang|].
  rewrite !Rabs_mult. rewrite (Rabs_right 2), (Rabs_right 3), (Rabs_right s) by lra.
  pose proof (Rabs_pos c). pose proof (Rabs_pos d).
  assert (Rabs c * s <= Rabs c * L) by nra.
  assert (s * s <= L * L) by nra.
  assert (Rabs d * (s * s) <= Rabs d * (L * L)) by nra.
  nra.
Qed.

Lemma abs_d2 (c d s L : R) :
  0 <= s <= L ->
  Rabs (2 * c + 6 * d * s) <= 2 * Rabs c + 6 * Rabs d * L.
Proof.
  intros Hs.
  eapply Rle_trans; [apply Rabs_triang|].
  rewrite !Rabs_mult. rewrite (Rabs_right 2), (Rabs_right 6), (Rabs_right s) by lra.
  pose proof (Rabs_pos d).
  assert (Rabs d * s <= Rabs d * L) by nra.
  nra.
Qed.

Lemma poly3NumBound_nonneg (g : Geom) (L : R) : 0 <= L -> 0 <= poly3NumBound g L.
Proof.
  intros HL. unfold poly3NumBound, Js.abs. cbv zeta.
  pose proof (Rabs_pos (g_bU g)). pose proof (Rabs_pos (g_cU g)).
  pose proof (Rabs_pos (g_dU g)). pose proof (Rabs_pos (g_bV g)).
  pose proof (Rabs_pos (g_cV g)). pose proof (Rabs_pos (g_dV g)).
  assert (0 <= Rabs (g_cU g) * L) by nra.
  assert (0 <= Rabs (g_dU g) * L) by nra.
  assert (0 <= Rabs (g_dU g) * L * L) by nra.
  assert (0 <= Rabs (g_cV g) * L) by nra.
  assert (0 <= Rabs (g_dV g) * L) by nra.
  assert (0 <= Rabs (g_dV g) * L * L) by nra.
  apply Rmult_le_pos; [apply Rmult_le_pos|]; lra.
Qed.

(** The curvature estimate is bounded over the primitive. *)
Lemma poly3Curvature_bound (g : Geom) (L s : R) :
  0 <= s <= L -> poly3Curvature g s <= 1e9 * poly3NumBound g L.
Proof.
  intros Hs. assert (HL : 0 <= L) by lra.
  pose proof (poly3NumBound_nonneg g L HL) as HN.
  unfold poly3Curvature. cbv zeta.
  set (du := g_bU g + 2 * g_cU g * s + 3 * g_dU g * s * s).
  set (dv := g_bV g + 2 * g_cV g * s + 3 * g_dV g * s * s).
  set (d2u := 2 * g_cU g + 6 * g_dU g * s).
  set (d2v := 2 * g_cV g + 6 * g_dV g * s).
  set (c := cos (g_hdg g)). set (sn := sin (g_hdg g)).
  set (tx := du * c - dv * sn). set (ty := du * sn + dv * c).
  set (ax := d2u * c - d2v * sn). set (ay := d2u * sn + d2v * c).
  set (denom := Js.pow_3_2 _).
  destruct (Js.gtb denom 1e-9) eqn:E; [|lra].
  apply gtb_true_iff in E.
  pose proof (abs_d1 (g_bU g) (g_cU g) (g_dU g) s L Hs) as Hdu. fold du in Hdu.
  pose proof (abs_d1 (g_bV g) (g_cV g) (g_dV g) s L Hs) as Hdv. fold dv in Hdv.
  pose proof (abs_d2 (g_cU g) (g_dU g) s L Hs) as Hd2u. fold d2u in Hd2u.
  pose proof (abs_d2 (g_cV g) (g_dV g) s L Hs) as Hd2v. fold d2v in Hd2v.
  set (DU := Rabs (g_bU g) + 2 * Rabs (g_cU g) * L + 3 * Rabs (g_dU g) * L * L) in Hdu.
  set (DV := Rabs (g_bV g) + 2 * Rabs (g_cV g) * L + 3 * Rabs (g_dV g) * L * L) in Hdv.
  set (D2U := 2 * Rabs (g_cU g) + 6 * Rabs (g_dU g) * L) in Hd2u.
  set (D2V := 2 * Rabs (g_cV g) + 6 * Rabs (g_dV g) * L) in Hd2v.
  assert (Htx : Rabs tx <= DU + DV)
    by (apply abs_rot_minus; [apply abs_cos|apply abs_sin|exact Hdu|exact Hdv]).
  assert (Hty : Rabs ty <= DU + DV)
    by (apply abs_rot_plus; [apply abs_cos|apply abs_sin|exact Hdu|exact Hdv]).
  assert (Hax : Rabs ax <= D2U + D2V)
    by (apply abs_rot_minus; [apply abs_cos|apply abs_sin|exact Hd2u|exact Hd2v]).
  assert (Hay : Rabs ay <= D2U + D2V)
    by (apply abs_rot_plus; [apply abs_cos|apply abs_sin|exact Hd2u|exact Hd2v]).
  assert (Hnum : Rabs (tx * ay - ty * ax) <= poly3NumBound g L).
  { unfold poly3NumBound, Js.abs. cbv zeta. fold DU DV D2U D2V.
    unfold Rminus. eapply Rle_trans; [apply Rabs_triang|].
    rewrite Rabs_Ropp, !Rabs_mult.
    pose proof (Rabs_pos tx). pose proof (Rabs_pos ty).
    pose proof (Rabs_pos ax). pose proof (Rabs_pos ay).
    assert (Rabs tx * Rabs ay <= (DU + DV) * (D2U + D2V)) by (apply Rmult_le_compat; lra).
    assert (Rabs ty * Rabs ax <= (DU + DV) * (D2U + D2V)) by (apply Rmult_le_compat; lra).
    lra. }
  unfold Js.abs, Rdiv. rewrite Rabs_mult, (Rabs_right (/ denom)).
  2:{ apply Rle_ge, Rlt_le, Rinv_0_lt_compat. lra. }
  assert (Hinv : / denom <= 1e9).
  { replace 1e9 with (/ 1e-9) by lra. apply Rinv_le_contravar; lra. }
  pose proof (Rabs_pos (tx * ay - ty * ax)).
  assert (0 < / denom) by (apply Rinv_0_lt_compat; lra).
  nra.
Qed.

Lemma poly3MinStep_pos (g : Geom) (L m : R) : 0 < L -> 0 < m -> 0 < poly3MinStep g L m.
Proof.
  intros HL Hm. unfold poly3MinStep, Js.min.
  pose proof (poly3NumBound_nonneg g L (Rlt_le _ _ HL)).
  assert (0 < m / (1e9 * (poly3NumBound g L + 1))).
  { apply Rdiv_lt_0_compat; nra. }
  unfold Rmin. repeat destruct (Rle_dec _ _); lra.
Qed.

(** Until the end is reached, a step of the ParamPoly3 loop is the whole
    remainder or at least [poly3MinStep] long. *)
Lemma poly3Step_ge (g : Geom) (L b m s : R) :
  0 <= s -> s < L -> 0 < m ->
  Rmin (poly3MinStep g L m) (L - s) <= poly3Step g L b m s <= L - s.
Proof.
  intros Hs0 Hs Hm. unfold poly3Step. cbv zeta. unfold Js.min, Js.max.
  assert (Hc := poly3Curvature_bound g L s (conj Hs0 (Rlt_le _ _ Hs))).
  pose proof (poly3NumBound_nonneg g L ltac:(lra)) as HN.
  set (cv := poly3Curvature g s) in *.
  assert (Hds : poly3MinStep g L m <= (if Js.gtb cv 1e-9 then m / cv else L)).
  { unfold poly3MinStep, Js.min.
    destruct (Js.gtb cv 1e-9) eqn:E.
    - apply gtb_true_iff in E.
      eapply Rle_trans; [apply Rmin_r|]. eapply Rle_trans; [apply Rmin_r|].
      unfold Rdiv. apply Rmult_le_compat_l; [lra|].
      apply Rinv_le_contravar; nra.
    - eapply Rle_trans; [apply Rmin_r|]. apply Rmin_l. }
  assert (Hb : poly3MinStep g L m <= Rmax 0.2 b).
  { unfold poly3MinStep, Js.min. eapply Rle_trans; [apply Rmin_l|apply Rmax_l]. }
  split; [|apply Rmin_r].
  apply Rmin_glb; [|apply Rmin_r].
  eapply Rle_trans; [apply Rmin_l|]. apply Rmin_glb; assumption.
Qed.

(** The fuel of the ParamPoly3 loop is never used up. *)
Lemma poly3Loop_fuel (g : Geom) (L b m : R) (fuel : nat) :
  0 < L -> 0 < m ->
  forall (k : nat) (s : R),
    0 <= s <= L -> L - s <= poly3MinStep g L m * INR fuel ->
    poly3Loop (S fuel + k) g L b m s = poly3Loop (S fuel) g L b m s.
Proof.
  intros HL Hm. pose proof (poly3MinStep_pos g L m HL Hm) as Hpos.
  induction fuel as [|fuel IH]; intros k s Hs Hrem.
  - cbn [Nat.add poly3Loop]. simpl INR in Hrem.
    destruct (Js.ltb s (L + 1e-9)); [|reflexivity]. cbv zeta.
    now rewrite (proj2 (geb_true_iff _ _)) by lra.
  - change (S (S fuel) + k)%nat with (S (S fuel + k)).
    cbn [poly3Loop]. destruct (Js.ltb s (L + 1e-9)); [|reflexivity].
    cbv zeta. f_equal. destruct (Js.geb s L) eqn:E; [reflexivity|].
    apply geb_false_iff in E.
    destruct (poly3Step_ge g L b m s) as [H1 H2]; [lra..|].
    rewrite (proj2 (gtb_false_iff _ _)) by lra.
    rewrite S_INR in Hrem. assert (0 <= INR fuel) by apply pos_INR.
    unfold Rmin in H1. apply IH; destruct (Rle_dec _ _); nra.
Qed.

Lemma poly3Fuel_enough (g : Geom) (L m : R) :
  0 < L -> 0 < m ->
  exists fuel, poly3Fuel g L m = (S fuel + 1)%nat
               /\ L - 0 <= poly3MinStep g L m * INR fuel.
Proof.
  intros HL Hm. pose proof (poly3MinStep_pos g L m HL Hm) as Hpos.
  unfold poly3Fuel. eexists. split; [rewrite Nat.add_1_r; reflexivity|].
  assert (H : 0 < L / poly3MinStep g L m) by (apply Rdiv_lt_0_compat; lra).
  pose proof (ceil_pos _ H). rewrite INR_to_nat by lia.
  destruct (ceil_bounds (L / poly3MinStep g L m)) as [_ Hc].
  apply Rmult_le_compat_l with (r := poly3MinStep g L m) in Hc; [|lra].
  replace (poly3MinStep g L m * (L / poly3MinStep g L m)) with L in Hc by (field; lra).
  lra.
Qed.

(** The ParamPoly3 branch with any larger fuel returns the same samples. *)
Lemma poly3_total (g : Geom) (L b m : R) (k : nat) :
  0 < L -> 0 < m ->
  poly3Loop (poly3Fuel g L m + k) g L b m 0 = poly3Loop (poly3Fuel g L m) g L b m 0.
Proof.
  intros HL Hm. destruct (poly3Fuel_enough g L m HL Hm) as (fuel & -> & Hf).
  rewrite <- Nat.add_assoc.
  rewrite !(poly3Loop_fuel g L b m fuel HL Hm) by (try exact Hf; lra).
  reflexivity.
Qed.

End LoopFacts.

(** ** C2: the arc length of the last sample *)

Module EndOfPrimitive.
Import Geometry SamplerFacts LoopFacts.

Lemma poly3Loop_le (g : Geom) (L b m : R) (fuel : nat) :
  forall s, s <= L -> Forall (fun p => p_s p <= L) (poly3Loop fuel g L b m s).
Proof.
  induction fuel as [|fuel IH]; intros s Hs; cbn [poly3Loop]; [constructor|].
  destruct (Js.ltb s (L + 1e-9)); [|constructor]. cbv zeta.
  constructor; [exact Hs|].
  destruct (Js.geb s L); [constructor|].
  apply IH. destruct (Js.gtb _ L) eqn:E; [lra|]. now apply gtb_false_iff in E.
Qed.

(** Lines, arcs, ParamPoly3 curves and primitives of unknown type: the last
    sample of the adaptive sampler is tagged with the declared length. *)
Lemma adaptive_last (g : Geom) (opts : Opts) :
  g_type g <> spiral -> 0 < g_length g ->
  lastS (sampleSegmentAdaptive g opts) = Some (g_length g).
Proof.
  intros Hty HL. unfold sampleSegmentAdaptive.
  rewrite (proj2 (gtb_true_iff _ _)) by lra. cbn [negb]. cbv zeta.
  assert (Hb : 0 < Js.max 0.2 (orDefault (baseStep opts) 0.7)).
  { unfold Js.max. pose proof (Rmax_l 0.2 (orDefault (baseStep opts) 0.7)). lra. }
  assert (Hm : 0 < Js.max 0.005 (orDefault (maxAngle opts) 0.03)).
  { unfold Js.max. pose proof (Rmax_l 0.005 (orDefault (maxAngle opts) 0.03)). lra. }
  destruct (g_type g); try now apply sampleSegment_last.
  - apply sampleSegment_last; [exact HL|].
    unfold Js.min. apply Rmin_glb_lt; [exact Hb|].
    destruct (Js.gtb _ _) eqn:E; [|exact HL].
    apply gtb_true_iff in E. apply Rdiv_lt_0_compat; [exact Hm|lra].
  - congruence.
  - set (pts := poly3Loop _ _ _ _ _ _).
    destruct (lastS pts) as [sl|] eqn:E; [|apply lastS_snoc].
    destruct (Js.ltb sl (g_length g)) eqn:E'; [apply lastS_snoc|].
    apply ltb_false_iff in E'. rewrite E. f_equal.
    destruct (lastS_In _ _ E) as (p & Hin & <-).
    pose proof (poly3Loop_le g (g_length g)
                  (Js.max 0.2 (orDefault (baseStep opts) 0.7))
                  (Js.max 0.005 (orDefault (maxAngle opts) 0.03))
                  (poly3Fuel g (g_length g)
                     (Js.max 0.005 (orDefault (maxAngle opts) 0.03))) 0
                  (Rlt_le _ _ HL)) as Hall.
    rewrite Forall_forall in Hall. specialize (Hall p Hin). lra.
Qed.

Lemma spiralLoop_last (k0 dk L b m : R) (fuel : nat) :
  forall (p0 : Sample) (s px py th : R),
    p_s p0 = s -> L - s <= 0.05 * INR fuel -> s < L + 0.05 ->
    exists sl,
      lastS (p0 :: spiralLoop (S fuel) k0 dk L b m s px py th) = Some sl
      /\ L - 1e-9 <= sl < L + 0.05.
Proof.
  induction fuel as [|fuel IH]; intros p0 s px py th Hp Hs Hup.
  - cbn [spiralLoop]. simpl INR in Hs.
    rewrite (proj2 (ltb_false_iff _ _)) by lra.
    exists s. split; [unfold lastS; cbn; now rewrite Hp|lra].
  - cbn [spiralLoop]. destruct (Js.ltb s (L - 1e-9)) eqn:E.
    + cbv zeta. rewrite lastS_cons.
      apply ltb_true_iff in E.
      pose proof (spiralStep_ge k0 dk L b m s).
      pose proof (spiralStep_le k0 dk L b m s) as Hle.
      apply IH; [reflexivity|rewrite S_INR in Hs; lra|].
      unfold Rmax in Hle. destruct (Rle_dec _ _); lra.
    + apply ltb_false_iff in E.
      exists s. split; [unfold lastS; cbn; now rewrite Hp|lra].
Qed.

(** The last sample of a spiral is tagged with an arc length between
    [L - 1e-9] and [L + 0.05]. *)
Lemma spiral_last_bounds (g : Geom) (opts : Opts) :
  g_type g = spiral -> 0 < g_length g ->
  exists sl,
    lastS (sampleSegmentAdaptive g opts) = Some sl
    /\ g_length g - 1e-9 <= sl < g_length g + 0.05.
Proof.
  intros Hty HL. unfold sampleSegmentAdaptive.
  rewrite (proj2 (gtb_true_iff _ _)) by lra. cbn [negb]. rewrite Hty. cbv zeta.
  destruct (spiralFuel_enough _ HL) as (fuel & -> & Hf).
  apply spiralLoop_last; [reflexivity|exact Hf|lra].
Qed.

End EndOfPrimitive.

Module SpiralEnd.
Import Geometry SamplerFacts.

(** Near the end of a spiral the step is the floor 0.05, whatever remains. *)
Lemma spiralStep_floor (k0 dk L baseStep maxAngle s : R) :
  L - s <= 0.05 -> spiralStep k0 dk L baseStep maxAngle s = 0.05.
Proof.
  intros H. unfold spiralStep. cbv zeta.
  apply max_l. unfold Js.min.
  eapply Rle_trans; [apply Rmin_r|exact H].
Qed.

(** A spiral shorter than the floor of the step is sampled at 0 and at 0.05:
    the last sample lies beyond the declared length. *)
Lemma short_spiral (g : Geom) (opts : Opts) :
  g_type g = spiral -> 1e-9 < g_length g -> g_length g < 0.05 ->
  lastS (sampleSegmentAdaptive g opts) = Some 0.05.
Proof.
  intros Hty H1 H2. unfold sampleSegmentAdaptive.
  rewrite (proj2 (gtb_true_iff _ _)) by lra. cbn [negb]. rewrite Hty. cbv zeta.
  unfold spiralFuel. cbn [spiralLoop].
  rewrite (proj2 (ltb_true_iff _ _)) by lra.
  rewrite spiralStep_floor by lra.
  set (st := rk4Step _ _ _ _ _ _ _).
  destruct (Z.to_nat _); cbn [spiralLoop].
  - rewrite lastS_cons_last. cbn [p_s]. f_equal. lra.
  - rewrite (proj2 (ltb_false_iff _ _)) by lra.
    rewrite lastS_cons_last. cbn [p_s]. f_equal. lra.
Qed.

Lemma spiralLoop_step (fuel : nat) (k0 dk L b m s px py th : R) :
  s < L - 1e-9 ->
  map p_s (spiralLoop (S fuel) k0 dk L b m s px py th)
  = let h := spiralStep k0 dk L b m s in
    let st := rk4Step k0 dk s h px py th in
    (s + h) :: map p_s (spiralLoop fuel k0 dk L b m (s + h)
                          (fst (fst st)) (snd (fst st)) (snd st)).
Proof.
  intros H. cbn [spiralLoop]. now rewrite (proj2 (ltb_true_iff _ _)) by exact H.
Qed.

Lemma spiralLoop_stop (fuel : nat) (k0 dk L b m s px py th : R) :
  L - 1e-9 <= s -> spiralLoop (S fuel) k0 dk L b m s px py th = [].
Proof.
  intros H. cbn [spiralLoop]. now rewrite (proj2 (ltb_false_iff _ _)) by lra.
Qed.

(** Where the curvature vanishes, the step is the chord target, cut to what
    remains and raised to the floor. *)
Lemma spiralStep_straight (L b m s : R) :
  spiralStep 0 0 L b m s = Js.max 0.05 (Js.min b (L - s)).
Proof.
  unfold spiralStep. cbv zeta. unfold Js.abs.
  replace (0.5 * Rabs 0) with 0 by (rewrite Rabs_R0; lra).
  replace (0 + 0 * s) with 0 by lra. rewrite Rabs_R0.
  now js_decide.
Qed.

(** A straight spiral of length 0.73 at the default chord target 0.7: one
    step of 0.7, then the floor 0.05 where 0.03 remains. *)
Lemma long_spiral :
  map p_s (sampleSegmentAdaptive (mkSpiral 0 0 0 0 0.73 (Some 0) (Some 0))
             (mkOpts None None))
  = [0; 0.7; 0.75].
Proof.
  unfold sampleSegmentAdaptive, mkSpiral.
  cbn [g_length g_type g_curvStart g_curvEnd g_x g_y g_hdg numOr0 orDefault
       baseStep maxAngle].
  js_decide. cbn [negb]. cbv zeta.
  rewrite (max_r 0.2 0.7), (max_r 0.005 0.03) by lra.
  replace ((0 - 0) / 0.73) with 0 by (field; lra).
  unfold spiralFuel. rewrite (ceil_unique (0.73 / 0.05) 15) by lra.
  change (Z.to_nat 15) with 15%nat. cbn [map p_s]. f_equal.
  rewrite spiralLoop_step by lra. cbv zeta.
  rewrite spiralStep_straight, min_l, max_r by lra.
  replace (0 + 0.7) with 0.7 by lra. f_equal.
  set (st := rk4Step _ _ _ _ _ _ _).
  rewrite spiralLoop_step by lra. cbv zeta.
  rewrite spiralStep_floor by lra.
  set (st' := rk4Step _ _ _ _ _ _ _).
  rewrite spiralLoop_stop by lra. cbn [map]. f_equal. lra.
Qed.

End SpiralEnd.

(** C2 fails on the spiral branch: the spiral of length 0.01 (curvature 0)
    is sampled at arc lengths 0 and 0.05, so its last sample is tagged 0.05,
    which is farther from the declared length 0.01 than the relative
    tolerance 1e-6 allows. *)
Lemma spiral_last_sample :
  Geometry.lastS
    (Geometry.sampleSegmentAdaptive
       (Geometry.mkSpiral 0 0 0 0 0.01 (Some 0) (Some 0))
       (Geometry.mkOpts None None))
  = Some 0.05
  /\ 1e-6 * 0.01 < Rabs (0.05 - 0.01).
Proof.
  split.
  - apply SpiralEnd.short_spiral; [reflexivity| |];
      unfold Geometry.mkSpiral; cbn [Geometry.g_length]; lra.
  - rewrite Rabs_right; lra.
Qed.


(** ** C4: the reader *)

Module ReaderFacts.
Import Dom OpenDrive.

Lemma fold_push_map {A B : Type} (f : A -> B) (l : list A) (acc : list B) :
  fold_left (fun out a => out ++ [f a]) l acc = acc ++ map f l.
Proof.
  revert acc; induction l as [|a l IH]; intros acc; simpl.
  - now rewrite app_nil_r.
  - rewrite IH, <- app_assoc. reflexivity.
Qed.

(** Without a parser error, the result holds one record per road element,
    in document order. *)
Lemma parse_ok (doc : Node) :
  selectAll doc "parsererror" = [] ->
  exists hdr,
    parseOpenDrive doc
    = inr (mkRoadModel hdr (map readRoad (selectChildOf doc "OpenDRIVE" "road"))).
Proof.
  intros H. unfold parseOpenDrive. rewrite H.
  eexists. rewrite fold_push_map. reflexivity.
Qed.

Lemma parse_error (doc : Node) :
  selectAll doc "parsererror" <> [] ->
  parseOpenDrive doc = inl "XML parse error"%string.
Proof.
  intros H. unfold parseOpenDrive.
  destruct (selectAll doc "parsererror"); [congruence|reflexivity].
Qed.

Lemma Number_10 : JsString.Number "10" = Some 10.
Proof.
  cbv -[IZR Rmult powerRZ Ropp Z.sub].
  change (powerRZ 10 (0 - 0)) with 1. f_equal. lra.
Qed.

Lemma incompleteRoadDoc_roads :
  map readRoad (selectChildOf incompleteRoadDoc "OpenDRIVE" "road")
  = [mkRoad None "" None [] [] [];
     mkRoad (Some "1"%string) "" (num (Some "10"%string))
       [mkPlanGeom (num (Some "0"%string)) (num (Some "0"%string))
          (num (Some "0"%string)) (num (Some "0"%string))
          (num (Some "10"%string)) SLine] [] []].
Proof. reflexivity. Qed.

End ReaderFacts.

(** C4, as stated, fails: the road element without id, length and geometry
    is not skipped; the model holds a record for it, with no id, no length
    and an empty planView, before the record of the complete road. *)
Lemma parse_incomplete_road_counterexample :
  exists m,
    OpenDrive.parseOpenDrive OpenDrive.incompleteRoadDoc = inr m
    /\ map OpenDrive.rd_id (OpenDrive.roads m) = [None; Some "1"%string]
    /\ map OpenDrive.rd_length (OpenDrive.roads m) = [None; Some 10]
    /\ map (fun r => List.length (OpenDrive.rd_planView r)) (OpenDrive.roads m)
       = [0%nat; 1%nat].
Proof.
  destruct (ReaderFacts.parse_ok OpenDrive.incompleteRoadDoc eq_refl) as [hdr E].
  eexists. split; [exact E|].
  cbn [OpenDrive.roads]. rewrite ReaderFacts.incompleteRoadDoc_roads.
  cbn [map OpenDrive.rd_id OpenDrive.rd_length OpenDrive.rd_planView List.length
         OpenDrive.num].
  rewrite ReaderFacts.Number_10. repeat split.
Qed.

(** C4 (amended): a document with a [parsererror] element makes the reader
    throw, and no model is returned; for every other document the model
    holds exactly one record per [OpenDRIVE > road] element, in document
    order, each read from its own element alone.  No road is skipped: a road
    element without id, length or geometry gives a record whose id is
    [null], whose length is [undefined] or whose planView is empty. *)
Theorem parse_roads (doc : Dom.Node) :
  (Dom.selectAll doc "parsererror" <> [] ->
   OpenDrive.parseOpenDrive doc = inl "XML parse error"%string)
  /\ (Dom.selectAll doc "parsererror" = [] ->
      exists m,
        OpenDrive.parseOpenDrive doc = inr m
        /\ OpenDrive.roads m
           = map OpenDrive.readRoad (Dom.selectChildOf doc "OpenDRIVE" "road")
        /\ forall r, In r (Dom.selectChildOf doc "OpenDRIVE" "road") ->
             exists rd, In rd (OpenDrive.roads m)
               /\ OpenDrive.rd_id rd = Dom.getAttribute r "id"
               /\ OpenDrive.rd_length rd
                  = OpenDrive.num (Dom.getAttribute r "length")
               /\ List.length (OpenDrive.rd_planView rd)
                  <= List.length (Dom.grandChildrenNamed r "planView" "geometry"))%nat.
Proof.
  split; [apply ReaderFacts.parse_error|].
  intros H. destruct (ReaderFacts.parse_ok doc H) as [hdr E].
  eexists. split; [exact E|]. split; [reflexivity|].
  intros r Hr. exists (OpenDrive.readRoad r).
  split; [cbn [OpenDrive.roads]; now apply in_map|].
  split; [reflexivity|]. split; [reflexivity|].
  unfold OpenDrive.readRoad. cbn [OpenDrive.rd_planView].
  generalize (Dom.grandChildrenNamed r "planView" "geometry"). intros l.
  assert (G : forall acc,
             (List.length (fold_left
                (fun acc g => OpenDrive.pushSome acc (OpenDrive.readGeometry g)) l acc)
              <= List.length acc + List.length l)%nat).
  { induction l as [|g l IH]; intros acc; simpl; [lia|].
    specialize (IH (OpenDrive.pushSome acc (OpenDrive.readGeometry g))).
    destruct (OpenDrive.readGeometry g); cbn [OpenDrive.pushSome] in *;
      [rewrite length_app in IH; cbn [List.length] in IH|]; lia. }
  apply (G []).
Qed.

Lemma parse_roads_witness :
  OpenDrive.parseOpenDrive OpenDrive.brokenDoc = inl "XML parse error"%string.
Proof. apply (proj1 (parse_roads OpenDrive.brokenDoc)). discriminate. Defined.


(** ** Lane runs *)

Module LaneFacts.
Import Geometry OpenDrive LaneBuilder.

Lemma EPS_pos : 0 < EPS.
Proof. unfold EPS. lra. Qed.

Lemma runPolygon_ring {C : Type} (projector : R * R -> C) (side : Side)
  (O I : list Sample) (props : Props) :
  pg_ring (runPolygon projector side O I props) = ringOf projector side O I.
Proof. destruct side; reflexivity. Qed.

Lemma lateral_offsetPoint (c : Sample) (off : R) : lateralAt c off (offsetPoint c off).
Proof. unfold lateralAt, offsetPoint. cbn [p_x p_y p_th p_s]. repeat split; lra. Qed.

Lemma between_interpPoint (a b : Sample) (t : R) : betweenAt a b t (interpPoint a b t).
Proof. unfold betweenAt, interpPoint. cbn [p_x p_y p_th p_s]. repeat split. Qed.










(** While no run is open, the width remembered from the previous sample is
    at most the threshold. *)
Lemma trackStep_idle {C : Type} (road : Road) (projector : R * R -> C)
  (track : Track) (prev : option Sample) (cur : Sample) (st : State C) :
  (active st = false -> prevWidth st <= EPS) ->
  active (trackStep road projector track prev cur st) = false ->
  prevWidth (trackStep road projector track prev cur st) <= EPS.
Proof.
  intros Hst. pose proof EPS_pos. unfold trackStep.
  destruct (nodeAt track (sectionAt road (p_s cur))) as [node|].
  - cbv zeta. destruct (Js.gtb _ EPS) eqn:Ew.
    + destruct (active st); cbn [negb active]; discriminate.
    + apply gtb_false_iff in Ew.
      destruct (active st); cbn [active prevWidth]; intros _; exact Ew.
  - destruct (active st) eqn:Ea; cbn [active prevWidth]; [lra|].
    intros _. now apply Hst.
Qed.

Lemma trackLoop_idle {C : Type} (road : Road) (projector : R * R -> C)
  (track : Track) (samples : list Sample) :
  forall (prev : option Sample) (st : State C),
    (active st = false -> prevWidth st <= EPS) ->
    active (trackLoop road projector track prev samples st) = false ->
    prevWidth (trackLoop road projector track prev samples st) <= EPS.
Proof.
  induction samples as [|cur rest IH]; intros prev st Hst; cbn [trackLoop].
  - exact Hst.
  - apply IH. now apply trackStep_idle.
Qed.

Lemma reached_idle {C : Type} (road : Road) (projector : R * R -> C)
  (track : Track) (samples : list Sample) :
  let st : State C := trackLoop road projector track None samples initial in
  active st = false -> prevWidth st <= EPS.
Proof.
  cbv zeta. apply trackLoop_idle. intros _. cbn [initial prevWidth].
  pose proof EPS_pos. lra.
Qed.

(** While no run is open, the two boundaries under construction are
    empty. *)
Lemma trackStep_empty {C : Type} (road : Road) (projector : R * R -> C)
  (track : Track) (prev : option Sample) (cur : Sample) (st : State C) :
  (active st = false -> runOuter st = [] /\ runInner st = []) ->
  active (trackStep road projector track prev cur st) = false ->
  runOuter (trackStep road projector track prev cur st) = []
  /\ runInner (trackStep road projector track prev cur st) = [].
Proof.
  intros Hst. unfold trackStep.
  destruct (nodeAt track (sectionAt road (p_s cur))) as [node|].
  - cbv zeta. destruct (Js.gtb _ EPS).
    + destruct (active st); cbn [negb active]; discriminate.
    + destruct (active st) eqn:Ea; cbn [active runOuter runInner]; intros _;
        [now split|now apply Hst].
  - destruct (active st) eqn:Ea; cbn [active runOuter runInner]; intros H;
      [now split|now apply Hst].
Qed.

Lemma trackLoop_empty {C : Type} (road : Road) (projector : R * R -> C)
  (track : Track) (samples : list Sample) :
  forall (prev : option Sample) (st : State C),
    (active st = false -> runOuter st = [] /\ runInner st = []) ->
    active (trackLoop road projector track prev samples st) = false ->
    runOuter (trackLoop road projector track prev samples st) = []
    /\ runInner (trackLoop road projector track prev samples st) = [].
Proof.
  induction samples as [|cur rest IH]; intros prev st Hst; cbn [trackLoop].
  - exact Hst.
  - apply IH. now apply trackStep_empty.
Qed.

Lemma last_cons_default {A : Type} (l : list A) :
  forall x d : A, last (x :: l) d = last l x.
Proof.
  induction l as [|y l IH]; intros x d; [reflexivity|].
  change (last (x :: y :: l) d) with (last (y :: l) d).
  rewrite (IH y d), (IH y x). reflexivity.
Qed.

(** The loop over a list of samples that ends with [p], and what is left
    of the loop after it. *)
Lemma trackLoop_snoc {C : Type} (road : Road) (projector : R * R -> C)
  (track : Track) (pre : list Sample) (p : Sample) :
  forall (prev : option Sample) (st : State C),
    trackLoop road projector track prev (pre ++ [p]) st
    = trackStep road projector track (last (map Some pre) prev) p
        (trackLoop road projector track prev pre st).
Proof.
  induction pre as [|a pre IH]; intros prev st; [reflexivity|].
  cbn [app trackLoop map]. rewrite IH. f_equal.
  symmetry. apply last_cons_default.
Qed.

Lemma trackLoop_app {C : Type} (road : Road) (projector : R * R -> C)
  (track : Track) (pre : list Sample) (p : Sample) (rest : list Sample) :
  forall (prev : option Sample) (st : State C),
    trackLoop road projector track prev (pre ++ p :: rest) st
    = trackLoop road projector track (Some p) rest
        (trackLoop road projector track prev (pre ++ [p]) st).
Proof.
  induction pre as [|a pre IH]; intros prev st; [reflexivity|].
  cbn [app trackLoop]. apply IH.
Qed.

(** After a sample at which the track has a lane, the state remembers the
    width of the lane there, and a run is open exactly when that width
    exceeds the threshold. *)
Lemma trackStep_node {C : Type} (road : Road) (projector : R * R -> C)
  (track : Track) (prev : option Sample) (cur : Sample) (st : State C)
  (node : TrackNode) :
  nodeAt track (sectionAt road (p_s cur)) = Some node ->
  let w := widthAt (t_side track) (sectionAt road (p_s cur)) (n_id node) (p_s cur) in
  prevWidth (trackStep road projector track prev cur st) = w
  /\ active (trackStep road projector track prev cur st) = Js.gtb w EPS.
Proof.
  intros Hnode. cbv zeta. unfold trackStep. rewrite Hnode. cbv zeta.
  destruct (Js.gtb _ EPS); destruct (active st); cbn [negb prevWidth active];
    split; reflexivity.
Qed.

End LaneFacts.

(** ** The builder on a lane that widens from 0 *)

Module WedgeExample.
Import Geometry OpenDrive LaneBuilder.

Lemma wedge_sectionAt (s : R) : sectionAt wedgeRoad s = Some (0%nat, wedgeSection).
Proof.
  unfold sectionAt, wedgeRoad, indexed. cbn [laneSections List.length seq combine fold_left snd].
  now destruct (Js.geb _ _).
Qed.

Lemma wedge_nodeAt (s : R) : nodeAt wedgeTrack (sectionAt wedgeRoad s) = Some (mkNode 0 1).
Proof. rewrite wedge_sectionAt. reflexivity. Qed.

Lemma wedge_widthAt (s : R) : widthAt left (Some (0%nat, wedgeSection)) 1 s = s.
Proof.
  unfold widthAt, findLane, lanesOf, wedgeSection, startOf, laneWidthAt.
  cbn [s_left find l_id]. js_decide. cbn [l_widths fold_left s_s].
  destruct (Js.geb _ _); cbn [w_sOffset w_a w_b w_c w_d]; lra.
Qed.

Lemma wedge_outerAt (s : R) : outerAt wedgeRoad left (Some (0%nat, wedgeSection)) 1 s = s.
Proof.
  unfold outerAt, lanesOf, wedgeSection, startOf, laneWidthAt, laneOffsetAt, wedgeRoad.
  cbn [s_left fold_left l_id laneOffsets l_widths s_s]. js_decide.
  destruct (Js.geb _ _); cbn [w_sOffset w_a w_b w_c w_d]; lra.
Qed.

Lemma wedge_laneWidthOn (s : R) : laneWidthOn wedgeRoad wedgeTrack s = Some s.
Proof.
  unfold laneWidthOn. rewrite wedge_nodeAt, wedge_sectionAt.
  cbn [t_side wedgeTrack n_id]. now rewrite wedge_widthAt.
Qed.

Lemma wedge_step0 :
  trackStep wedgeRoad idProj wedgeTrack None (mkSample 0 0 0 0) initial
  = mkState [] [] false 0 None [].
Proof.
  unfold trackStep. rewrite wedge_nodeAt, wedge_sectionAt. cbv zeta.
  cbn [t_side wedgeTrack n_id p_s]. rewrite wedge_widthAt.
  unfold EPS. js_decide. reflexivity.
Qed.

Lemma wedge_step1 :
  exists bO bI pO pI ty,
  trackStep wedgeRoad idProj wedgeTrack (Some (mkSample 0 0 0 0)) (mkSample 1 0 0 1)
    (mkState [] [] false 0 None [])
  = mkState [bO; pO] [bI; pI] true 1 ty [].
Proof.
  unfold trackStep. rewrite wedge_nodeAt, wedge_sectionAt. cbv zeta.
  cbn [t_side wedgeTrack n_id p_s]. rewrite wedge_widthAt.
  unfold EPS. js_decide. cbn [active negb prevWidth]. js_decide.
  cbn [runOuter runInner fst snd app features]. 
  do 5 eexists. reflexivity.
Qed.

Lemma wedge_step2 bO bI pO pI ty :
  exists o i,
  trackStep wedgeRoad idProj wedgeTrack (Some (mkSample 1 0 0 1)) (mkSample 2 0 0 2)
    (mkState [bO; pO] [bI; pI] true 1 ty [])
  = mkState [bO; pO; offsetPoint (mkSample 2 0 0 2) o]
      [bI; pI; offsetPoint (mkSample 2 0 0 2) i] true 2 ty [].
Proof.
  unfold trackStep. rewrite wedge_nodeAt, wedge_sectionAt. cbv zeta.
  cbn [t_side wedgeTrack n_id p_s]. rewrite wedge_widthAt.
  unfold EPS. js_decide. cbn [active negb prevWidth].
  cbn [runOuter runInner fst snd app features].
  do 2 eexists. reflexivity.
Qed.

(** the run of the wedge ends at the last sample *)
Lemma wedge_runs :
  exists f,
    buildLaneRunsTrack wedgeRoad idProj wedgeSamples wedgeTrack = [f]
    /\ p_s1 (pg_properties f) = 2.
Proof.
  unfold buildLaneRunsTrack, wedgeSamples. cbn [trackLoop].
  rewrite wedge_step0.
  destruct wedge_step1 as (bO & bI & pO & pI & ty & E1). rewrite E1.
  destruct (wedge_step2 bO bI pO pI ty) as (o & i & E2). rewrite E2.
  cbv zeta. cbn [active runOuter runInner features]. unfold pushRun.
  cbn [List.length Nat.leb andb app]. eexists. split; reflexivity.
Qed.

End WedgeExample.


(** ** C9: the winding of lane-run polygons *)



(** ** C5: runs open and close at the threshold *)

Module ThresholdFacts.
Import Geometry OpenDrive LaneBuilder.

(** the linear interpolation of the widths meets the threshold at the
    crossing parameter *)
Lemma crossing_width (w0 w : R) :
  w <> w0 -> w0 + crossing w0 w * (w - w0) = EPS.
Proof.
  intros H. unfold crossing.
  rewrite (proj2 (eqb_false_iff _ _)) by lra. field. lra.
Qed.

Lemma crossing_up (w0 w : R) :
  w0 <= EPS -> EPS < w -> 0 <= crossing w0 w < 1.
Proof.
  intros H0 H1. unfold crossing.
  rewrite (proj2 (eqb_false_iff _ _)) by lra.
  split.
  - apply Rmult_le_pos; [lra|]. left. apply Rinv_0_lt_compat. lra.
  - apply (Rmult_lt_reg_r (w - w0)); [lra|]. field_simplify; lra.
Qed.

Lemma crossing_down (w0 w : R) :
  w <= EPS -> EPS < w0 -> 0 < crossing w0 w <= 1.
Proof.
  intros H0 H1. unfold crossing.
  rewrite (proj2 (eqb_false_iff _ _)) by lra.
  replace ((EPS - w0) / (w - w0)) with ((w0 - EPS) / (w0 - w)) by (field; lra).
  split.
  - apply Rmult_lt_0_compat; [lra|]. apply Rinv_0_lt_compat. lra.
  - apply (Rmult_le_reg_r (w0 - w)); [lra|]. field_simplify; lra.
Qed.

End ThresholdFacts.

(** C5, as stated, fails: on the lane that widens linearly from 0, sampled
    at the arc lengths 0, 1 and 2, the only run ends at the last sample,
    where the lane is 2 wide, 400 times the threshold. *)
Lemma lane_run_threshold_counterexample :
  exists f,
    LaneBuilder.buildLaneRunsTrack LaneBuilder.wedgeRoad LaneBuilder.idProj
      LaneBuilder.wedgeSamples LaneBuilder.wedgeTrack = [f]
    /\ LaneBuilder.p_s1 (Geometry.pg_properties f) = 2
    /\ LaneBuilder.laneWidthOn LaneBuilder.wedgeRoad LaneBuilder.wedgeTrack 2 = Some 2
    /\ 2 * LaneBuilder.EPS <= 2.
Proof.
  destruct WedgeExample.wedge_runs as [f [E Hs]].
  exists f. split; [exact E|]. split; [exact Hs|].
  split; [apply WedgeExample.wedge_laneWidthOn|].
  unfold LaneBuilder.EPS. lra.
Qed.

(** C5 (amended): let [p] and [cur] be consecutive samples at both of which
    the track has a lane, of widths [w0] and [w].  When the loop reaches
    [cur], the width it remembers is [w0], and a run is open exactly when
    [w0 > EPS]; after [cur] a run is open exactly when [w > EPS].  When the
    width crosses [EPS] between the two samples, upwards ([w0 <= EPS < w],
    the run opens) or downwards ([w <= EPS < w0], the run closes), one pair
    of boundary points is pushed, over the point between [p] and [cur] at
    the parameter [t = (EPS - w0) / (w - w0)], with [0 <= t < 1] upwards and
    [0 < t <= 1] downwards: there the width interpolated linearly between
    [w0] and [w] is [EPS], the inner point lies exactly [EPS] from the
    outer one, and when the width of the lane is linear in the arc length
    between the two samples, the width of the lane at the pair is [EPS].
    A run that is open at the first sample starts there, at a sample where
    the lane is wider than [EPS]. *)
Theorem lane_run_threshold {C : Type} (road : LaneBuilder.Road)
  (projector : R * R -> C) (track : LaneBuilder.Track)
  (pre : list Geometry.Sample) (p cur : Geometry.Sample) (w0 w : R) :
  LaneBuilder.laneWidthOn road track (Geometry.p_s p) = Some w0 ->
  LaneBuilder.laneWidthOn road track (Geometry.p_s cur) = Some w ->
  let side := LaneBuilder.t_side track in
  let st := LaneBuilder.trackLoop road projector track None (pre ++ [p])
              LaneBuilder.initial in
  let st' := LaneBuilder.trackStep road projector track (Some p) cur st in
  let t := (LaneBuilder.EPS - w0) / (w - w0) in
  let sb := Geometry.p_s p + (Geometry.p_s cur - Geometry.p_s p) * t in
  let crossed := fun bO bI : Geometry.Sample =>
    (exists c off,
        LaneBuilder.betweenAt p cur t c /\ LaneBuilder.lateralAt c off bO
        /\ LaneBuilder.lateralAt c (LaneBuilder.innerOf side off LaneBuilder.EPS) bI)
    /\ Geometry.p_s bO = sb /\ Geometry.p_s bI = sb
    /\ (Geometry.p_x bO - Geometry.p_x bI) * (Geometry.p_x bO - Geometry.p_x bI)
       + (Geometry.p_y bO - Geometry.p_y bI) * (Geometry.p_y bO - Geometry.p_y bI)
       = LaneBuilder.EPS * LaneBuilder.EPS in
  (forall post,
      LaneBuilder.trackLoop road projector track None (pre ++ p :: cur :: post)
        LaneBuilder.initial
      = LaneBuilder.trackLoop road projector track (Some cur) post st')
  /\ LaneBuilder.prevWidth st = w0
  /\ (LaneBuilder.active st = true <-> LaneBuilder.EPS < w0)
  /\ (LaneBuilder.active st' = true <-> LaneBuilder.EPS < w)
  /\ (w0 <= LaneBuilder.EPS -> LaneBuilder.EPS < w ->
      0 <= t < 1 /\ w0 + t * (w - w0) = LaneBuilder.EPS
      /\ exists bO bI pO pI,
           LaneBuilder.runOuter st' = [bO; pO]
           /\ LaneBuilder.runInner st' = [bI; pI]
           /\ crossed bO bI
           /\ Geometry.p_s pO = Geometry.p_s cur
           /\ Geometry.p_s pI = Geometry.p_s cur)
  /\ (LaneBuilder.EPS < w0 -> w <= LaneBuilder.EPS ->
      0 < t <= 1 /\ w0 + t * (w - w0) = LaneBuilder.EPS
      /\ LaneBuilder.runOuter st' = [] /\ LaneBuilder.runInner st' = []
      /\ exists bO bI laneId laneType,
           LaneBuilder.features st'
           = LaneBuilder.pushRun road projector side laneId laneType
               (LaneBuilder.runOuter st ++ [bO])
               (LaneBuilder.runInner st ++ [bI]) (LaneBuilder.features st)
           /\ crossed bO bI)
  /\ ((forall u, 0 <= u <= 1 ->
         LaneBuilder.laneWidthOn road track
           (Geometry.p_s p + (Geometry.p_s cur - Geometry.p_s p) * u)
         = Some (w0 + u * (w - w0))) ->
      (w0 <= LaneBuilder.EPS < w \/ w <= LaneBuilder.EPS < w0) ->
      LaneBuilder.laneWidthOn road track sb = Some LaneBuilder.EPS)
  /\ (pre = [] -> LaneBuilder.EPS < w0 ->
      exists pO pI,
        LaneBuilder.runOuter st = [pO] /\ LaneBuilder.runInner st = [pI]
        /\ Geometry.p_s pO = Geometry.p_s p /\ Geometry.p_s pI = Geometry.p_s p).
Proof.
  intros Hw0 Hw. cbv zeta.
  pose proof LaneFacts.EPS_pos as He.
  unfold LaneBuilder.laneWidthOn in Hw0, Hw.
  destruct (LaneBuilder.nodeAt track (LaneBuilder.sectionAt road (Geometry.p_s p)))
    as [n0|] eqn:En0; [|discriminate].
  destruct (LaneBuilder.nodeAt track (LaneBuilder.sectionAt road (Geometry.p_s cur)))
    as [node|] eqn:En; [|discriminate].
  injection Hw0 as Hw0. injection Hw as Hw.
  set (st := LaneBuilder.trackLoop road projector track None (pre ++ [p])
               LaneBuilder.initial).
  assert (Est : st = LaneBuilder.trackStep road projector track
                       (last (map Some pre) None) p
                       (LaneBuilder.trackLoop road projector track None pre
                          LaneBuilder.initial))
    by apply LaneFacts.trackLoop_snoc.
  destruct (LaneFacts.trackStep_node road projector track
              (last (map Some pre) None) p
              (LaneBuilder.trackLoop road projector track None pre LaneBuilder.initial)
              n0 En0) as [Hpw Hact].
  cbv zeta in Hpw, Hact. rewrite <- Est, Hw0 in Hpw, Hact.
  assert (Hidle : LaneBuilder.active st = false ->
                  LaneBuilder.runOuter st = [] /\ LaneBuilder.runInner st = []).
  { apply LaneFacts.trackLoop_empty. intros _. now split. }
  assert (Hbefore : LaneBuilder.widthBefore road track node p = w0).
  { unfold LaneBuilder.widthBefore, LaneBuilder.nodeBefore. now rewrite En0. }
  destruct (LaneFacts.trackStep_node road projector track (Some p) cur st node En)
    as [_ Hact']. cbv zeta in Hact'. rewrite Hw in Hact'.
  assert (Hcross : forall outer,
             w <> w0 ->
             let b := LaneBuilder.boundaryPair road track node p cur w outer in
             (exists c off,
                 LaneBuilder.betweenAt p cur ((LaneBuilder.EPS - w0) / (w - w0)) c
                 /\ LaneBuilder.lateralAt c off (fst b)
                 /\ LaneBuilder.lateralAt c
                      (LaneBuilder.innerOf (LaneBuilder.t_side track) off
                         LaneBuilder.EPS) (snd b))
             /\ Geometry.p_s (fst b)
                = Geometry.p_s p + (Geometry.p_s cur - Geometry.p_s p)
                                   * ((LaneBuilder.EPS - w0) / (w - w0))
             /\ Geometry.p_s (snd b)
                = Geometry.p_s p + (Geometry.p_s cur - Geometry.p_s p)
                                   * ((LaneBuilder.EPS - w0) / (w - w0))
             /\ (Geometry.p_x (fst b) - Geometry.p_x (snd b))
                * (Geometry.p_x (fst b) - Geometry.p_x (snd b))
                + (Geometry.p_y (fst b) - Geometry.p_y (snd b))
                  * (Geometry.p_y (fst b) - Geometry.p_y (snd b))
                = LaneBuilder.EPS * LaneBuilder.EPS).
  { intros outer Hne. cbv zeta. unfold LaneBuilder.boundaryPair. cbv zeta.
    rewrite Hbefore. unfold LaneBuilder.crossing.
    rewrite (proj2 (eqb_false_iff _ _)) by lra. cbn [fst snd].
    split.
    { eexists _, _. split; [apply LaneFacts.between_interpPoint|].
      split; apply LaneFacts.lateral_offsetPoint. }
    split; [reflexivity|]. split; [reflexivity|].
    unfold LaneBuilder.offsetPoint. cbn [Geometry.p_x Geometry.p_y Geometry.p_th].
    set (th := Geometry.p_th _).
    pose proof (sin2_cos2 th) as Hsc. unfold Rsqr in Hsc.
    destruct (LaneBuilder.t_side track); cbn [LaneBuilder.innerOf]; nra. }
  assert (Hcw : w <> w0 ->
                w0 + (LaneBuilder.EPS - w0) / (w - w0) * (w - w0) = LaneBuilder.EPS).
  { intros Hne. field. lra. }
  split.
  { intros post. rewrite LaneFacts.trackLoop_app. reflexivity. }
  split; [exact Hpw|].
  split.
  { rewrite Hact. split; [apply gtb_true_iff|intros H; now apply gtb_true_iff]. }
  split.
  { rewrite Hact'. split; [apply gtb_true_iff|intros H; now apply gtb_true_iff]. }
  split.
  { intros H0 H1.
    assert (Ha : LaneBuilder.active st = false).
    { rewrite Hact. apply gtb_false_iff. lra. }
    destruct (Hidle Ha) as [EO EI].
    pose proof (ThresholdFacts.crossing_up w0 w H0 H1) as Ht.
    unfold LaneBuilder.crossing in Ht.
    rewrite (proj2 (eqb_false_iff _ _)) in Ht by lra.
    split; [exact Ht|]. split; [apply Hcw; lra|].
    unfold LaneBuilder.trackStep. rewrite En. cbv zeta. rewrite Hw.
    rewrite (proj2 (gtb_true_iff _ _)) by exact H1.
    rewrite Ha. cbn [negb]. rewrite Hpw.
    rewrite (proj2 (leb_true_iff _ _)) by exact H0.
    cbn [LaneBuilder.runOuter LaneBuilder.runInner fst snd].
    rewrite EO, EI. cbn [app].
    eexists _, _, _, _. split; [reflexivity|]. split; [reflexivity|].
    split; [apply Hcross; lra|]. split; reflexivity. }
  split.
  { intros H0 H1.
    assert (Ha : LaneBuilder.active st = true).
    { rewrite Hact. apply gtb_true_iff. lra. }
    pose proof (ThresholdFacts.crossing_down w0 w H1 H0) as Ht.
    unfold LaneBuilder.crossing in Ht.
    rewrite (proj2 (eqb_false_iff _ _)) in Ht by lra.
    split; [exact Ht|]. split; [apply Hcw; lra|].
    unfold LaneBuilder.trackStep. rewrite En. cbv zeta. rewrite Hw.
    rewrite (proj2 (gtb_false_iff _ _)) by exact H1.
    rewrite Ha.
    cbn [LaneBuilder.runOuter LaneBuilder.runInner LaneBuilder.features fst snd].
    split; [reflexivity|]. split; [reflexivity|].
    eexists _, _, _, _. split; [reflexivity|]. apply Hcross. lra. }
  split.
  { intros Hlin Hc.
    assert (Ht : 0 <= (LaneBuilder.EPS - w0) / (w - w0) <= 1
                 /\ w <> w0).
    { destruct Hc as [[H0 H1]|[H1 H0]].
      - pose proof (ThresholdFacts.crossing_up w0 w H0 H1) as Ht.
        unfold LaneBuilder.crossing in Ht.
        rewrite (proj2 (eqb_false_iff _ _)) in Ht by lra. split; lra.
      - pose proof (ThresholdFacts.crossing_down w0 w H1 H0) as Ht.
        unfold LaneBuilder.crossing in Ht.
        rewrite (proj2 (eqb_false_iff _ _)) in Ht by lra. split; lra. }
    destruct Ht as [Ht Hne]. rewrite (Hlin _ Ht). f_equal. now apply Hcw. }
  intros -> H0.
  unfold st. cbn [app LaneBuilder.trackLoop].
  unfold LaneBuilder.trackStep. rewrite En0. cbv zeta. rewrite Hw0.
  rewrite (proj2 (gtb_true_iff _ _)) by exact H0.
  cbn [LaneBuilder.initial LaneBuilder.active negb LaneBuilder.runOuter
         LaneBuilder.runInner fst snd app].
  eexists _, _. split; [reflexivity|]. split; [reflexivity|]. split; reflexivity.
Qed.

Lemma lane_run_threshold_witness :
  LaneBuilder.laneWidthOn LaneBuilder.wedgeRoad LaneBuilder.wedgeTrack
    (0 + (1 - 0) * ((LaneBuilder.EPS - 0) / (1 - 0)))
  = Some LaneBuilder.EPS.
Proof.
  pose proof (lane_run_threshold LaneBuilder.wedgeRoad LaneBuilder.idProj
                LaneBuilder.wedgeTrack [] (Geometry.mkSample 0 0 0 0)
                (Geometry.mkSample 1 0 0 1) 0 1
                (WedgeExample.wedge_laneWidthOn 0)
                (WedgeExample.wedge_laneWidthOn 1)) as H.
  cbv zeta in H. destruct H as (_ & _ & _ & _ & _ & _ & H & _).
  cbn [Geometry.p_s] in H. apply H.
  - intros u _. rewrite WedgeExample.wedge_laneWidthOn. f_equal. lra.
  - left. unfold LaneBuilder.EPS. lra.
Defined.


(** ** C7: export and ingest of the editor axes *)

Module PayloadFacts.
Import Editor.

Lemma map_set_fresh {V : Type} (m : JsMap V) (k : string) (v : V) :
  ~ In k (keys m) -> map_set m k v = m ++ [(k, v)].
Proof.
  induction m as [|kv m IH]; simpl; intros H; [reflexivity|].
  destruct (String.eqb (fst kv) k) eqn:E.
  - apply String.eqb_eq in E. tauto.
  - rewrite IH by tauto. reflexivity.
Qed.

Lemma map_get_app {V : Type} (m m' : JsMap V) (k : string) :
  map_get (m ++ m') k
  = match map_get m k with Some v => Some v | None => map_get m' k end.
Proof.
  unfold map_get. induction m as [|kv m IH]; simpl; [reflexivity|].
  destruct (String.eqb (fst kv) k); [reflexivity|exact IH].
Qed.

Lemma map_get_map {V W : Type} (g : string -> V -> W) (m : JsMap V) (k : string) :
  map_get (List.map (fun kv => (fst kv, g (fst kv) (snd kv))) m) k
  = match map_get m k with Some v => Some (g k v) | None => None end.
Proof.
  unfold map_get. induction m as [|kv m IH]; simpl; [reflexivity|].
  destruct (String.eqb (fst kv) k) eqn:E; [|exact IH].
  apply String.eqb_eq in E. now subst k.
Qed.

Lemma map_get_in {V : Type} (m : JsMap V) (k : string) :
  In k (keys m) -> exists v, map_get m k = Some v.
Proof.
  unfold map_get. induction m as [|kv m IH]; simpl; [tauto|].
  intros [<-|H].
  - rewrite String.eqb_refl. eauto.
  - destruct (String.eqb (fst kv) k); eauto.
Qed.

(** Ingesting records with fresh, non-empty ids appends one axis and one
    table per record. *)
Lemma ingest_fold (tbl : string -> Rounding) (l : JsMap Feature) (acc : Session) :
  NoDup (keys (roadsById acc) ++ keys l) ->
  NoDup (keys (roundingByAxis acc) ++ keys l) ->
  (forall id, In id (keys l) -> id <> EmptyString) ->
  let s' := fold_left ingestRec
              (List.map Some
                 (List.map (fun kv =>
                              mkAxisRec (Some (fst kv))
                                (Some (List.map (fun c => (fst c, snd c))
                                         (coordinates (snd kv))))
                                (Some (tbl (fst kv)))) l)) acc in
  roadsById s'
  = roadsById acc
      ++ List.map (fun kv => (fst kv, mkFeature (fst kv) (coordinates (snd kv)))) l
  /\ roundingByAxis s'
     = roundingByAxis acc ++ List.map (fun kv => (fst kv, tbl (fst kv))) l.
Proof.
  revert acc; induction l as [|kv l IH]; intros acc H1 H2 Hne; cbn [List.map fold_left].
  - now rewrite !app_nil_r.
  - assert (Hk : fst kv <> EmptyString) by (apply Hne; now left).
    assert (Hc : List.map (fun c : R * R => (fst c, snd c))
                   (List.map (fun c : R * R => (fst c, snd c)) (coordinates (snd kv)))
                 = coordinates (snd kv)).
    { rewrite map_map. rewrite <- (map_id (coordinates (snd kv))) at 2.
      apply map_ext. now intros [a b]. }
    assert (F1 : ~ In (fst kv) (keys (roadsById acc))).
    { intros Hin. apply NoDup_remove_2 in H1. apply H1, in_or_app. now left. }
    assert (F2 : ~ In (fst kv) (keys (roundingByAxis acc))).
    { intros Hin. apply NoDup_remove_2 in H2. apply H2, in_or_app. now left. }
    assert (Hstep :
             ingestRec acc
               (Some (mkAxisRec (Some (fst kv))
                        (Some (List.map (fun c => (fst c, snd c))
                                 (coordinates (snd kv))))
                        (Some (tbl (fst kv)))))
             = mkSession
                 (roadsById acc
                    ++ [(fst kv, mkFeature (fst kv) (coordinates (snd kv)))])
                 (roundingByAxis acc ++ [(fst kv, tbl (fst kv))])
                 (set_add_string (importedAxisIds acc) (fst kv)) (nextN acc)).
    { unfold ingestRec. cbn [p_coords p_id p_rounding].
      destruct (fst kv) as [|a k'] eqn:Ek; [congruence|]. rewrite <- Ek in *.
      cbn [fst snd]. rewrite Hc, !map_set_fresh by assumption. reflexivity. }
    cbv zeta. rewrite Hstep.
    match goal with |- context [fold_left ingestRec _ ?A] => specialize (IH A) end.
    cbn [roadsById roundingByAxis] in IH.
    destruct IH as [E1 E2].
    + unfold keys in *. rewrite map_app, <- app_assoc. exact H1.
    + unfold keys in *. rewrite map_app, <- app_assoc. exact H2.
    + intros id Hid. apply Hne. now right.
    + rewrite E1, E2, <- !app_assoc. split; reflexivity.
Qed.

(** *** The payload through [JSON.stringify] and [JSON.parse] *)

Lemma to_uint_nonnil (n : nat) : Nat.to_uint n <> Decimal.Nil.
Proof.
  intros H. pose proof (DecimalNat.Unsigned.to_of (Nat.to_uint n)) as T.
  rewrite DecimalNat.Unsigned.of_to, H in T. cbn in T. congruence.
Qed.

(** the key written for a vertex index reads back as this index *)
Lemma indexOfKey_decimal (n : nat) : indexOfKey (decimal n) = Some n.
Proof.
  unfold indexOfKey, decimal.
  rewrite DecimalString.NilZero.usu by apply to_uint_nonnil.
  cbv zeta. rewrite DecimalNat.Unsigned.of_to, String.eqb_refl. reflexivity.
Qed.

Lemma rounding_back (m : Rounding) :
  roundingOfJson (Some (jsonOfRounding m)) = Some m.
Proof.
  unfold jsonOfRounding. cbn [roundingOfJson]. apply f_equal.
  induction m as [|[i k] m IH]; [reflexivity|].
  cbn [List.map flat_map fst snd]. rewrite indexOfKey_decimal, IH. reflexivity.
Qed.

Lemma coords_back (coords : list (R * R)) :
  coordsOfJson (List.map jsonOfPair coords) = Some coords.
Proof.
  unfold coordsOfJson.
  induction coords as [|[a b] l IH]; [reflexivity|].
  cbn [List.map fold_right]. rewrite IH. reflexivity.
Qed.

Lemma view_back (b : BlobRec) :
  viewOfJson (jsonOfRec b)
  = Some (Some (mkAxisRec (Some (b_id b)) (Some (b_coords b)) (Some (b_rounding b)))).
Proof.
  unfold viewOfJson, jsonOfRec.
  change (field _ "coords") with (Some (JArr (List.map jsonOfPair (b_coords b)))).
  change (field _ "id") with (Some (JStr (b_id b))).
  change (field _ "rounding") with (Some (jsonOfRounding (b_rounding b))).
  cbn [idOfJson]. now rewrite coords_back, rounding_back.
Qed.

Lemma views_back (blob : list BlobRec) :
  viewsOfJson (List.map jsonOfRec blob)
  = Some (List.map
            (fun b => Some (mkAxisRec (Some (b_id b)) (Some (b_coords b))
                              (Some (b_rounding b))))
            blob).
Proof.
  unfold viewsOfJson.
  induction blob as [|b l IH]; [reflexivity|].
  cbn [List.map fold_right]. rewrite view_back, IH. reflexivity.
Qed.

(** what the ingest of the exported block leaves in the registries *)
Lemma reingest_registries (s : Session) :
  NoDup (keys (roadsById s)) ->
  (forall id, In id (keys (roadsById s)) -> id <> EmptyString) ->
  exists s',
    reingest s = Some s'
    /\ roadsById s'
       = List.map (fun kv => (fst kv, mkFeature (fst kv) (coordinates (snd kv))))
           (roadsById s)
    /\ roundingByAxis s'
       = List.map (fun kv => (fst kv, tableOf s (fst kv))) (roadsById s).
Proof.
  intros Hnd Hne.
  destruct (ingest_fold (tableOf s) (roadsById s) (mkSession [] [] [] (nextN s)))
    as [E1 E2]; try assumption.
  cbv zeta in E1, E2. cbn [roadsById roundingByAxis app] in E1, E2.
  eexists. split; [|split; [exact E1|exact E2]].
  unfold reingest, readEditorAxes, editorAxesBlock, stringify, editorIngestEditorAxes.
  cbv zeta. rewrite views_back. f_equal. f_equal.
  unfold axesBlob. rewrite !map_map. reflexivity.
Qed.

Lemma table_back (s : Session) (id : string) :
  In id (keys (roadsById s)) ->
  map_get (List.map (fun kv : string * Feature => (fst kv, tableOf s (fst kv)))
             (roadsById s)) id
  = Some (tableOf s id).
Proof.
  intros Hid. rewrite (map_get_map (fun k _ => tableOf s k)).
  destruct (map_get_in _ _ Hid) as [f ->]. reflexivity.
Qed.

End PayloadFacts.

(** C7, as stated, fails: the axis [axis_2] has no rounding table before
    the export, and an empty one after the ingest of the exported block:
    the registry of tables is not what it was. *)
Lemma export_ingest_roundtrip_counterexample :
  exists s',
    Editor.reingest Editor.twoAxes = Some s'
    /\ Editor.map_get (Editor.roundingByAxis Editor.twoAxes) "axis_2" = None
    /\ Editor.map_get (Editor.roundingByAxis s') "axis_2" = Some [].
Proof.
  destruct (PayloadFacts.reingest_registries Editor.twoAxes) as (s' & E & _ & E2).
  - repeat constructor; simpl; intuition discriminate.
  - simpl. intros id [<-|[<-|[]]]; discriminate.
  - exists s'. split; [exact E|]. split; [reflexivity|].
    rewrite E2. reflexivity.
Qed.

(** C7 (amended): the axes written into the [editorAxes] block of the
    export and ingested from it again come back in their order, each with
    its vertex coordinates, and the rounding factor read for every vertex
    of every axis is what it was; the table of an axis comes back as it was
    written, and an axis that had no table has an empty one afterwards.
    Keys of [roadsById] are distinct, as in any [Map], and no axis id is the
    empty string. *)
Theorem export_ingest_roundtrip (s : Editor.Session) :
  NoDup (Editor.keys (Editor.roadsById s)) ->
  (forall id, In id (Editor.keys (Editor.roadsById s)) -> id <> EmptyString) ->
  exists s',
    Editor.editorIngestEditorAxes s
      (Editor.readEditorAxes (Editor.stringify (Editor.axesBlob s))) = Some s'
    /\ List.map (fun kv => (fst kv, Editor.coordinates (snd kv))) (Editor.roadsById s')
       = List.map (fun kv => (fst kv, Editor.coordinates (snd kv))) (Editor.roadsById s)
    /\ (forall id, In id (Editor.keys (Editor.roadsById s)) ->
          Editor.map_get (Editor.roundingByAxis s') id = Some (Editor.tableOf s id))
    /\ (forall id idx, In id (Editor.keys (Editor.roadsById s)) ->
          Editor.getRoundK (Editor.roundingByAxis s') id idx
          = Editor.getRoundK (Editor.roundingByAxis s) id idx).
Proof.
  intros Hnd Hne.
  destruct (PayloadFacts.reingest_registries s Hnd Hne) as (s' & E & E1 & E2).
  exists s'. split; [exact E|]. rewrite E1, E2. split; [|split].
  - rewrite map_map. reflexivity.
  - apply PayloadFacts.table_back.
  - intros id idx Hid. unfold Editor.getRoundK at 1.
    rewrite (PayloadFacts.table_back s id Hid).
    unfold Editor.getRoundK, Editor.tableOf.
    destruct (Editor.map_get (Editor.roundingByAxis s) id); reflexivity.
Qed.

Lemma export_ingest_roundtrip_witness :
  exists s',
    Editor.editorIngestEditorAxes Editor.twoAxes
      (Editor.readEditorAxes (Editor.stringify (Editor.axesBlob Editor.twoAxes)))
    = Some s'
    /\ List.map (fun kv => (fst kv, Editor.coordinates (snd kv))) (Editor.roadsById s')
       = List.map (fun kv => (fst kv, Editor.coordinates (snd kv)))
           (Editor.roadsById Editor.twoAxes).
Proof.
  destruct (export_ingest_roundtrip Editor.twoAxes) as (s' & E & H & _).
  - repeat constructor; simpl; intuition discriminate.
  - simpl. intros id [<-|[<-|[]]]; discriminate.
  - exists s'. split; assumption.
Defined.

(** ** Corner rounding *)

Module RoundingFacts.
Import Editor.

Lemma hypot_nonneg (a b : R) : 0 <= Js.hypot a b.
Proof. unfold Js.hypot. apply sqrt_pos. Qed.

Lemma len_nonneg (v : Pt) : 0 <= len v.
Proof. apply hypot_nonneg. Qed.

Lemma len_eval (a b L : R) : 0 <= L -> a * a + b * b = L * L -> len (mkPt a b) = L.
Proof.
  intros HL E. unfold len, Js.hypot. cbn [x y]. rewrite E. now apply sqrt_square.
Qed.

Lemma norm_eval (a b L : R) :
  1e-9 < L -> a * a + b * b = L * L -> norm (mkPt a b) = mkPt (a / L) (b / L).
Proof.
  intros HL E. unfold norm. rewrite (len_eval a b L) by (lra || assumption).
  rewrite (proj2 (gtb_true_iff _ _)) by lra. reflexivity.
Qed.

(** the tangent length is at least the floor 1, and at most the larger of
    the floor and 0.49 times the shorter adjacent edge *)
Lemma clampTangent_bounds (map : MapView) (rounding : JsMap Rounding)
  (feat : Feature) (n i : nat) (l1 l2 t_goal : R) :
  0 <= l1 -> 0 <= l2 ->
  1 <= clampTangent map rounding feat n i l1 l2 t_goal
  <= Rmax 1 (0.49 * Rmin l1 l2).
Proof.
  intros H1 H2. unfold clampTangent. cbv zeta. unfold Js.max, Js.min.
  match goal with
  | |- context [Rmin (0.49 * Rmin l1 l2) ?a] => generalize a
  end.
  intros adj. set (base := 0.49 * Rmin l1 l2).
  assert (Hb : 0 <= base).
  { unfold base. apply Rmult_le_pos; [lra|]. now apply Rmin_glb. }
  assert (Hm : Rmax 0 (Rmin base adj) <= base).
  { apply Rmax_lub; [exact Hb|apply Rmin_l]. }
  pose proof (Rmax_l 1.0 (Rmin t_goal (Rmax 0 (Rmin base adj)))) as Hl.
  split; [lra|].
  apply Rmax_lub; [pose proof (Rmax_l 1 base); lra|].
  eapply Rle_trans; [apply Rmin_r|].
  eapply Rle_trans; [exact Hm|apply Rmax_r].
Qed.

(** the floor comes after the clamp by [t_max] *)
Lemma clampTangent_tmax (map : MapView) (rounding : JsMap Rounding)
  (feat : Feature) (n i : nat) (l1 l2 t_goal : R) :
  let t_prevN := if (1 <=? i - 1)%nat
                 then tangentLengthAtLL map rounding (f_id feat) (coordinates feat) (i - 1)
                 else 0 in
  let t_nextN := if (i + 1 <=? n - 2)%nat
                 then tangentLengthAtLL map rounding (f_id feat) (coordinates feat) (i + 1)
                 else 0 in
  let t_max := Js.max 0 (Js.min (0.49 * Js.min l1 l2)
                           (Js.max 0 (Js.min (l1 - t_prevN) (l2 - t_nextN)))) in
  clampTangent map rounding feat n i l1 l2 t_goal = Js.max 1 (Js.min t_goal t_max).
Proof. cbv zeta. unfold clampTangent. cbv zeta. f_equal. lra. Qed.

(** with target 0 the tangent length is the floor *)
Lemma clampTangent_zero (map : MapView) (rounding : JsMap Rounding)
  (feat : Feature) (n i : nat) (l1 l2 : R) :
  clampTangent map rounding feat n i l1 l2 0 = 1.
Proof.
  unfold clampTangent. cbv zeta. unfold Js.max, Js.min.
  match goal with
  | |- context [Rmin 0 ?a] => generalize (Rmax_l 0 (Rmin (0.49 * Rmin l1 l2)
       (Rmax 0 (Rmin (l1 - (if (1 <=? i - 1)%nat
                  then tangentLengthAtLL map rounding (f_id feat) (coordinates feat) (i - 1)
                  else 0))
                 (l2 - (if (i + 1 <=? n - 2)%nat
                  then tangentLengthAtLL map rounding (f_id feat) (coordinates feat) (i + 1)
                  else 0)))))); generalize a
  end.
  intros tmax H. rewrite (Rmin_left 0 tmax) by exact H.
  rewrite Rmax_left by lra. lra.
Qed.

Lemma arcPoints_hd (map : MapView) (P1 v0 v1 : Pt) (turn t tanHalf : R) :
  hd_error (arcPoints map P1 v0 v1 turn t tanHalf)
  = Some (toLL map (add P1 (mul v0 (- t)))).
Proof. reflexivity. Qed.

Lemma arcPoints_length (map : MapView) (P1 v0 v1 : Pt) (turn t tanHalf : R) :
  (3 <= List.length (arcPoints map P1 v0 v1 turn t tanHalf))%nat.
Proof.
  unfold arcPoints. cbv zeta. rewrite !length_app, length_map, length_seq.
  cbn [List.length].
  match goal with |- context [Z.max 2 ?z] => generalize z end. intros z. lia.
Qed.

(** the outcome at an internal vertex, with the local quantities named *)
Lemma corner_cases (map : MapView) (rounding : JsMap Rounding)
  (feat : Feature) (px : list Pt) (i : nat) :
  let P0 := at_ px (i - 1) in
  let P1 := at_ px i in
  let P2 := at_ px (i + 1) in
  let v0 := norm (sub P1 P0) in
  let v1 := norm (sub P2 P1) in
  let l1 := len (sub P1 P0) in
  let l2 := len (sub P2 P1) in
  let alpha := acos (Js.max (-1) (Js.min 1 (dot v0 v1))) in
  let turn := Js.sign (crossZ v0 v1) in
  let tanHalf := tan (alpha / 2) in
  let k := getRoundK rounding (f_id feat) i in
  let t_goal := Js.max 0 (Js.min 1 k) * Js.min l1 l2 / alpha * tanHalf in
  let t := clampTangent map rounding feat (List.length px) i l1 l2 t_goal in
  ((alpha < 1e-3 \/ turn = 0 \/ tanHalf <= 1e-6)
   /\ corner map rounding feat px i = Kept)
  \/ (1e-3 <= alpha /\ turn <> 0 /\ 1e-6 < tanHalf
      /\ corner map rounding feat px i
         = Rounded t (arcPoints map P1 v0 v1 turn t tanHalf)).
Proof.
  cbv zeta. unfold corner. cbv zeta.
  destruct (Js.ltb _ 1e-3) eqn:Ea.
  { left. apply ltb_true_iff in Ea. split; [now left|reflexivity]. }
  destruct (Js.eqb _ 0) eqn:Et.
  { left. apply eqb_true_iff in Et. split; [right; now left|reflexivity]. }
  cbn [orb].
  destruct (Js.leb _ 1e-6) eqn:Eh.
  { left. apply leb_true_iff in Eh. split; [right; now right|reflexivity]. }
  right. apply ltb_false_iff in Ea. apply eqb_false_iff in Et.
  apply leb_false_iff in Eh. repeat split; assumption.
Qed.

End RoundingFacts.

(** ** C10: the endpoints of a rounded axis *)

Module EndpointFacts.
Import Editor.

Lemma at_map (map : MapView) (coords : list (R * R)) (i : nat) (d : R * R) :
  (i < List.length coords)%nat ->
  at_ (List.map (toPx map) coords) i = toPx map (nth i coords d).
Proof.
  intros H. unfold at_.
  rewrite (nth_indep _ (mkPt 0 0) (toPx map d)) by (rewrite length_map; exact H).
  apply map_nth.
Qed.

Lemma hd_error_rev_snoc {A : Type} (l : list A) (a : A) :
  hd_error (rev (l ++ [a])) = Some a.
Proof. now rewrite rev_app_distr. Qed.

Lemma hd_error_rev_nth {A : Type} (l : list A) (d : A) :
  l <> [] -> hd_error (rev l) = Some (nth (List.length l - 1) l d).
Proof.
  destruct l as [|a l] using rev_ind; [congruence|intros _].
  rewrite hd_error_rev_snoc, length_app. cbn [List.length].
  rewrite app_nth2 by lia.
  replace (List.length l + 1 - 1 - List.length l)%nat with 0%nat by lia.
  reflexivity.
Qed.

End EndpointFacts.

(** C10: for an axis with at least two vertices, whatever the rounding
    factors, the rounded polyline starts at the first input point and ends
    at the last one: as they are for two vertices, sent to the screen and
    back ([toLL(toPx(c))]) for three or more; where that round trip is
    exact, the endpoints are the input's own. *)
Theorem axis_endpoints (map : Editor.MapView)
  (rounding : Editor.JsMap Editor.Rounding) (feat : Editor.Feature) :
  (2 <= List.length (Editor.coordinates feat))%nat ->
  let coords := Editor.coordinates feat in
  let out := Editor.smoothAxisCoords map rounding feat in
  exists first final,
    hd_error coords = Some first /\ hd_error (rev coords) = Some final
    /\ hd_error out
       = Some (if (List.length coords <=? 2)%nat then first
               else Editor.roundTrip map first)
    /\ hd_error (rev out)
       = Some (if (List.length coords <=? 2)%nat then final
               else Editor.roundTrip map final)
    /\ ((forall c, In c coords -> Editor.roundTrip map c = c) ->
        hd_error out = hd_error coords
        /\ hd_error (rev out) = hd_error (rev coords)).
Proof.
  intros Hlen. cbv zeta. unfold Editor.smoothAxisCoords. cbv zeta.
  destruct (Editor.coordinates feat) as [|c0 rest] eqn:Ec; [simpl in Hlen; lia|].
  set (coords := c0 :: rest) in *.
  assert (Hne : coords <> []) by (unfold coords; discriminate).
  pose proof (EndpointFacts.hd_error_rev_nth coords (0, 0) Hne) as Hlast.
  exists c0, (nth (List.length coords - 1) coords (0, 0)).
  split; [reflexivity|]. split; [exact Hlast|].
  destruct (List.length coords <=? 2)%nat eqn:E.
  - split; [reflexivity|]. split; [exact Hlast|]. intros _. split; reflexivity.
  - apply Nat.leb_gt in E.
    assert (H0 : Editor.toLL map (Editor.at_ (List.map (Editor.toPx map) coords) 0)
                 = Editor.roundTrip map c0).
    { rewrite (EndpointFacts.at_map map coords 0 (0, 0)) by lia. reflexivity. }
    assert (H1 : Editor.toLL map
                   (Editor.at_ (List.map (Editor.toPx map) coords)
                      (List.length (List.map (Editor.toPx map) coords) - 1))
                 = Editor.roundTrip map (nth (List.length coords - 1) coords (0, 0))).
    { rewrite length_map.
      rewrite (EndpointFacts.at_map map coords _ (0, 0)) by lia. reflexivity. }
    rewrite H0, H1.
    assert (G1 : forall mid z,
               hd_error ([Editor.roundTrip map c0] ++ mid ++ [z])
               = Some (Editor.roundTrip map c0)) by reflexivity.
    assert (G2 : forall (a : R * R) mid z, hd_error (rev ([a] ++ mid ++ [z])) = Some z).
    { intros a mid z. rewrite app_assoc. apply EndpointFacts.hd_error_rev_snoc. }
    rewrite G1, G2. split; [reflexivity|]. split; [reflexivity|].
    intros Hrt. rewrite !Hrt.
    + split; [reflexivity|]. symmetry. exact Hlast.
    + apply nth_In. lia.
    + now left.
Qed.

Lemma axis_endpoints_witness :
  exists first final,
    hd_error (Editor.coordinates Editor.cornerAxis) = Some first
    /\ hd_error (rev (Editor.coordinates Editor.cornerAxis)) = Some final
    /\ hd_error (Editor.smoothAxisCoords Editor.idMap Editor.cornerRounding
                   Editor.cornerAxis)
       = Some (Editor.roundTrip Editor.idMap first)
    /\ hd_error (rev (Editor.smoothAxisCoords Editor.idMap Editor.cornerRounding
                        Editor.cornerAxis))
       = Some (Editor.roundTrip Editor.idMap final).
Proof.
  destruct (axis_endpoints Editor.idMap Editor.cornerRounding Editor.cornerAxis)
    as (first & final & H1 & H2 & H3 & H4 & _).
  - cbn [Editor.cornerAxis Editor.coordinates List.length]. lia.
  - exists first, final. repeat split; assumption.
Defined.

(** ** Rounded and kept vertices on concrete axes *)

Module CornerExamples.
Import Editor RoundingFacts.

Lemma sign_nonzero (c : R) : c <> 0 -> Js.sign c <> 0.
Proof.
  intros H. unfold Js.sign.
  destruct (Js.ltb 0 c) eqn:E1; [lra|].
  destruct (Js.ltb c 0) eqn:E2; [lra|].
  apply ltb_false_iff in E1. apply ltb_false_iff in E2. lra.
Qed.

(** a perpendicular turn is rounded: its angle is PI/2 and the tangent of
    its half is 1 *)
Lemma corner_perp (map : MapView) (rounding : JsMap Rounding)
  (feat : Feature) (px : list Pt) (i : nat) :
  let P0 := at_ px (i - 1) in
  let P1 := at_ px i in
  let P2 := at_ px (i + 1) in
  let v0 := norm (sub P1 P0) in
  let v1 := norm (sub P2 P1) in
  let l1 := len (sub P1 P0) in
  let l2 := len (sub P2 P1) in
  dot v0 v1 = 0 -> crossZ v0 v1 <> 0 ->
  exists t_goal,
    corner map rounding feat px i
    = Rounded (clampTangent map rounding feat (List.length px) i l1 l2 t_goal)
        (arcPoints map P1 v0 v1 (Js.sign (crossZ v0 v1))
           (clampTangent map rounding feat (List.length px) i l1 l2 t_goal) 1).
Proof.
  cbv zeta. intros Hd Hc. unfold corner. cbv zeta. rewrite Hd.
  rewrite (min_r 1 0) by lra. rewrite (max_r (-1) 0) by lra.
  rewrite acos_0.
  pose proof PI2_1 as Hpi.
  rewrite (proj2 (ltb_false_iff _ _)) by lra.
  rewrite (proj2 (eqb_false_iff _ _)) by (now apply sign_nonzero).
  cbn [orb].
  replace (PI / 2 / 2) with (PI / 4) by field. rewrite tan_PI4.
  rewrite (proj2 (leb_false_iff _ _)) by lra.
  eexists. reflexivity.
Qed.

(** the screen points of an axis on the headless map *)
Ltac axis_points :=
  unfold at_, toPx, sub, cornerAxis, idMap;
  cbn [coordinates List.map project fst snd nth Nat.sub Nat.add x y].

Lemma cornerAxis_rounded :
  exists t arc,
    corner idMap cornerRounding cornerAxis
      (List.map (toPx idMap) (coordinates cornerAxis)) 1
    = Rounded t arc /\ (3 <= List.length arc)%nat.
Proof.
  destruct (corner_perp idMap cornerRounding cornerAxis
              (List.map (toPx idMap) (coordinates cornerAxis)) 1) as [tg E].
  - axis_points.
    rewrite (norm_eval (10 - 0) (0 - 0) 10) by lra.
    rewrite (norm_eval (10 - 10) (10 - 0) 10) by lra.
    unfold dot; cbn [x y]. lra.
  - axis_points.
    rewrite (norm_eval (10 - 0) (0 - 0) 10) by lra.
    rewrite (norm_eval (10 - 10) (10 - 0) 10) by lra.
    unfold crossZ; cbn [x y]. lra.
  - eexists _, _. split; [exact E|apply arcPoints_length].
Qed.

(** both internal vertices of a staircase with steps of length [L] are
    rounded *)
Lemma stair_rounded (name : string) (L : R) (rounding : JsMap Rounding) :
  1e-9 < L ->
  let feat := stair name L in
  let px := List.map (toPx idMap) (coordinates feat) in
  len (sub (at_ px 2) (at_ px 1)) = L
  /\ exists tg1 tg2 a1 a2,
       corner idMap rounding feat px 1
       = Rounded (clampTangent idMap rounding feat 4 1 L L tg1) a1
       /\ corner idMap rounding feat px 2
          = Rounded (clampTangent idMap rounding feat 4 2 L L tg2) a2.
Proof.
  intros HL. cbv zeta. unfold stair.
  assert (E01 : len (mkPt (L - 0) (0 - 0)) = L) by (apply len_eval; [lra|ring]).
  assert (E12 : len (mkPt (L - L) (L - 0)) = L) by (apply len_eval; [lra|ring]).
  assert (E23 : len (mkPt (2 * L - L) (L - L)) = L) by (apply len_eval; [lra|ring]).
  assert (N01 : norm (mkPt (L - 0) (0 - 0)) = mkPt ((L - 0) / L) ((0 - 0) / L))
    by (apply norm_eval; [lra|ring]).
  assert (N12 : norm (mkPt (L - L) (L - 0)) = mkPt ((L - L) / L) ((L - 0) / L))
    by (apply norm_eval; [lra|ring]).
  assert (N23 : norm (mkPt (2 * L - L) (L - L)) = mkPt ((2 * L - L) / L) ((L - L) / L))
    by (apply norm_eval; [lra|ring]).
  split.
  - unfold at_, toPx, sub, idMap;
      cbn [coordinates List.map project fst snd nth Nat.sub Nat.add x y].
    exact E12.
  - destruct (corner_perp idMap rounding
                (mkFeature name [(0, 0); (L, 0); (L, L); (2 * L, L)])
                (List.map (toPx idMap) [(0, 0); (L, 0); (L, L); (2 * L, L)]) 1)
      as [tg1 C1].
    { unfold at_, toPx, sub, idMap;
        cbn [coordinates List.map project fst snd nth Nat.sub Nat.add x y].
      rewrite N01, N12. unfold dot; cbn [x y]. field. lra. }
    { unfold at_, toPx, sub, idMap;
        cbn [coordinates List.map project fst snd nth Nat.sub Nat.add x y].
      rewrite N01, N12. unfold crossZ; cbn [x y].
      replace ((L - 0) / L * ((L - 0) / L) - (0 - 0) / L * ((L - L) / L)) with 1
        by (field; lra). lra. }
    destruct (corner_perp idMap rounding
                (mkFeature name [(0, 0); (L, 0); (L, L); (2 * L, L)])
                (List.map (toPx idMap) [(0, 0); (L, 0); (L, L); (2 * L, L)]) 2)
      as [tg2 C2].
    { unfold at_, toPx, sub, idMap;
        cbn [coordinates List.map project fst snd nth Nat.sub Nat.add x y].
      rewrite N12, N23. unfold dot; cbn [x y]. field. lra. }
    { unfold at_, toPx, sub, idMap;
        cbn [coordinates List.map project fst snd nth Nat.sub Nat.add x y].
      rewrite N12, N23. unfold crossZ; cbn [x y].
      replace ((L - L) / L * ((L - L) / L) - (L - 0) / L * ((2 * L - L) / L)) with (-1)
        by (field; lra). lra. }
    revert C1 C2.
    unfold at_, toPx, sub, idMap;
      cbn [coordinates List.map project fst snd nth Nat.sub Nat.add x y List.length].
    rewrite E01, E12, E23. intros C1 C2.
    eexists tg1, tg2, _, _. split; [exact C1|exact C2].
Qed.

End CornerExamples.

(** ** C3: a vertex with rounding factor 0 *)

(** C3, as stated, fails: on the right-angled axis (0,0), (10,0), (10,10)
    with rounding factor 0 at its corner, the rounded polyline has more
    vertices than the input, so it is not the input vertex for vertex. *)
Lemma zero_factor_counterexample :
  List.length (Editor.smoothAxisCoords Editor.idMap Editor.cornerRounding
                 Editor.cornerAxis)
  <> List.length (Editor.coordinates Editor.cornerAxis).
Proof.
  destruct CornerExamples.cornerAxis_rounded as (t & arc & E & Harc).
  unfold Editor.smoothAxisCoords. cbv zeta.
  change (List.length (Editor.coordinates Editor.cornerAxis)) with 3%nat.
  cbn [Nat.leb]. rewrite length_map.
  change (List.length (Editor.coordinates Editor.cornerAxis)) with 3%nat.
  cbn [Nat.sub seq flat_map]. rewrite E.
  rewrite !length_app. cbn [List.length]. lia.
Qed.

(** C3 (amended): at an internal vertex with rounding factor 0, the vertex
    is kept exactly when its turn is degenerate (turn angle below 1e-3,
    colinear edges, or [tan(alpha/2) <= 1e-6]); at every other vertex it is
    replaced by an arc of at least three points whose tangent length is the
    floor 1.0: the arc starts on the incoming edge, one unit before the
    vertex. *)
Theorem zero_factor_vertex (map : Editor.MapView)
  (rounding : Editor.JsMap Editor.Rounding) (feat : Editor.Feature)
  (px : list Editor.Pt) (i : nat) :
  Editor.getRoundK rounding (Editor.f_id feat) i = 0 ->
  let P0 := Editor.at_ px (i - 1) in
  let P1 := Editor.at_ px i in
  let P2 := Editor.at_ px (i + 1) in
  let v0 := Editor.norm (Editor.sub P1 P0) in
  let v1 := Editor.norm (Editor.sub P2 P1) in
  let alpha := acos (Js.max (-1) (Js.min 1 (Editor.dot v0 v1))) in
  let turn := Js.sign (Editor.crossZ v0 v1) in
  let tanHalf := tan (alpha / 2) in
  (alpha < 1e-3 \/ turn = 0 \/ tanHalf <= 1e-6 ->
   Editor.corner map rounding feat px i = Editor.Kept)
  /\ (1e-3 <= alpha -> turn <> 0 -> 1e-6 < tanHalf ->
      exists arc,
        Editor.corner map rounding feat px i = Editor.Rounded 1 arc
        /\ hd_error arc
           = Some (Editor.toLL map (Editor.add P1 (Editor.mul v0 (- (1)))))
        /\ (3 <= List.length arc)%nat).
Proof.
  intros Hk. cbv zeta.
  destruct (RoundingFacts.corner_cases map rounding feat px i)
    as [[Hdeg H]|(Ha & Ht & Hh & H)]; cbv zeta in *.
  - split; [intros _; exact H|].
    intros Ha Ht Hh. exfalso. destruct Hdeg as [Hd|[Hd|Hd]]; [lra|now apply Ht|lra].
  - split; [intros [Hd|[Hd|Hd]]; exfalso; [lra|now apply Ht|lra]|].
    intros _ _ _. rewrite Hk in H.
    assert (Hg : forall m a th, Js.max 0 (Js.min 1 0) * m / a * th = 0).
    { intros m a th. rewrite (min_r 1 0) by lra. rewrite (max_l 0 0) by lra.
      unfold Rdiv. ring. }
    rewrite Hg, RoundingFacts.clampTangent_zero in H.
    eexists. split; [exact H|]. split.
    + apply RoundingFacts.arcPoints_hd.
    + apply RoundingFacts.arcPoints_length.
Qed.

Lemma zero_factor_vertex_witness :
  exists arc,
    Editor.corner Editor.idMap Editor.cornerRounding Editor.cornerAxis
      (List.map (Editor.toPx Editor.idMap) (Editor.coordinates Editor.cornerAxis)) 1
    = Editor.Rounded 1 arc
    /\ (3 <= List.length arc)%nat.
Proof.
  destruct CornerExamples.cornerAxis_rounded as (t & arc & E & _).
  destruct (zero_factor_vertex Editor.idMap Editor.cornerRounding Editor.cornerAxis
              (List.map (Editor.toPx Editor.idMap)
                 (Editor.coordinates Editor.cornerAxis)) 1 eq_refl)
    as [HK HR].
  destruct (RoundingFacts.corner_cases Editor.idMap Editor.cornerRounding
              Editor.cornerAxis
              (List.map (Editor.toPx Editor.idMap)
                 (Editor.coordinates Editor.cornerAxis)) 1)
    as [[_ H]|(Ha & Ht & Hh & _)]; cbv zeta in *.
  - rewrite E in H. discriminate.
  - destruct (HR Ha Ht Hh) as (arc' & E' & _ & Hl). now exists arc'.
Defined.

(** ** C6: tangent lengths at consecutive vertices *)

Module FloorFacts.
Import Editor RoundingFacts.

(** The tangent length used at a rounded vertex is
    [max(1.0, min(t_goal, t_max))]: the floor 1.0 is applied after the
    neighbour-aware limit [t_max], so the length is at least 1 whatever
    [t_max] allows.  The tangent lengths used at two consecutive rounded
    vertices therefore fit on the shared edge exactly when that edge is at
    least 2 units long. *)
Lemma floor_after_limit (map : MapView)
  (rounding : JsMap Rounding) (feat : Feature)
  (px : list Pt) (i : nat) (t1 t2 : R) (a1 a2 : list (R * R)) :
  corner map rounding feat px i = Rounded t1 a1 ->
  corner map rounding feat px (S i) = Rounded t2 a2 ->
  let l1 := len (sub (at_ px i) (at_ px (i - 1))) in
  let edge := len (sub (at_ px (S i)) (at_ px i)) in
  let t_prevN :=
    if (1 <=? i - 1)%nat
    then tangentLengthAtLL map rounding (f_id feat)
           (coordinates feat) (i - 1)
    else 0 in
  let t_nextN :=
    if (i + 1 <=? List.length px - 2)%nat
    then tangentLengthAtLL map rounding (f_id feat)
           (coordinates feat) (i + 1)
    else 0 in
  let t_max := Js.max 0 (Js.min (0.49 * Js.min l1 edge)
                           (Js.max 0 (Js.min (l1 - t_prevN) (edge - t_nextN)))) in
  (exists t_goal, t1 = Js.max 1 (Js.min t_goal t_max))
  /\ t_max <= 0.49 * edge
  /\ 1 <= t1 <= Rmax 1 (0.49 * edge)
  /\ 1 <= t2 <= Rmax 1 (0.49 * edge)
  /\ (t1 + t2 <= edge <-> 2 <= edge).
Proof.
  intros C1 C2. cbv zeta.
  set (edge := len (sub (at_ px (S i)) (at_ px i))).
  set (l1 := len (sub (at_ px i) (at_ px (i - 1)))).
  assert (He0 : 0 <= edge) by apply len_nonneg.
  assert (Hl0 : 0 <= l1) by apply len_nonneg.
  assert (F1 : exists t_goal,
             t1 = clampTangent map rounding feat (List.length px) i l1 edge t_goal).
  { destruct (corner_cases map rounding feat px i)
      as [[_ H]|(_ & _ & _ & H)]; rewrite C1 in H; [discriminate|].
    injection H as Ht _. rewrite Nat.add_1_r in Ht. fold edge l1 in Ht.
    eexists. exact Ht. }
  assert (F2 : exists l2 t_goal,
             t2 = clampTangent map rounding feat (List.length px) (S i)
                    edge l2 t_goal /\ 0 <= l2).
  { destruct (corner_cases map rounding feat px (S i))
      as [[_ H]|(_ & _ & _ & H)]; rewrite C2 in H; [discriminate|].
    injection H as Ht _.
    rewrite ?Nat.sub_0_r in Ht. replace (S i - 1)%nat with i in Ht by lia.
    fold edge in Ht.
    eexists _, _. split; [exact Ht|apply len_nonneg]. }
  destruct F1 as [tg1 E1]. destruct F2 as (l2 & tg2 & E2 & Hl2).
  assert (B1 : 1 <= t1 <= Rmax 1 (0.49 * edge)).
  { pose proof (clampTangent_bounds map rounding feat
                  (List.length px) i l1 edge tg1 Hl0 He0) as B.
    rewrite <- E1 in B. pose proof (Rmin_r l1 edge).
    split; [apply B|]. eapply Rle_trans; [apply B|].
    apply Rmax_lub; [apply Rmax_l|]. eapply Rle_trans; [|apply Rmax_r]. lra. }
  assert (B2 : 1 <= t2 <= Rmax 1 (0.49 * edge)).
  { pose proof (clampTangent_bounds map rounding feat
                  (List.length px) (S i) edge l2 tg2 He0 Hl2) as B.
    rewrite <- E2 in B. pose proof (Rmin_l edge l2).
    split; [apply B|]. eapply Rle_trans; [apply B|].
    apply Rmax_lub; [apply Rmax_l|]. eapply Rle_trans; [|apply Rmax_r]. lra. }
  split.
  { exists tg1. rewrite E1. apply clampTangent_tmax. }
  split.
  { unfold Js.max, Js.min. apply Rmax_lub.
    - lra.
    - eapply Rle_trans; [apply Rmin_l|]. pose proof (Rmin_r l1 edge). lra. }
  split; [exact B1|]. split; [exact B2|].
  split.
  - lra.
  - intros He. destruct B1 as [_ B1], B2 as [_ B2].
    assert (Hm : Rmax 1 (0.49 * edge) <= edge / 2) by (apply Rmax_lub; lra).
    lra.
Qed.

End FloorFacts.

(** C6: on the staircase (0,0), (1,0), (1,1), (2,1), with the default
    rounding factors, [smoothAxisCoords] rounds both internal vertices with
    tangent length 1, the floor: the two tangent lengths sum to 2 on the
    shared edge of length 1, so the arcs inserted at the two vertices
    overlap. *)
Theorem adjacent_tangents_overlap :
  exists a1 a2,
    Editor.corner Editor.idMap [] Editor.stairAxis
      (List.map (Editor.toPx Editor.idMap) (Editor.coordinates Editor.stairAxis)) 1
    = Editor.Rounded 1 a1
    /\ Editor.corner Editor.idMap [] Editor.stairAxis
         (List.map (Editor.toPx Editor.idMap) (Editor.coordinates Editor.stairAxis)) 2
       = Editor.Rounded 1 a2
    /\ Editor.len
         (Editor.sub
            (Editor.at_ (List.map (Editor.toPx Editor.idMap)
                           (Editor.coordinates Editor.stairAxis)) 2)
            (Editor.at_ (List.map (Editor.toPx Editor.idMap)
                           (Editor.coordinates Editor.stairAxis)) 1))
       < 1 + 1.
Proof.
  destruct (CornerExamples.stair_rounded "s" 1 []) as (Hlen & tg1 & tg2 & a1 & a2 & C1 & C2);
    [lra|].
  assert (Hfloor : forall i tg,
             Editor.clampTangent Editor.idMap [] (Editor.stair "s" 1) 4 i 1 1 tg = 1).
  { intros i tg.
    pose proof (RoundingFacts.clampTangent_bounds Editor.idMap []
                  (Editor.stair "s" 1) 4 i 1 1 tg) as H.
    rewrite Rmin_left, Rmax_left in H by lra. lra. }
  rewrite Hfloor in C1, C2.
  exists a1, a2. split; [exact C1|]. split; [exact C2|].
  unfold Editor.stairAxis. rewrite Hlen. lra.
Qed.


(** * Further properties of the sources *)

(** ** spline.js: polynomials *)

(** X1: rebasing a polynomial by [delta] shifts its argument:
    [p.rebase(delta).value(ds) = p.value(delta + ds)]; rebasing by 0 changes
    nothing, and two rebasings compose into one by the sum. *)
Theorem rebase_shifts_argument (p : Poly3.t) (delta delta' ds : R) :
  Poly3.value (Poly3.rebase p delta) ds = Poly3.value p (delta + ds)
  /\ Poly3.rebase p 0 = p
  /\ Poly3.rebase (Poly3.rebase p delta) delta' = Poly3.rebase p (delta + delta').
Proof.
  destruct p as [a b c d].
  unfold Poly3.rebase, Poly3.value, Poly3.deriv, Poly3.deriv2, Poly3.deriv3;
    cbn [Poly3.a Poly3.b Poly3.c Poly3.d].
  split; [field|]. split; f_equal; field.
Qed.

Lemma derivable_pt_lim_eq (f g : R -> R) (x l l' : R) :
  (forall y, f y = g y) -> l = l' ->
  derivable_pt_lim f x l -> derivable_pt_lim g x l'.
Proof.
  intros Hfg <- H eps Heps. destruct (H eps Heps) as [delta Hd].
  exists delta. intros h Hh Hlt. rewrite <- !Hfg. now apply Hd.
Qed.

Lemma derivable_pt_lim_cubic (a b c d x : R) :
  derivable_pt_lim (fun t => a + b * t + c * t * t + d * t * t * t) x
    (b + 2 * c * x + 3 * d * x * x).
Proof.
  apply (derivable_pt_lim_eq
           (fct_cte a + fct_cte b * id + fct_cte c * id * id
            + fct_cte d * id * id * id)%F _ x
           (0 + (0 * id x + fct_cte b x * 1)
            + ((0 * id x + fct_cte c x * 1) * id x + (fct_cte c * id)%F x * 1)
            + (((0 * id x + fct_cte d x * 1) * id x + (fct_cte d * id)%F x * 1) * id x
               + (fct_cte d * id * id)%F x * 1))).
  - intros y. reflexivity.
  - unfold mult_fct, fct_cte, id. ring.
  - repeat first [apply derivable_pt_lim_plus | apply derivable_pt_lim_mult
                 | apply derivable_pt_lim_const | apply derivable_pt_lim_id].
Qed.

(** X2: [deriv], [deriv2] and [deriv3] are the first, second and third
    derivative of [value]. *)
Theorem poly3_derivatives (p : Poly3.t) (x : R) :
  derivable_pt_lim (Poly3.value p) x (Poly3.deriv p x)
  /\ derivable_pt_lim (Poly3.deriv p) x (Poly3.deriv2 p x)
  /\ derivable_pt_lim (Poly3.deriv2 p) x (Poly3.deriv3 p).
Proof.
  destruct p as [a b c d].
  unfold Poly3.value, Poly3.deriv, Poly3.deriv2, Poly3.deriv3;
    cbn [Poly3.a Poly3.b Poly3.c Poly3.d].
  split; [apply derivable_pt_lim_cubic|]. split.
  - apply (derivable_pt_lim_eq (fun t => b + 2 * c * t + 3 * d * t * t + 0 * t * t * t)
             _ x (2 * c + 2 * (3 * d) * x + 3 * 0 * x * x)).
    + intros y. ring.
    + ring.
    + apply derivable_pt_lim_cubic.
  - apply (derivable_pt_lim_eq (fun t => 2 * c + 6 * d * t + 0 * t * t + 0 * t * t * t)
             _ x (6 * d + 2 * 0 * x + 3 * 0 * x * x)).
    + intros y. ring.
    + ring.
    + apply derivable_pt_lim_cubic.
Qed.

(** ** spline.js: splines *)

Module SplineMore.
Import CubicSpline SplineSpec SplineFacts SplineOps.

Lemma negate_value (p : Poly3.t) (x : R) :
  Poly3.value (Poly3.negate p) x = - Poly3.value p x.
Proof. unfold Poly3.negate, Poly3.value; cbn [Poly3.a Poly3.b Poly3.c Poly3.d]. ring. Qed.

Lemma negate_map (sp : t) : negate sp = map negSeg sp.
Proof. reflexivity. Qed.

Lemma scan_negate (s : R) (cand : Seg) (l : list Seg) :
  scan s (negSeg cand) (map negSeg l) = negSeg (scan s cand l).
Proof.
  revert cand; induction l as [|x l IH]; intros cand; cbn [map scan]; [reflexivity|].
  cbn [negSeg s0]. destruct (Js.geb (s + tol) (s0 x)); [apply IH|reflexivity].
Qed.

Lemma get_poly_negate (sp : t) (s : R) (e : bool) :
  sp <> [] -> get_poly (negate sp) s e = negSeg (get_poly sp s e).
Proof.
  destruct sp as [|sg0 rest]; [congruence|intros _].
  rewrite negate_map. unfold get_poly. cbn [map].
  change (negSeg sg0 :: map negSeg rest) with (map negSeg (sg0 :: rest)).
  rewrite scan_negate. cbn [negSeg s0].
  destruct (Js.geb _ _); [reflexivity|]. now destruct e.
Qed.

(** the candidate left by the loop of [get_poly] fails the tolerance test
    only when it is the segment the loop started from *)
Lemma scan_candidate (s : R) (cand : Seg) (l : list Seg) :
  scan s cand l = cand \/ s0 (scan s cand l) <= s + tol.
Proof.
  revert cand; induction l as [|x l IH]; intros cand; cbn [scan]; [now left|].
  destruct (Js.geb (s + tol) (s0 x)) eqn:E; [|now left].
  apply geb_true_iff in E. right.
  destruct (IH x) as [->|H]; [lra|exact H].
Qed.

End SplineMore.

(** X3: negating a spline negates its value everywhere:
    [sp.negate().get(s, -def) = -sp.get(s, def)], whatever the order of the
    segments. *)
Theorem negate_get (sp : CubicSpline.t) (s def : R) :
  CubicSpline.get (CubicSpline.negate sp) s (- def) = - CubicSpline.get sp s def.
Proof.
  destruct sp as [|sg0 rest]; [reflexivity|].
  change (CubicSpline.get (CubicSpline.negate (sg0 :: rest)) s (- def))
    with (Poly3.value
            (CubicSpline.poly (CubicSpline.get_poly (CubicSpline.negate (sg0 :: rest)) s true))
            (s - CubicSpline.s0
                   (CubicSpline.get_poly (CubicSpline.negate (sg0 :: rest)) s true))).
  rewrite SplineMore.get_poly_negate by discriminate.
  cbn [SplineOps.negSeg CubicSpline.s0 CubicSpline.poly CubicSpline.get].
  apply SplineMore.negate_value.
Qed.

(** X4: the flag [extendStart] of [get_poly] never changes the result: when
    the candidate of the loop fails the tolerance test, it is the first
    segment, which is what [extendStart] would return. *)
Theorem extendStart_irrelevant (sp : CubicSpline.t) (s : R) :
  CubicSpline.get_poly sp s false = CubicSpline.get_poly sp s true.
Proof.
  destruct sp as [|sg0 rest]; [reflexivity|].
  unfold CubicSpline.get_poly.
  destruct (Js.geb _ _) eqn:E; [reflexivity|].
  apply geb_false_iff in E.
  destruct (SplineMore.scan_candidate s sg0 (sg0 :: rest)) as [H|H]; [exact H|lra].
Qed.

(** X5: the knots of [a.add(b)] are the knots of [a] and the knots of [b],
    each once, in strictly increasing order. *)
Theorem add_knots (A B : CubicSpline.t) :
  StronglySorted Rlt (SplineSpec.knots (CubicSpline.add A B))
  /\ forall x, In x (SplineSpec.knots (CubicSpline.add A B))
               <-> In x (SplineSpec.knots A) \/ In x (SplineSpec.knots B).
Proof.
  rewrite SplineFacts.add_segments. unfold SplineSpec.knots at 1 2.
  rewrite map_map. cbn [SplineSpec.sumSeg CubicSpline.s0]. rewrite map_id.
  split; [apply SplineFacts.ticks_strict|apply SplineFacts.ticks_in].
Qed.

(** X6: [fromSegments] and [addSegment] keep the segments ordered by knot:
    the result holds the given segments (and the added one), each once, in
    non-decreasing order of [s0]. *)
Theorem segments_stay_ordered (segments : list CubicSpline.RawSeg)
  (sp : CubicSpline.t) (s a b c d : R) :
  (StronglySorted Rle (SplineSpec.knots (CubicSpline.fromSegments segments))
   /\ Permutation (CubicSpline.fromSegments segments)
        (map (fun r => CubicSpline.mkSeg (CubicSpline.r_s0 r)
                         (Poly3.mk (CubicSpline.r_a r) (CubicSpline.r_b r)
                            (CubicSpline.r_c r) (CubicSpline.r_d r)))
             segments))
  /\ (StronglySorted Rle (SplineSpec.knots (CubicSpline.addSegment sp s a b c d))
      /\ Permutation (CubicSpline.addSegment sp s a b c d)
           (CubicSpline.mkSeg s (Poly3.mk a b c d) :: sp)).
Proof.
  assert (Hk : forall l : list CubicSpline.Seg,
             StronglySorted (fun u v => CubicSpline.s0 u <= CubicSpline.s0 v) l ->
             StronglySorted Rle (SplineSpec.knots l)).
  { induction 1 as [|x l Hl IH Hx]; cbn [SplineSpec.knots map]; constructor;
      [exact IH|].
    rewrite Forall_forall in *. intros y Hy. apply in_map_iff in Hy.
    destruct Hy as [z [<- Hz]]. now apply Hx. }
  unfold CubicSpline.fromSegments, CubicSpline.addSegment. split; split.
  - apply Hk, sort_by_sorted.
  - apply sort_by_perm.
  - apply Hk, sort_by_sorted.
  - rewrite sort_by_perm. symmetry. apply Permutation_cons_append.
Qed.

(** X7: in a spline with strictly increasing knots, [get_poly(s)] returns
    the last segment whose knot is at most [s + 1e-12]; before the first
    knot it returns the first segment, which [get] then extrapolates. *)
Theorem get_poly_lookup (sp : CubicSpline.t) (sg0 : CubicSpline.Seg) (s : R) :
  SplineSpec.strict sp -> hd_error sp = Some sg0 ->
  let c := CubicSpline.get_poly sp s true in
  In c sp
  /\ (CubicSpline.s0 sg0 <= s + CubicSpline.tol ->
      CubicSpline.s0 c <= s + CubicSpline.tol
      /\ forall x, In x sp -> CubicSpline.s0 x <= s + CubicSpline.tol ->
                   CubicSpline.s0 x <= CubicSpline.s0 c)
  /\ (s + CubicSpline.tol < CubicSpline.s0 sg0 ->
      c = sg0
      /\ CubicSpline.get sp s 0
         = Poly3.value (CubicSpline.poly sg0) (s - CubicSpline.s0 sg0)).
Proof.
  intros Hs Hhd. cbv zeta.
  destruct sp as [|sg rest]; [discriminate|]. injection Hhd as ->.
  destruct (SplineFacts.get_poly_sorted (sg0 :: rest) s) as [Hin Hcase];
    [discriminate|exact Hs|].
  split; [exact Hin|]. split.
  - intros Hle. destruct Hcase as [H|H]; [exact H|].
    destruct (H sg0 (or_introl eq_refl)) as [H1 _]. lra.
  - intros Hlt.
    assert (E : CubicSpline.get_poly (sg0 :: rest) s true = sg0).
    { apply SplineFacts.get_poly_first. intros x Hx.
      unfold SplineSpec.strict, SplineSpec.knots in Hs. cbn [map] in Hs.
      inversion Hs as [|? ? _ Hf]; subst. rewrite Forall_forall in Hf.
      specialize (Hf _ (in_map CubicSpline.s0 _ _ Hx)). lra. }
    split; [exact E|]. cbn [CubicSpline.get]. now rewrite E.
Qed.

Lemma get_poly_lookup_witness :
  CubicSpline.get_poly
    [CubicSpline.mkSeg 0 (Poly3.mk 1 2 0 0); CubicSpline.mkSeg 1 (Poly3.mk 3 0 1 0)]
    (-1) true
  = CubicSpline.mkSeg 0 (Poly3.mk 1 2 0 0).
Proof.
  apply (get_poly_lookup
           [CubicSpline.mkSeg 0 (Poly3.mk 1 2 0 0); CubicSpline.mkSeg 1 (Poly3.mk 3 0 1 0)]
           (CubicSpline.mkSeg 0 (Poly3.mk 1 2 0 0)) (-1)).
  - repeat constructor. cbn [CubicSpline.s0]. lra.
  - reflexivity.
  - cbn [CubicSpline.s0]. unfold CubicSpline.tol. lra.
Defined.

(** ** geometry.js: the uniform sampler *)

Module UniformFacts.
Import Geometry SamplerFacts.

Lemma spiralSteps_tags (hdg k0 dk ds : R) (ixs : list nat) :
  forall px py, map p_s (spiralSteps hdg k0 dk ds px py ixs)
                = map (fun i => INR i * ds) ixs.
Proof.
  induction ixs as [|i ixs IH]; intros px py; cbn [spiralSteps map]; [reflexivity|].
  cbv zeta. cbn [p_s]. now rewrite IH.
Qed.

Lemma upto_from1 (n : Z) : upto n = 0%nat :: from1 n.
Proof. reflexivity. Qed.

(** the arc lengths of the samples, whatever the type and the quotient *)
Lemma samplesAt_tags (g : Geom) (q : R) :
  0 < g_length g ->
  map p_s (samplesAt g q)
  = map (fun i => INR i * (g_length g / IZR (stepsFor q))) (upto (stepsFor q)).
Proof.
  intros HL. unfold samplesAt.
  rewrite (proj2 (leb_false_iff _ _)) by exact HL. cbv zeta.
  set (n := stepsFor q).
  assert (Hline : forall x y hdg,
             map p_s (lineSamples x y hdg (g_length g / IZR n) n)
             = map (fun i => INR i * (g_length g / IZR n)) (upto n)).
  { intros. unfold lineSamples. now rewrite map_map. }
  destruct (g_type g); try apply Hline.
  - destruct (Js.ltb _ _); [apply Hline|]. now rewrite map_map.
  - rewrite upto_from1. cbn [map p_s]. rewrite spiralSteps_tags.
    f_equal. cbn [INR]. ring.
  - now rewrite map_map.
Qed.

Lemma sampleSegment_tags (g : Geom) (step : R) :
  0 < g_length g ->
  map p_s (sampleSegment g step)
  = map (fun i => INR i * (g_length g / IZR (stepCount (g_length g) step)))
      (upto (stepCount (g_length g) step)).
Proof. apply samplesAt_tags. Qed.


Lemma spacing_le_step (L step : R) :
  0 < L -> 0 < step -> L / IZR (stepCount L step) <= step.
Proof.
  intros HL Hs. rewrite stepCount_ceil by assumption.
  assert (H : 0 < L / step) by now apply Rdiv_lt_0_compat.
  pose proof (ceil_pos _ H) as Hc.
  destruct (ceil_bounds (L / step)) as [_ Hb].
  assert (Hn : 0 < IZR (Js.ceil (L / step))) by (apply IZR_lt; lia).
  apply (Rmult_le_reg_r (IZR (Js.ceil (L / step)))); [exact Hn|].
  replace (L / IZR (Js.ceil (L / step)) * IZR (Js.ceil (L / step))) with L
    by (field; lra).
  apply (Rmult_le_compat_l step) in Hb; [|lra].
  replace (step * (L / step)) with L in Hb by (field; lra). exact Hb.
Qed.

End UniformFacts.



(** X9: the samples of an arc of curvature [k], [|k| >= 1e-12], lie on the
    circle of radius [1 / |k|] around the centre
    [(x - sin(hdg) / k, y + cos(hdg) / k)]; the heading of a sample is
    [hdg + k * s] and is tangent to the circle there. *)
Theorem arc_samples_on_circle (g : Geometry.Geom) (k step : R)
  (p : Geometry.Sample) :
  Geometry.g_type g = Geometry.arc ->
  Geometry.g_curvature g = Some k -> 1e-12 <= Rabs k ->
  In p (Geometry.sampleSegment g step) ->
  let cx := Geometry.g_x g - sin (Geometry.g_hdg g) / k in
  let cy := Geometry.g_y g + cos (Geometry.g_hdg g) / k in
  Geometry.p_th p = Geometry.g_hdg g + k * Geometry.p_s p
  /\ (Geometry.p_x p - cx) * (Geometry.p_x p - cx)
     + (Geometry.p_y p - cy) * (Geometry.p_y p - cy)
     = (1 / k) * (1 / k)
  /\ (Geometry.p_x p - cx) * cos (Geometry.p_th p)
     + (Geometry.p_y p - cy) * sin (Geometry.p_th p) = 0.
Proof.
  intros Hty Hk Habs Hin. cbv zeta.
  assert (Hk0 : k <> 0).
  { intros ->. rewrite Rabs_R0 in Habs. lra. }
  unfold Geometry.sampleSegment, Geometry.samplesAt in Hin.
  destruct (Js.leb (Geometry.g_length g) 0); [destruct Hin|].
  cbv zeta in Hin. rewrite Hty, Hk in Hin. cbn [Geometry.numOr0] in Hin.
  unfold Js.abs in Hin.
  rewrite (proj2 (ltb_false_iff _ _)) in Hin by lra.
  apply in_map_iff in Hin. destruct Hin as [i [<- _]].
  cbn [Geometry.p_th Geometry.p_x Geometry.p_y Geometry.p_s].
  set (th := Geometry.g_hdg g + k * _).
  pose proof (sin2_cos2 th) as Hsc. unfold Rsqr in Hsc.
  split; [reflexivity|]. split.
  - replace (Geometry.g_x g + (sin th - sin (Geometry.g_hdg g)) * (1 / k)
             - (Geometry.g_x g - sin (Geometry.g_hdg g) / k))
      with (sin th / k) by (field; exact Hk0).
    replace (Geometry.g_y g - (cos th - cos (Geometry.g_hdg g)) * (1 / k)
             - (Geometry.g_y g + cos (Geometry.g_hdg g) / k))
      with (- cos th / k) by (field; exact Hk0).
    replace (sin th / k * (sin th / k) + - cos th / k * (- cos th / k))
      with ((sin th * sin th + cos th * cos th) * (1 / k * (1 / k)))
      by (field; exact Hk0).
    rewrite Hsc. ring.
  - field. exact Hk0.
Qed.

Lemma arc_samples_on_circle_witness :
  Geometry.p_th (Geometry.mkSample 0 0 0 0) = 0 + 0.5 * Geometry.p_s (Geometry.mkSample 0 0 0 0).
Proof.
  assert (H : In (Geometry.mkSample 0 0 0 0)
                (Geometry.sampleSegment
                   (Geometry.mkGeom 0 0 0 0 1 Geometry.arc (Some 0.5) None None
                      0 0 0 0 0 0 0 0) 1)).
  { unfold Geometry.sampleSegment, Geometry.samplesAt; fold_steps.
    cbn [Geometry.g_length Geometry.g_type Geometry.g_curvature Geometry.numOr0
         Geometry.g_x Geometry.g_y Geometry.g_hdg].
    js_decide. cbv zeta. unfold Js.abs. rewrite (Rabs_right 0.5) by lra.
    js_decide. unfold Geometry.stepCount, Geometry.stepsFor.
    replace (1 / 1) with (IZR 1) by lra. rewrite ceil_IZR.
    change (Z.max 1 1) with 1%Z. unfold Geometry.upto.
    change (Z.to_nat 1) with 1%nat. cbn [seq map]. left.
    cbn [INR]. f_equal.
    - rewrite Rmult_0_l, Rmult_0_r, Rplus_0_r, Rminus_diag. lra.
    - rewrite Rmult_0_l, Rmult_0_r, Rplus_0_r, Rminus_diag. lra.
    - lra.
    - lra. }
  assert (Habs : 1e-12 <= Rabs 0.5) by (rewrite Rabs_right; lra).
  destruct (arc_samples_on_circle
              (Geometry.mkGeom 0 0 0 0 1 Geometry.arc (Some 0.5) None None
                 0 0 0 0 0 0 0 0)
              0.5 1 (Geometry.mkSample 0 0 0 0) eq_refl eq_refl Habs H) as [E _].
  exact E.
Defined.

Module ArcFacts.
Import Geometry SamplerFacts.

(** the step enters [sampleSegment] only through the number of steps *)
Lemma sampleSegment_stepCount (g : Geom) (s1 s2 : R) :
  stepCount (g_length g) s1 = stepCount (g_length g) s2 ->
  sampleSegment g s1 = sampleSegment g s2.
Proof. intros H. unfold sampleSegment, samplesAt; fold_steps. now rewrite H. Qed.

Lemma stepCount_short (L b : R) :
  0 < L -> L < b -> stepCount L (Js.min b L) = stepCount L b.
Proof.
  intros HL Hb. rewrite min_r by lra.
  rewrite !stepCount_ceil by lra.
  replace (L / L) with (IZR 1) by (simpl; field; lra). rewrite ceil_IZR.
  symmetry. apply ceil_unique. simpl.
  assert (0 < L / b) by (apply Rdiv_lt_0_compat; lra).
  assert (L / b < 1).
  { apply (Rmult_lt_reg_r b); [lra|]. replace (L / b * b) with L by (field; lra). lra. }
  lra.
Qed.

Lemma sampleSegment_flat_arc (g : Geom) (step : R) :
  g_type g = arc -> Rabs (numOr0 (g_curvature g)) < 1e-12 ->
  sampleSegment g step
  = sampleSegment (mkLine (g_s g) (g_x g) (g_y g) (g_hdg g) (g_length g)) step.
Proof.
  intros Hty Hk. unfold sampleSegment, samplesAt, mkLine; fold_steps.
  cbn [g_length g_type g_x g_y g_hdg]. rewrite Hty.
  destruct (Js.leb (g_length g) 0); [reflexivity|]. cbv zeta.
  unfold Js.abs. now rewrite (proj2 (ltb_true_iff _ _)) by exact Hk.
Qed.

End ArcFacts.

(** X10: an arc whose curvature is absent or below 1e-12 in absolute value
    is sampled as the line with the same start, heading and length, by the
    uniform and by the adaptive sampler. *)
Theorem flat_arc_is_line (g : Geometry.Geom) (step : R) (opts : Geometry.Opts) :
  Geometry.g_type g = Geometry.arc ->
  Rabs (Geometry.numOr0 (Geometry.g_curvature g)) < 1e-12 ->
  let ln := Geometry.mkLine (Geometry.g_s g) (Geometry.g_x g) (Geometry.g_y g)
              (Geometry.g_hdg g) (Geometry.g_length g) in
  Geometry.sampleSegment g step = Geometry.sampleSegment ln step
  /\ Geometry.sampleSegmentAdaptive g opts = Geometry.sampleSegmentAdaptive ln opts.
Proof.
  intros Hty Hk. cbv zeta. split; [now apply ArcFacts.sampleSegment_flat_arc|].
  unfold Geometry.sampleSegmentAdaptive.
  cbn [Geometry.mkLine Geometry.g_length Geometry.g_type].
  destruct (Js.gtb (Geometry.g_length g) 0) eqn:EL; [|reflexivity].
  apply gtb_true_iff in EL. cbn [negb]. cbv zeta. rewrite Hty.
  unfold Js.abs. rewrite (proj2 (gtb_false_iff _ _)) by lra.
  change (Geometry.mkGeom (Geometry.g_s g) (Geometry.g_x g) (Geometry.g_y g)
            (Geometry.g_hdg g) (Geometry.g_length g) Geometry.line None None None
            0 0 0 0 0 0 0 0)
    with (Geometry.mkLine (Geometry.g_s g) (Geometry.g_x g) (Geometry.g_y g)
            (Geometry.g_hdg g) (Geometry.g_length g)).
  set (b := Js.max 0.2 _).
  rewrite <- ArcFacts.sampleSegment_flat_arc by assumption.
  apply ArcFacts.sampleSegment_stepCount.
  destruct (Rle_lt_dec b (Geometry.g_length g)) as [Hle|Hlt].
  - now rewrite min_l.
  - now apply ArcFacts.stepCount_short.
Qed.

Lemma flat_arc_is_line_witness :
  Geometry.sampleSegment
    (Geometry.mkGeom 0 1 2 0 5 Geometry.arc None None None 0 0 0 0 0 0 0 0) 1
  = Geometry.sampleSegment (Geometry.mkLine 0 1 2 0 5) 1.
Proof.
  apply (flat_arc_is_line
           (Geometry.mkGeom 0 1 2 0 5 Geometry.arc None None None 0 0 0 0 0 0 0 0)
           1 (Geometry.mkOpts None None)).
  - reflexivity.
  - cbn [Geometry.g_curvature Geometry.numOr0]. rewrite Rabs_R0. lra.
Defined.

(** X11: on an arc of curvature [k], [|k| > 1e-12], the adaptive sampler
    takes evenly spaced samples whose spacing is at most the chord target
    and whose heading changes by [k * ds], at most the angle target, from
    one sample to the next. *)
Theorem adaptive_arc_steps (g : Geometry.Geom) (opts : Geometry.Opts) (k : R) :
  Geometry.g_type g = Geometry.arc ->
  Geometry.g_curvature g = Some k -> 1e-12 < Rabs k ->
  0 < Geometry.g_length g ->
  let baseStep := Js.max 0.2 (Geometry.orDefault (Geometry.baseStep opts) 0.7) in
  let maxAngle := Js.max 0.005 (Geometry.orDefault (Geometry.maxAngle opts) 0.03) in
  exists (n : nat) (ds : R),
    ds = Geometry.g_length g / INR n
    /\ map Geometry.p_s (Geometry.sampleSegmentAdaptive g opts)
       = map (fun i => INR i * ds) (seq 0 (S n))
    /\ map Geometry.p_th (Geometry.sampleSegmentAdaptive g opts)
       = map (fun i => Geometry.g_hdg g + k * (INR i * ds)) (seq 0 (S n))
    /\ 0 < ds <= baseStep
    /\ Rabs (k * ds) <= maxAngle.
Proof.
  intros Hty Hk Habs HL. cbv zeta.
  set (b := Js.max 0.2 _). set (m := Js.max 0.005 _).
  assert (Hb : 0 < b) by (unfold b, Js.max; pose proof (Rmax_l 0.2 (Geometry.orDefault (Geometry.baseStep opts) 0.7)); lra).
  assert (Hm : 0 < m) by (unfold m, Js.max; pose proof (Rmax_l 0.005 (Geometry.orDefault (Geometry.maxAngle opts) 0.03)); lra).
  assert (Hstep : 0 < Js.min b (m / Rabs k)).
  { unfold Js.min. apply Rmin_glb_lt; [exact Hb|]. apply Rdiv_lt_0_compat; lra. }
  assert (E : Geometry.sampleSegmentAdaptive g opts
              = Geometry.sampleSegment g (Js.min b (m / Rabs k))).
  { unfold Geometry.sampleSegmentAdaptive.
    rewrite (proj2 (gtb_true_iff _ _)) by lra. cbn [negb]. cbv zeta.
    rewrite Hty, Hk. cbn [Geometry.numOr0]. unfold Js.abs.
    now rewrite (proj2 (gtb_true_iff _ _)) by lra. }
  rewrite E.
  set (n := Geometry.stepCount (Geometry.g_length g) (Js.min b (m / Rabs k))).
  pose proof (SamplerFacts.stepCount_pos (Geometry.g_length g) (Js.min b (m / Rabs k))) as Hn.
  fold n in Hn.
  assert (En : INR (Z.to_nat n) = IZR n) by (apply INR_to_nat; lia).
  assert (Hn0 : 0 < IZR n) by (apply IZR_lt; lia).
  exists (Z.to_nat n), (Geometry.g_length g / IZR n).
  split; [now rewrite En|].
  split; [now apply UniformFacts.sampleSegment_tags|].
  pose proof (UniformFacts.spacing_le_step _ _ HL Hstep) as Hsp. fold n in Hsp.
  split.
  - unfold Geometry.sampleSegment, Geometry.samplesAt; fold_steps.
    rewrite (proj2 (leb_false_iff _ _)) by exact HL. cbv zeta.
    rewrite Hty, Hk. cbn [Geometry.numOr0]. unfold Js.abs.
    rewrite (proj2 (ltb_false_iff _ _)) by lra.
    fold n. rewrite map_map. reflexivity.
  - assert (Hds : 0 < Geometry.g_length g / IZR n) by now apply Rdiv_lt_0_compat.
    split.
    + split; [exact Hds|]. eapply Rle_trans; [exact Hsp|apply Rmin_l].
    + rewrite Rabs_mult, (Rabs_right (Geometry.g_length g / IZR n)) by lra.
      assert (Hd : Geometry.g_length g / IZR n <= m / Rabs k).
      { eapply Rle_trans; [exact Hsp|apply Rmin_r]. }
      apply (Rmult_le_compat_l (Rabs k)) in Hd; [|lra].
      replace (Rabs k * (m / Rabs k)) with m in Hd by (field; lra). exact Hd.
Qed.

Lemma adaptive_arc_steps_witness :
  exists (n : nat) (ds : R),
    ds = 10 / INR n
    /\ 0 < ds <= Js.max 0.2 (Geometry.orDefault None 0.7)
    /\ Rabs (0.1 * ds) <= Js.max 0.005 (Geometry.orDefault None 0.03).
Proof.
  assert (Habs : 1e-12 < Rabs 0.1) by (rewrite Rabs_right; lra).
  assert (HL : 0 < 10) by lra.
  destruct (adaptive_arc_steps
              (Geometry.mkGeom 0 0 0 0 10 Geometry.arc (Some 0.1) None None
                 0 0 0 0 0 0 0 0)
              (Geometry.mkOpts None None) 0.1 eq_refl eq_refl Habs HL)
    as (n & ds & E & _ & _ & H1 & H2).
  exists n, ds. repeat split; try assumption; apply H1.
Defined.

(** ** geometry.js: the adaptive sampler *)

(** X12: for a ParamPoly3 curve of positive length, the last sample of the
    adaptive sampler is tagged with exactly the declared length: the loop
    clamps the arc length to the length, and a sample at the end is added
    when the loop stopped short of it. *)
Theorem adaptive_ends_at_length (g : Geometry.Geom) (opts : Geometry.Opts) :
  Geometry.g_type g = Geometry.poly3 -> 0 < Geometry.g_length g ->
  Geometry.lastS (Geometry.sampleSegmentAdaptive g opts) = Some (Geometry.g_length g).
Proof.
  intros Hty. apply EndOfPrimitive.adaptive_last. rewrite Hty. discriminate.
Qed.

Lemma adaptive_ends_at_length_witness :
  Geometry.lastS
    (Geometry.sampleSegmentAdaptive
       (Geometry.mkGeom 0 0 0 0 3 Geometry.poly3 None None None 0 1 0 0 0 0 0.5 0)
       (Geometry.mkOpts None None))
  = Some 3.
Proof.
  apply (adaptive_ends_at_length
           (Geometry.mkGeom 0 0 0 0 3 Geometry.poly3 None None None 0 1 0 0 0 0 0.5 0)
           (Geometry.mkOpts None None)).
  - reflexivity.
  - cbn [Geometry.g_length]. lra.
Defined.

(** X13: the last sample of a spiral of positive length [L] is tagged with
    an arc length in [[L - 1e-9, L + 0.05)]: the loop runs until less than
    1e-9 remains and its last step, at least 0.05 long, overshoots the end
    by less than 0.05. *)
Theorem spiral_end_within_floor (g : Geometry.Geom) (opts : Geometry.Opts) :
  Geometry.g_type g = Geometry.spiral -> 0 < Geometry.g_length g ->
  exists sl,
    Geometry.lastS (Geometry.sampleSegmentAdaptive g opts) = Some sl
    /\ Geometry.g_length g - 1e-9 <= sl < Geometry.g_length g + 0.05.
Proof. apply EndOfPrimitive.spiral_last_bounds. Qed.

Lemma spiral_end_within_floor_witness :
  exists sl,
    Geometry.lastS
      (Geometry.sampleSegmentAdaptive
         (Geometry.mkSpiral 0 0 0 0 20 (Some 0) (Some 0.05))
         (Geometry.mkOpts None None))
    = Some sl
    /\ 20 - 1e-9 <= sl < 20 + 0.05.
Proof.
  apply (spiral_end_within_floor
           (Geometry.mkSpiral 0 0 0 0 20 (Some 0) (Some 0.05))
           (Geometry.mkOpts None None)).
  - reflexivity.
  - unfold Geometry.mkSpiral; cbn [Geometry.g_length]. lra.
Defined.

(** X14: the [while] loops of the spiral and of the ParamPoly3 branch end on
    their own condition: the spiral loop within [ceil(L / 0.05)] steps, each
    at least 0.05 long, the ParamPoly3 loop within [ceil(L / h) + 1] steps,
    [h] a lower bound of its steps computed from the coefficients.  Allowing
    more iterations changes no sample. *)
Theorem adaptive_loops_end (g : Geometry.Geom) (k0 dk L baseStep maxAngle : R)
  (px py th : R) (more : nat) :
  0 < L -> 0 < maxAngle ->
  Geometry.spiralLoop (Geometry.spiralFuel L + more) k0 dk L baseStep maxAngle
    0 px py th
  = Geometry.spiralLoop (Geometry.spiralFuel L) k0 dk L baseStep maxAngle 0 px py th
  /\ Geometry.poly3Loop (Geometry.poly3Fuel g L maxAngle + more) g L baseStep
       maxAngle 0
     = Geometry.poly3Loop (Geometry.poly3Fuel g L maxAngle) g L baseStep maxAngle 0.
Proof.
  intros HL Hm. split.
  - now apply LoopFacts.spiral_total.
  - now apply LoopFacts.poly3_total.
Qed.

Lemma adaptive_loops_end_witness :
  Geometry.spiralLoop (Geometry.spiralFuel 2 + 5) 0 0.1 2 0.7 0.03 0 0 0 0
  = Geometry.spiralLoop (Geometry.spiralFuel 2) 0 0.1 2 0.7 0.03 0 0 0 0.
Proof.
  apply (adaptive_loops_end (Geometry.mkLine 0 0 0 0 2) 0 0.1 2 0.7 0.03 0 0 0 5); lra.
Defined.

(** ** geometry.js: offsets and features *)

(** X15: [offsetPolyline] keeps the number of samples, their headings and
    their arc lengths, and moves every point by [|offset|] at right angles
    to its heading; offsetting twice is offsetting once by the sum, and
    offsetting by 0 changes nothing. *)
Theorem offsetPolyline_moves_sideways (samples : list Geometry.Sample) (a b : R) :
  map Geometry.p_th (Geometry.offsetPolyline samples a) = map Geometry.p_th samples
  /\ map Geometry.p_s (Geometry.offsetPolyline samples a) = map Geometry.p_s samples
  /\ Forall2 (fun p q =>
                sqrt ((Geometry.p_x q - Geometry.p_x p) * (Geometry.p_x q - Geometry.p_x p)
                      + (Geometry.p_y q - Geometry.p_y p) * (Geometry.p_y q - Geometry.p_y p))
                = Rabs a
                /\ (Geometry.p_x q - Geometry.p_x p) * cos (Geometry.p_th p)
                   + (Geometry.p_y q - Geometry.p_y p) * sin (Geometry.p_th p) = 0)
       samples (Geometry.offsetPolyline samples a)
  /\ Geometry.offsetPolyline (Geometry.offsetPolyline samples a) b
     = Geometry.offsetPolyline samples (a + b)
  /\ Geometry.offsetPolyline samples 0 = samples.
Proof.
  unfold Geometry.offsetPolyline.
  split; [now rewrite map_map|]. split; [now rewrite map_map|]. split; [|split].
  - induction samples as [|p l IH]; cbn [map]; constructor; [|exact IH].
    cbv zeta. cbn [Geometry.p_x Geometry.p_y]. split; [|ring].
    pose proof (sin2_cos2 (Geometry.p_th p)) as H. unfold Rsqr in H.
    replace ((Geometry.p_x p + - sin (Geometry.p_th p) * a - Geometry.p_x p)
             * (Geometry.p_x p + - sin (Geometry.p_th p) * a - Geometry.p_x p)
             + (Geometry.p_y p + cos (Geometry.p_th p) * a - Geometry.p_y p)
               * (Geometry.p_y p + cos (Geometry.p_th p) * a - Geometry.p_y p))
      with ((sin (Geometry.p_th p) * sin (Geometry.p_th p)
             + cos (Geometry.p_th p) * cos (Geometry.p_th p)) * (a * a)) by ring.
    rewrite H, Rmult_1_l. apply sqrt_Rsqr_abs.
  - rewrite map_map. apply map_ext. intros p. cbv zeta.
    cbn [Geometry.p_x Geometry.p_y Geometry.p_th Geometry.p_s]. f_equal; ring.
  - rewrite <- (map_id samples) at 2. apply map_ext. intros [x y th s]. cbv zeta.
    cbn [Geometry.p_x Geometry.p_y Geometry.p_th Geometry.p_s]. f_equal; ring.
Qed.

(** X16: for a non-empty left boundary, the ring built by [toPolygon] is
    closed, its first vertex repeated at the end, and it has one vertex per
    left sample, one per right sample, and the closing one; the left
    boundary comes in its order, the right one reversed; [toLineString]
    has one coordinate per sample, in order. *)
Theorem toPolygon_ring_closed {C P : Type} (p0 : Geometry.Sample)
  (leftSamples rightSamples : list Geometry.Sample)
  (projector : R * R -> C) (properties : P) :
  let ring := Geometry.pg_ring
                (Geometry.toPolygon (p0 :: leftSamples) rightSamples projector properties) in
  let pr := fun p => projector (Geometry.p_x p, Geometry.p_y p) in
  hd_error ring = Some (pr p0)
  /\ hd_error (rev ring) = Some (pr p0)
  /\ List.length ring
     = (List.length (p0 :: leftSamples) + List.length rightSamples + 1)%nat
  /\ ring = map pr (p0 :: leftSamples) ++ map pr (rev rightSamples) ++ [pr p0]
  /\ Geometry.ls_coordinates
       (Geometry.toLineString (P := P) (p0 :: leftSamples) projector)
     = map pr (p0 :: leftSamples).
Proof.
  cbv zeta. unfold Geometry.toPolygon, Geometry.toLineString.
  cbn [Geometry.pg_ring Geometry.ls_coordinates map firstn].
  split; [reflexivity|]. split; [|split; [|split]].
  - rewrite app_assoc. apply EndpointFacts.hd_error_rev_snoc.
  - rewrite !length_app. cbn [List.length].
    rewrite length_rev, !length_map. lia.
  - now rewrite map_rev.
  - reflexivity.
Qed.

Module SequenceFacts.
Import Geometry.

Lemma adaptive_nonpositive (g : Geom) (opts : Opts) :
  g_length g <= 0 -> sampleSegmentAdaptive g opts = [].
Proof.
  intros H. unfold sampleSegmentAdaptive.
  now rewrite (proj2 (gtb_false_iff _ _)) by exact H.
Qed.

End SequenceFacts.

(** X17: a primitive of non-positive length adds no sample to the samples of
    a road: the sequence is sampled as if the primitive were not there. *)
Theorem empty_primitive_skipped (pre post : list Geometry.Geom) (g : Geometry.Geom)
  (opts : Geometry.SeqOpts) :
  Geometry.g_length g <= 0 ->
  Geometry.sampleGeometrySequence (pre ++ g :: post) opts
  = Geometry.sampleGeometrySequence (pre ++ post) opts.
Proof.
  intros H. unfold Geometry.sampleGeometrySequence. cbv zeta.
  rewrite !fold_left_app. cbn [fold_left].
  rewrite SequenceFacts.adaptive_nonpositive by exact H.
  cbn [map]. f_equal.
  match goal with |- ?o ++ match ?o with _ => _ end = _ => destruct o end;
    now rewrite app_nil_r.
Qed.

Lemma empty_primitive_skipped_witness :
  Geometry.sampleGeometrySequence
    ([Geometry.mkLine 0 0 0 0 1] ++ Geometry.mkLine 1 1 0 0 0 :: [])
    (Geometry.mkSeqOpts None None)
  = Geometry.sampleGeometrySequence ([Geometry.mkLine 0 0 0 0 1] ++ [])
      (Geometry.mkSeqOpts None None).
Proof.
  apply (empty_primitive_skipped [Geometry.mkLine 0 0 0 0 1] []
           (Geometry.mkLine 1 1 0 0 0) (Geometry.mkSeqOpts None None)).
  unfold Geometry.mkLine; cbn [Geometry.g_length]. lra.
Defined.


(** ** opendrive.js: widths and planView *)

Section PickLast.

Context {A : Type} (test : A -> bool).

(** a loop that overwrites its candidate with every element passing a test
    ends with the last such element, or with the candidate it started from *)
Lemma fold_pick_none (l : list A) (c : A) :
  (forall w, In w l -> test w = false) ->
  fold_left (fun seg w => if test w then w else seg) l c = c.
Proof.
  revert c; induction l as [|x l IH]; intros c H; cbn [fold_left]; [reflexivity|].
  rewrite (H x (or_introl eq_refl)). apply IH. intros w Hw. apply H. now right.
Qed.

Lemma fold_pick_last (pre post : list A) (w c : A) :
  test w = true -> (forall v, In v post -> test v = false) ->
  fold_left (fun seg w => if test w then w else seg) (pre ++ w :: post) c = w.
Proof.
  intros Hw Hpost. rewrite fold_left_app. cbn [fold_left]. rewrite Hw.
  now apply fold_pick_none.
Qed.

Lemma fold_pick_in (l : list A) (c : A) :
  fold_left (fun seg w => if test w then w else seg) l c = c
  \/ In (fold_left (fun seg w => if test w then w else seg) l c) l.
Proof.
  revert c; induction l as [|x l IH]; intros c; cbn [fold_left]; [now left|].
  destruct (test x).
  - destruct (IH x) as [->|H]; right; [now left|now right].
  - destruct (IH c) as [H|H]; [now left|right; now right].
Qed.

End PickLast.

(** X18: [laneWidthAt] is 0 without width records; otherwise it evaluates
    the cubic of one record at the distance from that record's offset: the
    last record, in array order, whose offset is at most [s + 1e-9], or the
    first record when [s] lies before every offset. *)
Theorem laneWidthAt_selects (w0 : OpenDrive.Width) (rest : list OpenDrive.Width)
  (s : R) :
  OpenDrive.laneWidthAt [] s = 0
  /\ exists seg,
       In seg (w0 :: rest)
       /\ OpenDrive.laneWidthAt (w0 :: rest) s
          = (let ds := s - OpenDrive.w_sOffset seg in
             OpenDrive.w_a seg + OpenDrive.w_b seg * ds + OpenDrive.w_c seg * ds * ds
             + OpenDrive.w_d seg * ds * ds * ds)
       /\ ((forall w, In w (w0 :: rest) -> s + 1e-9 < OpenDrive.w_sOffset w) ->
           seg = w0)
       /\ (forall pre w post,
             w0 :: rest = pre ++ w :: post ->
             OpenDrive.w_sOffset w <= s + 1e-9 ->
             (forall v, In v post -> s + 1e-9 < OpenDrive.w_sOffset v) ->
             seg = w).
Proof.
  split; [reflexivity|].
  set (test := fun w => Js.geb (s + 1e-9) (OpenDrive.w_sOffset w)).
  exists (fold_left (fun seg w => if test w then w else seg) (w0 :: rest) w0).
  split; [|split; [reflexivity|split]].
  - destruct (fold_pick_in test (w0 :: rest) w0) as [->|H]; [now left|exact H].
  - intros H. apply fold_pick_none. intros w Hw. unfold test.
    apply geb_false_iff. specialize (H w Hw). lra.
  - intros pre w post E Hw Hpost. rewrite E. apply fold_pick_last.
    + unfold test. apply geb_true_iff. lra.
    + intros v Hv. unfold test. apply geb_false_iff. specialize (Hpost v Hv). lra.
Qed.

Module PlanViewFacts.
Import Dom OpenDrive.

Lemma fold_pushSome {A B : Type} (f : A -> option B) (l : list A) (acc : list B) :
  fold_left (fun acc g => pushSome acc (f g)) l acc
  = acc ++ flat_map (fun g => match f g with Some b => [b] | None => [] end) l.
Proof.
  revert acc; induction l as [|x l IH]; intros acc; cbn [fold_left flat_map].
  - now rewrite app_nil_r.
  - rewrite IH. destruct (f x); cbn [pushSome]; [now rewrite <- app_assoc|reflexivity].
Qed.

End PlanViewFacts.

(** X19: the planView of a road holds, in document order, one primitive for
    each [geometry] element that has a [line], [arc], [spiral] or
    [paramPoly3] child; a [geometry] element with none of them is left out.
    The first of these children, in this order of names, gives the type. *)
Theorem planView_known_types (r g : Dom.Node) :
  OpenDrive.rd_planView (OpenDrive.readRoad r)
  = flat_map (fun g => match OpenDrive.readGeometry g with
                       | Some pg => [pg]
                       | None => []
                       end)
      (Dom.grandChildrenNamed r "planView" "geometry")
  /\ (OpenDrive.readGeometry g = None
      <-> Dom.childNamed g "line" = None /\ Dom.childNamed g "arc" = None
          /\ Dom.childNamed g "spiral" = None
          /\ Dom.childNamed g "paramPoly3" = None)
  /\ (forall pg, OpenDrive.readGeometry g = Some pg ->
        match OpenDrive.pv_shape pg with
        | OpenDrive.SLine => Dom.childNamed g "line" <> None
        | OpenDrive.SArc _ =>
            Dom.childNamed g "line" = None /\ Dom.childNamed g "arc" <> None
        | OpenDrive.SSpiral _ _ =>
            Dom.childNamed g "line" = None /\ Dom.childNamed g "arc" = None
            /\ Dom.childNamed g "spiral" <> None
        | OpenDrive.SPoly3 _ _ _ _ _ _ _ _ =>
            Dom.childNamed g "line" = None /\ Dom.childNamed g "arc" = None
            /\ Dom.childNamed g "spiral" = None
            /\ Dom.childNamed g "paramPoly3" <> None
        end).
Proof.
  split; [|split].
  - unfold OpenDrive.readRoad. cbn [OpenDrive.rd_planView].
    now rewrite PlanViewFacts.fold_pushSome.
  - unfold OpenDrive.readGeometry.
    destruct (Dom.childNamed g "line"); [split; [discriminate|intros [H _]; discriminate]|].
    destruct (Dom.childNamed g "arc");
      [split; [discriminate|intros (_ & H & _); discriminate]|].
    destruct (Dom.childNamed g "spiral");
      [split; [discriminate|intros (_ & _ & H & _); discriminate]|].
    destruct (Dom.childNamed g "paramPoly3");
      [split; [discriminate|intros (_ & _ & _ & H); discriminate]|].
    split; intros; repeat split; reflexivity.
  - intros pg. unfold OpenDrive.readGeometry.
    destruct (Dom.childNamed g "line").
    { intros [= <-]. cbn [OpenDrive.pv_shape]. discriminate. }
    destruct (Dom.childNamed g "arc").
    { intros [= <-]. cbn [OpenDrive.pv_shape]. split; [reflexivity|discriminate]. }
    destruct (Dom.childNamed g "spiral").
    { intros [= <-]. cbn [OpenDrive.pv_shape]. repeat split; discriminate. }
    destruct (Dom.childNamed g "paramPoly3").
    { intros [= <-]. cbn [OpenDrive.pv_shape]. repeat split; discriminate. }
    discriminate.
Qed.

Module ReadLanesFacts.
Import Dom OpenDrive.

Lemma Number_digit_1 : JsString.Number "1" = Some 1.
Proof.
  cbv -[IZR Rmult powerRZ Ropp Z.sub].
  change (powerRZ 10 (0 - 0)) with 1. f_equal. lra.
Qed.

Lemma Number_digit_2 : JsString.Number "2" = Some 2.
Proof.
  cbv -[IZR Rmult powerRZ Ropp Z.sub].
  change (powerRZ 10 (0 - 0)) with 1. f_equal. lra.
Qed.

End ReadLanesFacts.

(** X20: [readLanes] returns no lane for an absent container; for a
    container whose lanes all have a numeric id it returns one record per
    [lane] child, ordered by descending id. *)
Theorem readLanes_descending (c : Dom.Node) :
  (forall lane, In lane (Dom.childrenNamed c "lane") ->
                OpenDrive.num (Dom.getAttribute lane "id") <> None) ->
  let key := fun l => match OpenDrive.ln_id l with Some i => i | None => 0 end in
  OpenDrive.readLanes None = []
  /\ Permutation (OpenDrive.readLanes (Some c))
       (map OpenDrive.readLane (Dom.childrenNamed c "lane"))
  /\ StronglySorted (fun u v => key v <= key u) (OpenDrive.readLanes (Some c)).
Proof.
  intros _. cbv zeta. split; [reflexivity|]. unfold OpenDrive.readLanes. split.
  - apply sort_by_perm.
  - match goal with
    | |- StronglySorted _ (Js.sort_by ?k ?l) =>
        pose proof (sort_by_sorted k l) as H; revert H;
        generalize (Js.sort_by k l)
    end.
    intros l H. induction H as [|x l Hl IH Hx]; constructor; [exact IH|].
    rewrite Forall_forall in *. intros y Hy. specialize (Hx y Hy). cbv beta in Hx. lra.
Qed.

Lemma readLanes_descending_witness :
  Permutation
    (OpenDrive.readLanes
       (Some (Dom.Element "left" []
                [Dom.Element "lane" [("id", "1")]%string [];
                 Dom.Element "lane" [("id", "2")]%string []])))
    (map OpenDrive.readLane
       (Dom.childrenNamed
          (Dom.Element "left" []
             [Dom.Element "lane" [("id", "1")]%string [];
              Dom.Element "lane" [("id", "2")]%string []]) "lane")).
Proof.
  apply (readLanes_descending
           (Dom.Element "left" []
              [Dom.Element "lane" [("id", "1")]%string [];
               Dom.Element "lane" [("id", "2")]%string []])).
  intros lane [<-|[<-|[]]]; cbn [Dom.getAttribute find fst snd String.eqb Ascii.eqb Bool.eqb];
    unfold OpenDrive.num.
  - rewrite ReadLanesFacts.Number_digit_1. discriminate.
  - rewrite ReadLanesFacts.Number_digit_2. discriminate.
Defined.

(** ** index.js: the offsets of the lanes of a section *)

Module OffsetFacts.
Import Geometry OpenDrive LaneBuilder RoadSamples.

Lemma fold_add_widthSum (keep : LaneRec -> bool) (lanes : list LaneRec) (sIn a : R) :
  fold_left
    (fun outer ln =>
       let w := laneWidthAt (l_widths ln) sIn in
       if keep ln then outer + w else outer)
    lanes a
  = a + widthSum keep lanes sIn.
Proof.
  revert a; induction lanes as [|ln l IH]; intros a; cbn [fold_left widthSum fold_right].
  - ring.
  - rewrite IH. cbv zeta. fold (widthSum keep l sIn). destruct (keep ln); ring.
Qed.

Lemma fold_sub_widthSum (keep : LaneRec -> bool) (lanes : list LaneRec) (sIn a : R) :
  fold_left
    (fun outer ln =>
       let w := laneWidthAt (l_widths ln) sIn in
       if keep ln then outer - w else outer)
    lanes a
  = a - widthSum keep lanes sIn.
Proof.
  revert a; induction lanes as [|ln l IH]; intros a; cbn [fold_left widthSum fold_right].
  - ring.
  - rewrite IH. cbv zeta. fold (widthSum keep l sIn). destruct (keep ln); ring.
Qed.

Lemma widthSum_perm (keep : LaneRec -> bool) (l l' : list LaneRec) (sIn : R) :
  Permutation l l' -> widthSum keep l sIn = widthSum keep l' sIn.
Proof.
  induction 1 as [|x l l' _ IH|x y l|l l' l'' _ IH1 _ IH2];
    cbn [widthSum fold_right].
  - reflexivity.
  - fold (widthSum keep l sIn) (widthSum keep l' sIn). now rewrite IH.
  - destruct (keep x), (keep y); ring.
  - now rewrite IH1.
Qed.

Lemma outerAt_left (road : Road) (sec : option (nat * Section)) (id s : R) :
  outerAt road left sec id s
  = laneOffsetAt road s
    + widthSum (fun ln => Js.leb (l_id ln) id) (lanesOf left sec) (s - startOf sec).
Proof. unfold outerAt. apply fold_add_widthSum. Qed.

Lemma outerAt_right (road : Road) (sec : option (nat * Section)) (id s : R) :
  outerAt road right sec id s
  = laneOffsetAt road s
    - widthSum (fun ln => Js.geb (l_id ln) id) (lanesOf right sec) (s - startOf sec).
Proof.
  unfold outerAt. rewrite fold_sub_widthSum. f_equal.
  apply widthSum_perm, sort_by_perm.
Qed.

Lemma findLane_absent (lanes : list LaneRec) (a : R) :
  ~ In a (map l_id lanes) -> findLane lanes a = None.
Proof.
  induction lanes as [|ln l IH]; cbn [map In findLane find]; intros H; [reflexivity|].
  rewrite (proj2 (eqb_false_iff _ _)) by (intros E; apply H; now left).
  apply IH. intros Hin. apply H. now right.
Qed.

(** the lanes up to [a] are the lanes up to [b] and the lane [a], when no
    lane lies strictly between *)
Lemma widthSum_step_left (lanes : list LaneRec) (a b sIn : R) :
  b < a -> NoDup (map l_id lanes) ->
  (forall ln, In ln lanes -> ~ (b < l_id ln < a)) ->
  widthSum (fun ln => Js.leb (l_id ln) a) lanes sIn
  = widthSum (fun ln => Js.leb (l_id ln) b) lanes sIn
    + laneWidthAt (match findLane lanes a with Some ln => l_widths ln | None => [] end) sIn.
Proof.
  intros Hab. induction lanes as [|ln l IH]; intros Hnd Hgap.
  - cbn. ring.
  - cbn [map] in Hnd. inversion Hnd as [|? ? Hnin Hnd']; subst.
    cbn [widthSum fold_right findLane find].
    fold (widthSum (fun ln => Js.leb (l_id ln) a) l sIn)
         (widthSum (fun ln => Js.leb (l_id ln) b) l sIn).
    fold (findLane l a).
    rewrite IH; [|exact Hnd'|intros x Hx; apply Hgap; now right].
    destruct (Js.eqb (l_id ln) a) eqn:E.
    + apply eqb_true_iff in E. rewrite E in *.
      rewrite (proj2 (leb_true_iff _ _)) by lra.
      rewrite (proj2 (leb_false_iff _ _)) by lra.
      rewrite (findLane_absent l a Hnin). cbn [laneWidthAt]. ring.
    + apply eqb_false_iff in E.
      pose proof (Hgap ln (or_introl eq_refl)) as Hg.
      destruct (Rle_lt_dec (l_id ln) b) as [Hle|Hlt].
      * rewrite !(proj2 (leb_true_iff _ _)) by lra. ring.
      * assert (a < l_id ln) by lra.
        rewrite !(proj2 (leb_false_iff _ _)) by lra. ring.
Qed.

Lemma widthSum_step_right (lanes : list LaneRec) (a b sIn : R) :
  a < b -> NoDup (map l_id lanes) ->
  (forall ln, In ln lanes -> ~ (a < l_id ln < b)) ->
  widthSum (fun ln => Js.geb (l_id ln) a) lanes sIn
  = widthSum (fun ln => Js.geb (l_id ln) b) lanes sIn
    + laneWidthAt (match findLane lanes a with Some ln => l_widths ln | None => [] end) sIn.
Proof.
  intros Hab. induction lanes as [|ln l IH]; intros Hnd Hgap.
  - cbn. ring.
  - cbn [map] in Hnd. inversion Hnd as [|? ? Hnin Hnd']; subst.
    cbn [widthSum fold_right findLane find].
    fold (widthSum (fun ln => Js.geb (l_id ln) a) l sIn)
         (widthSum (fun ln => Js.geb (l_id ln) b) l sIn).
    fold (findLane l a).
    rewrite IH; [|exact Hnd'|intros x Hx; apply Hgap; now right].
    destruct (Js.eqb (l_id ln) a) eqn:E.
    + apply eqb_true_iff in E. rewrite E in *.
      rewrite (proj2 (geb_true_iff _ _)) by lra.
      rewrite (proj2 (geb_false_iff _ _)) by lra.
      rewrite (findLane_absent l a Hnin). cbn [laneWidthAt]. ring.
    + apply eqb_false_iff in E.
      pose proof (Hgap ln (or_introl eq_refl)) as Hg.
      destruct (Rle_lt_dec b (l_id ln)) as [Hle|Hlt].
      * rewrite !(proj2 (geb_true_iff _ _)) by lra. ring.
      * assert (l_id ln < a) by lra.
        rewrite !(proj2 (geb_false_iff _ _)) by lra. ring.
Qed.

Lemma widthSum_none (keep : LaneRec -> bool) (lanes : list LaneRec) (sIn : R) :
  (forall ln, In ln lanes -> keep ln = false) -> widthSum keep lanes sIn = 0.
Proof.
  induction lanes as [|ln l IH]; intros H; cbn [widthSum fold_right]; [reflexivity|].
  rewrite (H ln (or_introl eq_refl)). apply IH. intros x Hx. apply H. now right.
Qed.

End OffsetFacts.

(** X21: the lanes of a side share their boundaries.  With distinct lane
    ids, the inner offset that [computeOffsets] gives for the lane [a] is
    the outer offset it gives for the id [b] next to it toward the
    reference line ([b < a] on the left, [a < b] on the right, no lane id
    strictly between); beyond the innermost lane the outer offset is the
    lane offset of the road. *)
Theorem lanes_share_boundaries (road : LaneBuilder.Road) (side : LaneBuilder.Side)
  (secOverride : option (nat * LaneBuilder.Section)) (a b s : R) :
  let sec := match secOverride with
             | Some _ => secOverride
             | None => LaneBuilder.sectionAt road s
             end in
  let lanes := LaneBuilder.lanesOf side sec in
  let toward := fun x y => match side with
                           | LaneBuilder.left => x < y
                           | LaneBuilder.right => y < x
                           end in
  NoDup (map LaneBuilder.l_id lanes) ->
  toward b a ->
  (forall ln, In ln lanes ->
              ~ (toward b (LaneBuilder.l_id ln) /\ toward (LaneBuilder.l_id ln) a)) ->
  snd (RoadSamples.computeOffsets road side a s secOverride)
  = snd (fst (RoadSamples.computeOffsets road side b s secOverride))
  /\ ((forall ln, In ln lanes -> toward b (LaneBuilder.l_id ln)) ->
      snd (fst (RoadSamples.computeOffsets road side b s secOverride))
      = LaneBuilder.laneOffsetAt road s).
Proof.
  cbv zeta. unfold RoadSamples.computeOffsets. cbv zeta. cbn [fst snd].
  set (sec := match secOverride with Some _ => secOverride | None => _ end).
  intros Hnd Hab Hgap. destruct side.
  - rewrite !OffsetFacts.outerAt_left. unfold LaneBuilder.innerOf, LaneBuilder.widthAt.
    rewrite (OffsetFacts.widthSum_step_left _ a b) by
      (try assumption; intros ln Hln [H1 H2]; apply (Hgap ln Hln); split; assumption).
    split; [ring|].
    intros Hall. rewrite OffsetFacts.widthSum_none; [ring|].
    intros ln Hln. apply leb_false_iff. specialize (Hall ln Hln). cbv beta in Hall. lra.
  - rewrite !OffsetFacts.outerAt_right. unfold LaneBuilder.innerOf, LaneBuilder.widthAt.
    rewrite (OffsetFacts.widthSum_step_right _ a b) by
      (try assumption; intros ln Hln [H1 H2]; apply (Hgap ln Hln); split; assumption).
    split; [ring|].
    intros Hall. rewrite OffsetFacts.widthSum_none; [ring|].
    intros ln Hln. apply geb_false_iff. specialize (Hall ln Hln). cbv beta in Hall. lra.
Qed.

Lemma lanes_share_boundaries_witness :
  snd (RoadSamples.computeOffsets RoadSamples.fourLaneRoad LaneBuilder.left 2 5
         (Some (0%nat, RoadSamples.fourLanes)))
  = snd (fst (RoadSamples.computeOffsets RoadSamples.fourLaneRoad LaneBuilder.left 1 5
                (Some (0%nat, RoadSamples.fourLanes)))).
Proof.
  apply (lanes_share_boundaries RoadSamples.fourLaneRoad LaneBuilder.left
           (Some (0%nat, RoadSamples.fourLanes)) 2 1 5).
  - cbn [LaneBuilder.lanesOf RoadSamples.fourLanes LaneBuilder.s_left map
         LaneBuilder.l_id].
    constructor; [intros [H|[]]; lra|]. constructor; [intros []|constructor].
  - lra.
  - cbn [LaneBuilder.lanesOf RoadSamples.fourLanes LaneBuilder.s_left].
    intros ln [<-|[<-|[]]]; cbn [LaneBuilder.l_id]; lra.
Defined.

(** ** index.js: samples at the section boundaries *)

Module EnrichFacts.
Import Geometry OpenDrive LaneBuilder RoadSamples.

Lemma pushWidths_keeps (ls : Section) (arr : list LaneRec) (set : list R) (y : R) :
  In y set -> In y (pushWidths ls arr set).
Proof.
  unfold pushWidths. revert set. induction arr as [|ln arr IH]; intros set H;
    cbn [fold_left]; [exact H|].
  apply IH. apply fold_set_add_in. now right.
Qed.

Lemma enforceS_keeps (secs : list Section) (set : list R) (y : R) :
  In y set ->
  In y (fold_left
          (fun set ls =>
             pushWidths ls (s_right ls)
               (pushWidths ls (s_left ls) (Js.set_add (s_s ls) set)))
          secs set).
Proof.
  revert set. induction secs as [|ls secs IH]; intros set H; cbn [fold_left]; [exact H|].
  apply IH. do 2 apply pushWidths_keeps. apply set_add_in. now right.
Qed.

Lemma section_start_enforced (road : Road) (ls : Section) :
  In ls (laneSections road) -> In (s_s ls) (ticks road).
Proof.
  intros H. unfold ticks.
  eapply Permutation_in; [symmetry; apply sort_by_perm|].
  unfold enforceS. generalize (@nil R).
  induction (laneSections road) as [|x secs IH]; [destruct H|].
  intros set. cbn [fold_left]. destruct H as [->|H].
  - apply enforceS_keeps. do 2 apply pushWidths_keeps. apply set_add_in. now left.
  - now apply IH.
Qed.

Lemma interp_tag (p0 p1 : Sample) (t : R) :
  p_s p0 < p_s p1 ->
  p_s (interpPoint p0 p1 ((t - p_s p0) / (p_s p1 - p_s p0))) = t.
Proof.
  intros H. unfold interpPoint. cbv zeta. cbn [p_s]. field. lra.
Qed.

Lemma between_in (tks : list R) (p0 p1 q : Sample) :
  In q (between tks p0 p1)
  <-> q = p1
      \/ exists t, In t tks /\ p_s p0 + 1e-9 < t < p_s p1 - 1e-9
                   /\ q = interpPoint p0 p1 ((t - p_s p0) / (p_s p1 - p_s p0)).
Proof.
  unfold between. cbv zeta. rewrite in_app_iff, in_flat_map. split.
  - intros [[t [Ht Hq]]|[<-|[]]]; [|now left].
    destruct (Js.gtb t (p_s p0 + 1e-9)) eqn:E1; [|destruct Hq].
    destruct (Js.ltb t (p_s p1 - 1e-9)) eqn:E2; [|destruct Hq].
    cbn [andb] in Hq. destruct Hq as [<-|[]].
    apply gtb_true_iff in E1. apply ltb_true_iff in E2.
    right. exists t. repeat split; try assumption; lra.
  - intros [->|[t [Ht [[H1 H2] ->]]]]; [right; now left|].
    left. exists t. split; [exact Ht|].
    rewrite (proj2 (gtb_true_iff _ _)) by lra.
    rewrite (proj2 (ltb_true_iff _ _)) by lra. now left.
Qed.

Lemma fillFrom_in (tks : list R) (rest : list Sample) :
  forall (p0 q : Sample),
    In q (fillFrom tks p0 rest)
    <-> In q rest
        \/ exists pre q0 q1 post t,
             p0 :: rest = pre ++ q0 :: q1 :: post
             /\ In t tks /\ p_s q0 + 1e-9 < t < p_s q1 - 1e-9
             /\ q = interpPoint q0 q1 ((t - p_s q0) / (p_s q1 - p_s q0)).
Proof.
  induction rest as [|p1 rest IH]; intros p0 q; cbn [fillFrom].
  - split; [intros []|]. intros [[]|(pre & q0 & q1 & post & t & E & _)].
    destruct pre as [|a [|b pre]]; discriminate.
  - rewrite in_app_iff, between_in, IH. split.
    + intros [[->|(t & Ht & Hin & ->)]|[H|(pre & q0 & q1 & post & t & E & H)]].
      * left. now left.
      * right. exists [], p0, p1, rest, t. now repeat split.
      * left. now right.
      * right. exists (p0 :: pre), q0, q1, post, t. rewrite E. now split.
    + intros [[<-|H]|(pre & q0 & q1 & post & t & E & H)].
      * left. now left.
      * right. now left.
      * destruct pre as [|a pre].
        -- injection E as <- <- <-. left. right. exists t. exact H.
        -- injection E as <- E. right. right.
           exists pre, q0, q1, post, t. now split.
Qed.

End EnrichFacts.

(** X22: for a road with lane sections, the samples enriched by
    [buildGeometry] hold every original sample, are ordered by arc length,
    and hold a sample at every enforced arc length [t] that lies more than
    1e-9 inside an interval between two consecutive samples: the point
    interpolated linearly between them, tagged exactly [t].  The start of
    every lane section is enforced.  Nothing else is added. *)
Theorem enriched_samples (road : LaneBuilder.Road) (p0 : Geometry.Sample)
  (rest : list Geometry.Sample) :
  LaneBuilder.laneSections road <> [] ->
  let samples := p0 :: rest in
  let out := RoadSamples.enrichSamples road samples in
  (forall p, In p samples -> In p out)
  /\ StronglySorted (fun u v => Geometry.p_s u <= Geometry.p_s v) out
  /\ (forall ls, In ls (LaneBuilder.laneSections road) ->
                 In (LaneBuilder.s_s ls) (RoadSamples.ticks road))
  /\ (forall pre q0 q1 post t,
        samples = pre ++ q0 :: q1 :: post ->
        In t (RoadSamples.ticks road) ->
        Geometry.p_s q0 + 1e-9 < t < Geometry.p_s q1 - 1e-9 ->
        exists q,
          In q out /\ Geometry.p_s q = t
          /\ q = LaneBuilder.interpPoint q0 q1
                   ((t - Geometry.p_s q0) / (Geometry.p_s q1 - Geometry.p_s q0)))
  /\ (forall q, In q out ->
        In q samples \/ In (Geometry.p_s q) (RoadSamples.ticks road)).
Proof.
  intros Hsec. cbv zeta.
  assert (Hstart := EnrichFacts.section_start_enforced road).
  unfold RoadSamples.enrichSamples.
  destruct (RoadSamples.ticks road) as [|t0 tks] eqn:Et.
  { destruct (LaneBuilder.laneSections road) as [|ls secs]; [congruence|].
    specialize (Hstart ls (or_introl eq_refl)). try rewrite Et in Hstart.
    destruct Hstart. }
  try rewrite <- Et in Hstart. rewrite <- Et. clear Et t0 tks.
  set (filled := p0 :: RoadSamples.fillFrom (RoadSamples.ticks road) p0 rest).
  assert (Hperm : forall q, In q (Js.sort_by Geometry.p_s filled) <-> In q filled).
  { intros q. split; apply Permutation_in;
      [apply sort_by_perm|symmetry; apply sort_by_perm]. }
  split; [|split; [|split; [|split]]].
  - intros p Hp. apply Hperm. unfold filled. destruct Hp as [<-|Hp]; [now left|].
    right. apply EnrichFacts.fillFrom_in. now left.
  - apply sort_by_sorted.
  - exact Hstart.
  - intros pre q0 q1 post t E Ht Hin.
    exists (LaneBuilder.interpPoint q0 q1
              ((t - Geometry.p_s q0) / (Geometry.p_s q1 - Geometry.p_s q0))).
    split; [|split; [apply EnrichFacts.interp_tag; lra|reflexivity]].
    apply Hperm. right. apply EnrichFacts.fillFrom_in. right.
    exists pre, q0, q1, post, t. now repeat split.
  - intros q Hq. apply Hperm in Hq. destruct Hq as [<-|Hq]; [left; now left|].
    apply EnrichFacts.fillFrom_in in Hq.
    destruct Hq as [Hq|(pre & q0 & q1 & post & t & E & Ht & Hin & ->)].
    + left. now right.
    + right. rewrite EnrichFacts.interp_tag by lra. exact Ht.
Qed.

Lemma enriched_samples_witness :
  In (Geometry.mkSample 0 0 0 0)
    (RoadSamples.enrichSamples LaneBuilder.wedgeRoad
       (Geometry.mkSample 0 0 0 0 :: [Geometry.mkSample 1 0 0 1; Geometry.mkSample 2 0 0 2])).
Proof.
  apply (enriched_samples LaneBuilder.wedgeRoad (Geometry.mkSample 0 0 0 0)
           [Geometry.mkSample 1 0 0 1; Geometry.mkSample 2 0 0 2]).
  - discriminate.
  - now left.
Defined.

(** ** index.js: whole runs *)

Module WholeRunFacts.
Import Geometry OpenDrive LaneBuilder.

Lemma step_narrow {C : Type} (road : Road) (projector : R * R -> C) (track : Track)
  (prev : option Sample) (cur : Sample) (st : State C) :
  (forall w, laneWidthOn road track (p_s cur) = Some w -> w <= EPS) ->
  active st = false -> features st = [] ->
  active (trackStep road projector track prev cur st) = false
  /\ features (trackStep road projector track prev cur st) = [].
Proof.
  intros Hw Ha Hf. unfold trackStep, laneWidthOn in *.
  destruct (nodeAt track (sectionAt road (p_s cur))) as [node|].
  - cbv zeta. specialize (Hw _ eq_refl).
    rewrite (proj2 (gtb_false_iff _ _)) by exact Hw. rewrite Ha.
    cbn [active features]. now split.
  - rewrite Ha. now split.
Qed.

Lemma loop_narrow {C : Type} (road : Road) (projector : R * R -> C) (track : Track)
  (samples : list Sample) :
  forall (prev : option Sample) (st : State C),
    (forall p w, In p samples -> laneWidthOn road track (p_s p) = Some w -> w <= EPS) ->
    active st = false -> features st = [] ->
    active (trackLoop road projector track prev samples st) = false
    /\ features (trackLoop road projector track prev samples st) = [].
Proof.
  induction samples as [|cur rest IH]; intros prev st Hw Ha Hf; cbn [trackLoop].
  - now split.
  - destruct (step_narrow road projector track prev cur st) as [Ha' Hf']; try assumption.
    { intros w. apply Hw. now left. }
    apply IH; try assumption. intros p w Hp. apply Hw. now right.
Qed.

Lemma step_wide {C : Type} (road : Road) (projector : R * R -> C) (track : Track)
  (prev : option Sample) (cur : Sample) (st : State C) (w : R) :
  laneWidthOn road track (p_s cur) = Some w -> EPS < w ->
  active st = true ->
  let st' := trackStep road projector track prev cur st in
  active st' = true /\ features st' = features st /\ runType st' = runType st
  /\ exists pO pI,
       runOuter st' = runOuter st ++ [pO] /\ runInner st' = runInner st ++ [pI]
       /\ p_s pO = p_s cur /\ p_s pI = p_s cur.
Proof.
  intros Hw Hlt Ha. cbv zeta. unfold trackStep, laneWidthOn in *.
  destruct (nodeAt track (sectionAt road (p_s cur))) as [node|]; [|discriminate].
  cbv zeta. injection Hw as Hw. rewrite Hw.
  rewrite (proj2 (gtb_true_iff _ _)) by exact Hlt. rewrite Ha. cbn [negb].
  cbn [active features runType runOuter runInner].
  repeat split. eexists _, _. repeat split.
Qed.

Lemma loop_wide {C : Type} (road : Road) (projector : R * R -> C) (track : Track)
  (samples : list Sample) :
  forall (prev : option Sample) (st : State C),
    (forall p, In p samples ->
               exists w, laneWidthOn road track (p_s p) = Some w /\ EPS < w) ->
    active st = true ->
    let st' := trackLoop road projector track prev samples st in
    active st' = true /\ features st' = features st /\ runType st' = runType st
    /\ exists O I,
         runOuter st' = runOuter st ++ O /\ runInner st' = runInner st ++ I
         /\ map p_s O = map p_s samples /\ map p_s I = map p_s samples.
Proof.
  induction samples as [|cur rest IH]; intros prev st Hw Ha; cbn [trackLoop]; cbv zeta.
  - split; [exact Ha|]. split; [reflexivity|]. split; [reflexivity|].
    exists (@nil Sample), (@nil Sample). now rewrite !app_nil_r.
  - destruct (Hw cur (or_introl eq_refl)) as (w & Ew & Hlt).
    destruct (step_wide road projector track prev cur st w Ew Hlt Ha)
      as (Ha' & Hf' & Ht' & pO & pI & EO & EI & HsO & HsI).
    destruct (IH (Some cur) (trackStep road projector track prev cur st))
      as (Ha'' & Hf'' & Ht'' & O & I & EO' & EI' & HO & HI).
    { intros p Hp. apply Hw. now right. }
    { exact Ha'. }
    split; [exact Ha''|]. split; [congruence|]. split; [congruence|].
    exists (pO :: O), (pI :: I). rewrite EO', EI', EO, EI, <- !app_assoc.
    cbn [app map]. rewrite HO, HI, HsO, HsI. now repeat split.
Qed.

Lemma last_cons {A : Type} (l : list A) (a d : A) : last (a :: l) d = last l a.
Proof.
  revert a d; induction l as [|b l IH]; intros a d; [reflexivity|].
  change (last (a :: b :: l) d) with (last (b :: l) d).
  rewrite !IH. reflexivity.
Qed.

Lemma last_map {A B : Type} (f : A -> B) (l : list A) (d : A) :
  last (map f l) (f d) = f (last l d).
Proof.
  induction l as [|a l IH]; [reflexivity|].
  cbn [map]. rewrite !last_cons.
  clear IH. revert a. induction l as [|b l IH]; intros a; [reflexivity|].
  cbn [map]. rewrite !last_cons. apply IH.
Qed.

Lemma first_wide {C : Type} (road : Road) (projector : R * R -> C) (track : Track)
  (cur : Sample) (w : R) :
  laneWidthOn road track (p_s cur) = Some w -> EPS < w ->
  let st' : State C := trackStep road projector track None cur initial in
  active st' = true /\ features st' = []
  /\ exists pO pI,
       runOuter st' = [pO] /\ runInner st' = [pI]
       /\ p_s pO = p_s cur /\ p_s pI = p_s cur.
Proof.
  intros Hw Hlt. cbv zeta. unfold trackStep, laneWidthOn in *.
  destruct (nodeAt track (sectionAt road (p_s cur))) as [node|]; [|discriminate].
  cbv zeta. injection Hw as Hw. rewrite Hw.
  rewrite (proj2 (gtb_true_iff _ _)) by exact Hlt.
  cbn [initial active negb features runOuter runInner fst snd app].
  repeat split. eexists _, _. repeat split.
Qed.

End WholeRunFacts.

(** X23: a track whose lane is nowhere wider than [EPS] at the samples (or
    has no lane there at all) gives no polygon; so do no samples. *)
Theorem narrow_lane_no_polygon {C : Type} (road : LaneBuilder.Road)
  (projector : R * R -> C) (samples : list Geometry.Sample)
  (track : LaneBuilder.Track) :
  (forall p w, In p samples ->
               LaneBuilder.laneWidthOn road track (Geometry.p_s p) = Some w ->
               w <= LaneBuilder.EPS) ->
  LaneBuilder.buildLaneRunsTrack road projector samples track = [].
Proof.
  intros H. unfold LaneBuilder.buildLaneRunsTrack. cbv zeta.
  destruct (WholeRunFacts.loop_narrow road projector track samples None
              LaneBuilder.initial H eq_refl eq_refl) as [Ha Hf].
  now rewrite Ha, Hf.
Qed.

Lemma narrow_lane_no_polygon_witness :
  LaneBuilder.buildLaneRunsTrack LaneBuilder.wedgeRoad LaneBuilder.idProj
    [Geometry.mkSample 0 0 0 0; Geometry.mkSample 0.002 0 0 0.002;
     Geometry.mkSample 0.004 0 0 0.004]
    LaneBuilder.wedgeTrack = [].
Proof.
  apply (narrow_lane_no_polygon LaneBuilder.wedgeRoad LaneBuilder.idProj
           [Geometry.mkSample 0 0 0 0; Geometry.mkSample 0.002 0 0 0.002;
            Geometry.mkSample 0.004 0 0 0.004]
           LaneBuilder.wedgeTrack).
  intros p w Hp Hw. rewrite WedgeExample.wedge_laneWidthOn in Hw.
  injection Hw as <-. unfold LaneBuilder.EPS.
  destruct Hp as [<-|[<-|[<-|[]]]]; cbn [Geometry.p_s]; lra.
Defined.

(** X24: a track whose lane is wider than [EPS] at every one of at least
    two samples gives exactly one polygon: its run starts at the first
    sample and ends at the last, with one outer and one inner boundary point
    over every sample and no interpolated boundary point. *)
Theorem wide_lane_single_polygon {C : Type} (road : LaneBuilder.Road)
  (projector : R * R -> C) (p0 p1 : Geometry.Sample) (rest : list Geometry.Sample)
  (track : LaneBuilder.Track) :
  let samples := p0 :: p1 :: rest in
  (forall p, In p samples ->
             exists w, LaneBuilder.laneWidthOn road track (Geometry.p_s p) = Some w
                       /\ LaneBuilder.EPS < w) ->
  exists f O I,
    LaneBuilder.buildLaneRunsTrack road projector samples track = [f]
    /\ map Geometry.p_s O = map Geometry.p_s samples
    /\ map Geometry.p_s I = map Geometry.p_s samples
    /\ Geometry.pg_ring f = LaneBuilder.ringOf projector (LaneBuilder.t_side track) O I
    /\ LaneBuilder.p_s0 (Geometry.pg_properties f) = Geometry.p_s p0
    /\ LaneBuilder.p_s1 (Geometry.pg_properties f)
       = Geometry.p_s (last rest p1)
    /\ LaneBuilder.p_laneId (Geometry.pg_properties f) = LaneBuilder.lastNodeId track.
Proof.
  cbv zeta. intros Hw.
  unfold LaneBuilder.buildLaneRunsTrack. cbv zeta. cbn [LaneBuilder.trackLoop].
  destruct (Hw p0 (or_introl eq_refl)) as (w0 & E0 & H0).
  destruct (WholeRunFacts.first_wide (C := C) road projector track p0 w0 E0 H0)
    as (Ha & Hf & pO & pI & EO & EI & HsO & HsI).
  set (st1 := LaneBuilder.trackStep road projector track None p0 LaneBuilder.initial) in *.
  destruct (WholeRunFacts.loop_wide road projector track (p1 :: rest) (Some p0) st1)
    as (Ha' & Hf' & Ht' & O & I & EO' & EI' & HO & HI).
  { intros p Hp. apply Hw. now right. }
  { exact Ha. }
  cbn [LaneBuilder.trackLoop] in Ha', Hf', Ht', EO', EI'.
  rewrite Ha'. rewrite EO', EI', Hf', Hf, EO, EI.
  destruct O as [|o1 O]; [discriminate|]. destruct I as [|i1 I]; [discriminate|].
  unfold LaneBuilder.pushRun. cbn [app List.length Nat.leb andb].
  eexists _, (pO :: o1 :: O), (pI :: i1 :: I). split; [reflexivity|].
  cbn [map] in HO, HI. cbn [map]. rewrite HO, HI, HsO, HsI.
  split; [reflexivity|]. split; [reflexivity|].
  split; [apply LaneFacts.runPolygon_ring|].
  assert (Hprops : forall side props,
             Geometry.pg_properties
               (LaneBuilder.runPolygon projector side (pO :: o1 :: O) (pI :: i1 :: I) props)
             = props) by (intros [] ?; reflexivity).
  rewrite Hprops. cbn [LaneBuilder.p_s0 LaneBuilder.p_s1 LaneBuilder.p_laneId
                       LaneBuilder.firstS].
  split; [exact HsO|]. split; [|reflexivity].
  unfold LaneBuilder.finalS.
  assert (Hl : forall (l : list Geometry.Sample) (a : Geometry.Sample),
             match rev (a :: l) with
             | p :: _ => Geometry.p_s p
             | [] => 0
             end = last (map Geometry.p_s l) (Geometry.p_s a)).
  { intros l. induction l as [|b l IH] using rev_ind; intros a; [reflexivity|].
    rewrite app_comm_cons, rev_app_distr, map_app. cbn [rev app map].
    now rewrite last_last. }
  rewrite (Hl (o1 :: O) pO). cbn [map]. rewrite HO, HsO.
  change (Geometry.p_s p1 :: map Geometry.p_s rest)
    with (map Geometry.p_s (p1 :: rest)).
  rewrite WholeRunFacts.last_map, WholeRunFacts.last_cons. reflexivity.
Qed.

Lemma wide_lane_single_polygon_witness :
  exists f,
    LaneBuilder.buildLaneRunsTrack RoadSamples.fourLaneRoad LaneBuilder.idProj
      [Geometry.mkSample 0 0 0 0; Geometry.mkSample 1 0 0 1]
      (LaneBuilder.mkTrack LaneBuilder.left [LaneBuilder.mkNode 0 1])
    = [f].
Proof.
  destruct (wide_lane_single_polygon RoadSamples.fourLaneRoad LaneBuilder.idProj
              (Geometry.mkSample 0 0 0 0) (Geometry.mkSample 1 0 0 1) []
              (LaneBuilder.mkTrack LaneBuilder.left [LaneBuilder.mkNode 0 1]))
    as (f & O & I & E & _).
  - intros p Hp. exists 3.5.
    assert (Hsec : forall s, LaneBuilder.sectionAt RoadSamples.fourLaneRoad s
                             = Some (0%nat, RoadSamples.fourLanes)).
    { intros s. unfold LaneBuilder.sectionAt, RoadSamples.fourLaneRoad, LaneBuilder.indexed.
      cbn [LaneBuilder.laneSections List.length seq combine fold_left snd].
      now destruct (Js.geb _ _). }
    unfold LaneBuilder.laneWidthOn. rewrite Hsec.
    cbn [LaneBuilder.nodeAt LaneBuilder.t_nodes find LaneBuilder.n_si Nat.eqb
         LaneBuilder.t_side LaneBuilder.n_id].
    split; [|unfold LaneBuilder.EPS; lra]. f_equal.
    unfold LaneBuilder.widthAt, LaneBuilder.findLane, LaneBuilder.lanesOf,
      RoadSamples.fourLanes, LaneBuilder.startOf, OpenDrive.laneWidthAt.
    cbn [LaneBuilder.s_left find LaneBuilder.l_id]. repeat js_decide.
    cbn [LaneBuilder.l_widths fold_left LaneBuilder.s_s].
    destruct (Js.geb _ _); cbn [OpenDrive.w_sOffset OpenDrive.w_a OpenDrive.w_b
                                 OpenDrive.w_c OpenDrive.w_d]; lra.
  - now exists f.
Defined.

(** ** index.js: text for the popups *)

Module HtmlFacts.
Import Html.

Lemma escapeChar_cases (c : ascii) :
  (special c = true
   /\ (escapeChar c = list_ascii_of_string "&amp;" /\ c = "&"%char
       \/ escapeChar c = list_ascii_of_string "&lt;" /\ c = "<"%char
       \/ escapeChar c = list_ascii_of_string "&gt;" /\ c = ">"%char
       \/ escapeChar c = list_ascii_of_string "&quot;" /\ c = "034"%char
       \/ escapeChar c = list_ascii_of_string "&#39;" /\ c = "'"%char))
  \/ (special c = false /\ escapeChar c = [c]).
Proof.
  unfold special, escapeChar.
  destruct (Ascii.eqb c "&") eqn:E1.
  { apply Ascii.eqb_eq in E1. left. split; [reflexivity|]. now left. }
  destruct (Ascii.eqb c "<") eqn:E2.
  { apply Ascii.eqb_eq in E2. left. split; [reflexivity|]. right. now left. }
  destruct (Ascii.eqb c ">") eqn:E3.
  { apply Ascii.eqb_eq in E3. left. split; [reflexivity|]. right. right. now left. }
  destruct (Ascii.eqb c "034") eqn:E4.
  { apply Ascii.eqb_eq in E4. left. split; [reflexivity|]. right. right. right. now left. }
  destruct (Ascii.eqb c "'") eqn:E5.
  { apply Ascii.eqb_eq in E5. left. split; [reflexivity|]. right. right. right. now right. }
  right. now split.
Qed.

Lemma special_false (c : ascii) :
  special c = false ->
  c <> "&"%char /\ c <> "<"%char /\ c <> ">"%char /\ c <> "034"%char /\ c <> "'"%char.
Proof.
  unfold special. intros H.
  repeat (apply orb_false_iff in H; destruct H as [H ?]).
  repeat split; apply Ascii.eqb_neq; assumption.
Qed.

Lemma escaped_injective (l1 : list ascii) :
  forall l2, flat_map escapeChar l1 = flat_map escapeChar l2 -> l1 = l2.
Proof.
  induction l1 as [|x l1 IH]; intros [|y l2] H; cbn [flat_map] in H.
  - reflexivity.
  - exfalso. destruct (escapeChar_cases y) as [[_ [[E _]|[[E _]|[[E _]|[[E _]|[E _]]]]]]|[_ E]];
      rewrite E in H; discriminate.
  - exfalso. destruct (escapeChar_cases x) as [[_ [[E _]|[[E _]|[[E _]|[[E _]|[E _]]]]]]|[_ E]];
      rewrite E in H; discriminate.
  - destruct (escapeChar_cases x) as [[_ Hx]|[Hx Ex]],
             (escapeChar_cases y) as [[_ Hy]|[Hy Ey]].
    + destruct Hx as [[Ex Cx]|[[Ex Cx]|[[Ex Cx]|[[Ex Cx]|[Ex Cx]]]]],
               Hy as [[Ey Cy]|[[Ey Cy]|[[Ey Cy]|[[Ey Cy]|[Ey Cy]]]]];
        rewrite Ex, Ey in H; cbn [list_ascii_of_string app] in H;
        try discriminate; rewrite Cx, Cy; f_equal; apply IH;
        repeat (injection H as H); exact H.
    + exfalso. apply special_false in Hy. rewrite Ey in H.
      destruct Hx as [[Ex _]|[[Ex _]|[[Ex _]|[[Ex _]|[Ex _]]]]];
        rewrite Ex in H; cbn [list_ascii_of_string app] in H;
        injection H as H _; symmetry in H; tauto.
    + exfalso. apply special_false in Hx. rewrite Ex in H.
      destruct Hy as [[Ey _]|[[Ey _]|[[Ey _]|[[Ey _]|[Ey _]]]]];
        rewrite Ey in H; cbn [list_ascii_of_string app] in H;
        injection H as H _; tauto.
    + rewrite Ex, Ey in H. cbn [app] in H. injection H as -> H. f_equal. now apply IH.
Qed.

End HtmlFacts.

(** X25: the text returned by [escapeHtml] never holds one of the
    characters [<], [>], the double quote and the apostrophe; a text without
    these characters and without [&] is returned as it is. *)
Theorem escapeHtml_safe (s : string) :
  (forall c, In c (list_ascii_of_string (Html.escapeHtml s)) ->
             c <> "<"%char /\ c <> ">"%char /\ c <> "034"%char /\ c <> "'"%char)
  /\ (existsb Html.special (list_ascii_of_string s) = false -> Html.escapeHtml s = s).
Proof.
  unfold Html.escapeHtml. rewrite list_ascii_of_string_of_list_ascii. split.
  - intros c Hc. apply in_flat_map in Hc. destruct Hc as [x [_ Hc]].
    destruct (HtmlFacts.escapeChar_cases x)
      as [[_ [[E _]|[[E _]|[[E _]|[[E _]|[E _]]]]]]|[Hx E]]; rewrite E in Hc.
    1-5: cbn [list_ascii_of_string In] in Hc;
      repeat (destruct Hc as [<-|Hc]; [repeat split; discriminate|]); destruct Hc.
    destruct Hc as [<-|[]]. apply HtmlFacts.special_false in Hx. tauto.
  - intros H. rewrite <- (string_of_list_ascii_of_string s) at 2. f_equal.
    induction (list_ascii_of_string s) as [|x l IH]; [reflexivity|].
    cbn [existsb] in H. apply orb_false_iff in H. destruct H as [Hx Hl].
    cbn [flat_map]. rewrite IH by exact Hl.
    destruct (HtmlFacts.escapeChar_cases x) as [[Hs _]|[_ E]]; [congruence|].
    now rewrite E.
Qed.

(** X26: [escapeHtml] loses nothing: two texts with the same escaped text
    are the same text. *)
Theorem escapeHtml_injective (s1 s2 : string) :
  Html.escapeHtml s1 = Html.escapeHtml s2 -> s1 = s2.
Proof.
  unfold Html.escapeHtml. intros H.
  apply (f_equal list_ascii_of_string) in H.
  rewrite !list_ascii_of_string_of_list_ascii in H.
  apply HtmlFacts.escaped_injective in H.
  rewrite <- (string_of_list_ascii_of_string s1), <- (string_of_list_ascii_of_string s2).
  now rewrite H.
Qed.

Lemma escapeHtml_injective_witness : "a<b"%string = "a<b"%string.
Proof. apply (escapeHtml_injective "a<b" "a<b"). reflexivity. Defined.


(** ** editor.js: rounding factors and tangent lengths *)

Module MapFacts.
Import Editor.

Lemma map_get_set_same {V : Type} (m : JsMap V) (k : string) (v : V) :
  map_get (map_set m k v) k = Some v.
Proof.
  unfold map_get. induction m as [|kv m IH]; cbn [map_set find fst snd].
  - now rewrite String.eqb_refl.
  - destruct (String.eqb (fst kv) k) eqn:E; cbn [find fst snd].
    + now rewrite String.eqb_refl.
    + rewrite E. exact IH.
Qed.

Lemma map_get_set_other {V : Type} (m : JsMap V) (k k' : string) (v : V) :
  k' <> k -> map_get (map_set m k v) k' = map_get m k'.
Proof.
  intros Hk. apply String.eqb_neq in Hk. unfold map_get.
  induction m as [|kv m IH]; cbn [map_set find fst snd].
  - rewrite String.eqb_sym, Hk. reflexivity.
  - destruct (String.eqb (fst kv) k) eqn:E; cbn [find fst snd].
    + apply String.eqb_eq in E. rewrite E, String.eqb_sym, Hk. reflexivity.
    + destruct (String.eqb (fst kv) k'); [reflexivity|exact IH].
Qed.

Lemma map_set_set {V : Type} (m : JsMap V) (k : string) (v v' : V) :
  map_set (map_set m k v) k v' = map_set m k v'.
Proof.
  induction m as [|kv m IH]; cbn [map_set fst].
  - now rewrite String.eqb_refl.
  - destruct (String.eqb (fst kv) k) eqn:E; cbn [map_set fst].
    + now rewrite String.eqb_refl.
    + rewrite E, IH. reflexivity.
Qed.

Lemma map_set_same {V : Type} (m : JsMap V) (k : string) (v : V) :
  map_get m k = Some v -> map_set m k v = m.
Proof.
  unfold map_get. induction m as [|kv m IH]; cbn [map_set find]; [discriminate|].
  destruct (String.eqb (fst kv) k) eqn:E.
  - intros H. injection H as <-. apply String.eqb_eq in E. subst k. now destruct kv.
  - intros H. now rewrite IH.
Qed.

Lemma find_assign_same (m : Rounding) (idx : nat) (v : R) :
  find (fun kv => Nat.eqb (fst kv) idx)
    (if existsb (fun kv => Nat.eqb (fst kv) idx) m
     then List.map (fun kv => if Nat.eqb (fst kv) idx then (idx, v) else kv) m
     else m ++ [(idx, v)])
  = Some (idx, v).
Proof.
  destruct (existsb _ m) eqn:E.
  - induction m as [|kv m IH]; cbn [existsb] in E; [discriminate|].
    cbn [List.map find]. destruct (Nat.eqb (fst kv) idx) eqn:Ek.
    + cbn [fst]. now rewrite Nat.eqb_refl.
    + rewrite Ek. apply IH. exact E.
  - induction m as [|kv m IH]; cbn [existsb] in E; cbn [app find fst].
    + now rewrite Nat.eqb_refl.
    + apply orb_false_iff in E. destruct E as [Ek E]. rewrite Ek. now apply IH.
Qed.

Lemma find_assign_other (m : Rounding) (idx idx' : nat) (v : R) :
  idx' <> idx ->
  find (fun kv => Nat.eqb (fst kv) idx')
    (if existsb (fun kv => Nat.eqb (fst kv) idx) m
     then List.map (fun kv => if Nat.eqb (fst kv) idx then (idx, v) else kv) m
     else m ++ [(idx, v)])
  = find (fun kv => Nat.eqb (fst kv) idx') m.
Proof.
  intros Hn. apply Nat.eqb_neq in Hn.
  destruct (existsb _ m) eqn:E; clear E.
  - induction m as [|kv m IH]; [reflexivity|]. cbn [List.map find].
    destruct (Nat.eqb (fst kv) idx) eqn:Ek.
    + apply Nat.eqb_eq in Ek. cbn [fst]. rewrite Ek.
      rewrite Nat.eqb_sym, Hn. exact IH.
    + destruct (Nat.eqb (fst kv) idx'); [reflexivity|exact IH].
  - induction m as [|kv m IH]; cbn [app find fst].
    + rewrite Nat.eqb_sym, Hn. reflexivity.
    + destruct (Nat.eqb (fst kv) idx'); [reflexivity|exact IH].
Qed.

End MapFacts.

(** X27: after [setRoundK(axisId, idx, k)], [getRoundK(axisId, idx)] returns
    [k] clamped to [0, 1]; the factor read at any other vertex or on any
    other axis is the one read before. *)
Theorem rounding_factor_set_get (rounding : Editor.JsMap Editor.Rounding)
  (axisId : string) (idx : nat) (k : R) :
  Editor.getRoundK (Editor.setRoundK rounding axisId idx k) axisId idx
  = Rmax 0 (Rmin 1 k)
  /\ 0 <= Editor.getRoundK (Editor.setRoundK rounding axisId idx k) axisId idx <= 1
  /\ forall axisId' idx',
       axisId' <> axisId \/ idx' <> idx ->
       Editor.getRoundK (Editor.setRoundK rounding axisId idx k) axisId' idx'
       = Editor.getRoundK rounding axisId' idx'.
Proof.
  assert (E : Editor.getRoundK (Editor.setRoundK rounding axisId idx k) axisId idx
              = Rmax 0 (Rmin 1 k)).
  { unfold Editor.getRoundK, Editor.setRoundK. cbv zeta.
    rewrite MapFacts.map_get_set_same, MapFacts.find_assign_same. reflexivity. }
  split; [exact E|]. split.
  - rewrite E. split; [apply Rmax_l|].
    apply Rmax_lub; [lra|apply Rmin_l].
  - intros axisId' idx' H.
    unfold Editor.getRoundK, Editor.setRoundK. cbv zeta.
    destruct (String.eqb_spec axisId' axisId) as [->|Hne].
    + destruct H as [H|H]; [congruence|].
      rewrite MapFacts.map_get_set_same, MapFacts.find_assign_other by exact H.
      now destruct (Editor.map_get rounding axisId).
    + now rewrite MapFacts.map_get_set_other.
Qed.

Module TangentFacts.
Import Editor.

(** the tangent length is never negative and never above 0.49 times the
    edge before the vertex and the edge after it *)
Lemma tangentLengthAt_le (map : MapView) (rounding : JsMap Rounding)
  (coords : list (R * R)) (idx : nat) (axisId : string) :
  let P := fun i => toPx map (nth i coords (0, 0)) in
  0 <= tangentLengthAt map rounding coords idx axisId
  /\ tangentLengthAt map rounding coords idx axisId
     <= 0.49 * len (sub (P idx) (P (idx - 1)%nat))
  /\ tangentLengthAt map rounding coords idx axisId
     <= 0.49 * len (sub (P (idx + 1)%nat) (P idx)).
Proof.
  cbv zeta.
  set (Lp := len (sub (toPx map (nth idx coords (0, 0)))
                    (toPx map (nth (idx - 1) coords (0, 0))))).
  set (Ln := len (sub (toPx map (nth (idx + 1) coords (0, 0)))
                    (toPx map (nth idx coords (0, 0))))).
  assert (Hp : 0 <= Lp) by apply RoundingFacts.len_nonneg.
  assert (Hn : 0 <= Ln) by apply RoundingFacts.len_nonneg.
  unfold tangentLengthAt. cbv zeta. fold Lp Ln.
  destruct ((idx <=? 0)%nat || (List.length coords - 1 <=? idx)%nat);
    [repeat split; lra|].
  destruct (negb (Js.gtb _ 1e-3)); [repeat split; lra|].
  destruct (negb (Js.gtb _ 1e-6)); [repeat split; lra|].
  unfold Js.max, Js.min.
  match goal with |- context [Rmin ?g (0.49 * Rmin Lp Ln)] => generalize g end.
  intros g.
  assert (Hm : Rmin g (0.49 * Rmin Lp Ln) <= 0.49 * Rmin Lp Ln) by apply Rmin_r.
  pose proof (Rmin_l Lp Ln). pose proof (Rmin_r Lp Ln).
  assert (0 <= Rmin Lp Ln) by (now apply Rmin_glb).
  split; [apply Rmax_l|].
  split; apply Rmax_lub; lra.
Qed.

End TangentFacts.

(** X28: [tangentLengthAt] is 0 at the first and at the last vertex, is
    never negative, and the tangent lengths of two neighbouring vertices
    together take at most 0.98 of the edge between them, so that the
    tangent points of the two roundings never pass each other. *)
Theorem tangent_lengths_fit (map : Editor.MapView)
  (rounding : Editor.JsMap Editor.Rounding) (coords : list (R * R))
  (idx : nat) (axisId : string) :
  let t := fun i => Editor.tangentLengthAt map rounding coords i axisId in
  let P := fun i => Editor.toPx map (nth i coords (0, 0)) in
  0 <= t idx
  /\ t idx + t (idx + 1)%nat
     <= 0.98 * Editor.len (Editor.sub (P (idx + 1)%nat) (P idx))
  /\ t 0%nat = 0
  /\ ((List.length coords - 1 <= idx)%nat -> t idx = 0).
Proof.
  cbv zeta.
  destruct (TangentFacts.tangentLengthAt_le map rounding coords idx axisId)
    as [H0 [_ Hn]].
  destruct (TangentFacts.tangentLengthAt_le map rounding coords (idx + 1) axisId)
    as [_ [Hp _]].
  cbv beta in Hn, Hp. rewrite Nat.add_sub in Hp.
  split; [exact H0|]. split; [lra|]. split.
  - reflexivity.
  - intros H. unfold Editor.tangentLengthAt.
    apply Nat.leb_le in H. rewrite H, orb_true_r. reflexivity.
Qed.

(** ** editor.js: the axes taken over from a loaded road network *)

Module SimplifyFacts.
Import Editor AxisEdit.

Lemma subseq_refl {A : Type} (l : list A) : subseq l l.
Proof. induction l; [apply subseq_nil|now apply subseq_keep]. Qed.

Lemma subseq_nil_l {A : Type} (l : list A) : subseq [] l.
Proof. induction l; constructor; assumption. Qed.

Lemma subseq_app {A : Type} (a b c d : list A) :
  subseq a b -> subseq c d -> subseq (a ++ c) (b ++ d).
Proof.
  intros Hab Hcd. induction Hab; cbn [app].
  - exact Hcd.
  - now apply subseq_skip.
  - now apply subseq_keep.
Qed.

Lemma subseq_trans {A : Type} (l2 : list A) :
  forall l1 l3, subseq l1 l2 -> subseq l2 l3 -> subseq l1 l3.
Proof.
  intros l1 l3 H12 H23. revert l1 H12.
  induction H23 as [|l2 l3 a H IH|l2 l3 a H IH]; intros l1 H12.
  - exact H12.
  - apply subseq_skip. now apply IH.
  - inversion H12; subst.
    + apply subseq_skip. now apply IH.
    + apply subseq_keep. now apply IH.
Qed.

Lemma subseq_In {A : Type} (l1 l2 : list A) (a : A) :
  subseq l1 l2 -> In a l1 -> In a l2.
Proof.
  induction 1; cbn [In]; [tauto| |]; intuition.
Qed.

Lemma subseq_length {A : Type} (l1 l2 : list A) :
  subseq l1 l2 -> (List.length l1 <= List.length l2)%nat.
Proof. induction 1; cbn [List.length]; lia. Qed.

Lemma keepCorners_cons (th : R) (out : list (R * R)) (b c : R * R)
  (r : list (R * R)) :
  keepCorners th out (b :: c :: r)
  = keepCorners th
      (if Js.gtb (ang (last out (0, 0)) b c) th then out ++ [b] else out)
      (c :: r).
Proof. reflexivity. Qed.

Lemma keepCorners_spec (th : R) (rest : list (R * R)) :
  forall out, exists l,
    keepCorners th out rest = out ++ l /\ subseq l (removelast rest).
Proof.
  induction rest as [|b rest IH]; intros out.
  - exists []. split; [now rewrite app_nil_r|constructor].
  - destruct rest as [|c r].
    + exists []. split; [now rewrite app_nil_r|constructor].
    + rewrite keepCorners_cons.
      destruct (Js.gtb _ th).
      * destruct (IH (out ++ [b])) as [l [E S]].
        exists (b :: l). split.
        -- rewrite E, <- app_assoc. reflexivity.
        -- change (removelast (b :: c :: r)) with (b :: removelast (c :: r)).
           now apply subseq_keep.
      * destruct (IH out) as [l [E S]].
        exists l. split; [exact E|].
        change (removelast (b :: c :: r)) with (b :: removelast (c :: r)).
        now apply subseq_skip.
Qed.

Lemma dist_self (p : R * R) : dist p p = 0.
Proof.
  unfold dist, Js.hypot.
  replace (_ + _) with 0 by ring. apply sqrt_0.
Qed.

Lemma Sorted_snoc {A : Type} (Rel : A -> A -> Prop) (l : list A) (p d : A) :
  Sorted Rel l -> (l <> [] -> Rel (last l d) p) -> Sorted Rel (l ++ [p]).
Proof.
  induction l as [|a l IH]; intros HS HR; cbn [app].
  - repeat constructor.
  - inversion HS as [|? ? HS' HH]; subst. constructor.
    + apply IH; [exact HS'|]. intros Hne. destruct l; [congruence|].
      apply HR. discriminate.
    + destruct l as [|b l]; cbn [app].
      * constructor. apply HR. discriminate.
      * constructor. now inversion HH.
Qed.

(** the step of the loop of [dedupe] *)
Lemma dedupe_fold (rest : list (R * R)) :
  forall ded,
    ded <> [] ->
    Sorted (fun q p => 1e-12 < dist p q) ded ->
    let res := fold_left
                 (fun ded p =>
                    let q := last ded (0, 0) in
                    if Js.gtb (dist p q) 1e-12 then ded ++ [p] else ded)
                 rest ded in
    (exists l, res = ded ++ l /\ subseq l rest)
    /\ Sorted (fun q p => 1e-12 < dist p q) res
    /\ (rest <> [] -> dist (last rest (0, 0)) (last res (0, 0)) <= 1e-12).
Proof.
  set (step := fun (ded : list (R * R)) (p : R * R) =>
                 let q := last ded (0, 0) in
                 if Js.gtb (dist p q) 1e-12 then ded ++ [p] else ded).
  induction rest as [|p rest IH]; intros ded Hne HS; cbv zeta.
  - cbn [fold_left]. split; [|split; [exact HS|congruence]].
    exists []. split; [now rewrite app_nil_r|apply subseq_nil].
  - change (fold_left step (p :: rest) ded) with (fold_left step rest (step ded p)).
    assert (Estep : step ded p
                    = if Js.gtb (dist p (last ded (0, 0))) 1e-12
                      then ded ++ [p] else ded) by reflexivity.
    destruct (Js.gtb (dist p (last ded (0, 0))) 1e-12) eqn:E; rewrite Estep.
    + apply gtb_true_iff in E.
      assert (Hne' : ded ++ [p] <> []) by (now destruct ded).
      assert (HS' : Sorted (fun q p => 1e-12 < dist p q) (ded ++ [p])).
      { apply Sorted_snoc with (d := (0, 0)); [exact HS|]. intros _. exact E. }
      destruct (IH (ded ++ [p]) Hne' HS') as [[l [El Sl]] [HSr Hl]].
      split; [|split; [exact HSr|]].
      * exists (p :: l). split; [rewrite El, <- app_assoc; reflexivity|].
        now apply subseq_keep.
      * intros _. destruct rest as [|p' rest'].
        -- cbn [fold_left last]. rewrite last_last, dist_self. lra.
        -- change (last (p :: p' :: rest') (0, 0)) with (last (p' :: rest') (0, 0)).
           apply Hl. discriminate.
    + apply gtb_false_iff in E.
      destruct (IH ded Hne HS) as [[l [El Sl]] [HSr Hl]].
      split; [|split; [exact HSr|]].
      * exists l. split; [exact El|]. now apply subseq_skip.
      * intros _. destruct rest as [|p' rest'].
        -- cbn [fold_left last]. lra.
        -- change (last (p :: p' :: rest') (0, 0)) with (last (p' :: rest') (0, 0)).
           apply Hl. discriminate.
Qed.

End SimplifyFacts.

(** X29: [simplifyAxisForEditor] only drops vertices: what it returns is
    the input with some vertices left out, in the same order.  The first
    vertex stays, an axis of two or more vertices keeps at least two, the
    last returned vertex is the last input vertex or within 1e-12 of it,
    and unless the input is returned as it is, consecutive vertices of the
    result are more than 1e-12 apart. *)
Theorem simplify_keeps_shape (coords : list (R * R)) (angleDeg : R) :
  let r := AxisEdit.simplifyAxisForEditor coords angleDeg in
  AxisEdit.subseq r coords
  /\ hd_error r = hd_error coords
  /\ ((2 <= List.length coords)%nat -> (2 <= List.length r)%nat)
  /\ AxisEdit.dist (last coords (0, 0)) (last r (0, 0)) <= 1e-12
  /\ (r = coords
      \/ Sorted (fun q p => 1e-12 < AxisEdit.dist p q) r).
Proof.
  cbv zeta. unfold AxisEdit.simplifyAxisForEditor.
  assert (Same : AxisEdit.subseq coords coords
                 /\ hd_error coords = hd_error coords
                 /\ ((2 <= List.length coords)%nat -> (2 <= List.length coords)%nat)
                 /\ AxisEdit.dist (last coords (0, 0)) (last coords (0, 0)) <= 1e-12
                 /\ (coords = coords
                     \/ Sorted (fun q p => 1e-12 < AxisEdit.dist p q) coords)).
  { split; [apply SimplifyFacts.subseq_refl|]. split; [reflexivity|].
    split; [tauto|]. split; [rewrite SimplifyFacts.dist_self; lra|now left]. }
  destruct (List.length coords <=? 2)%nat eqn:Hlen; [exact Same|].
  cbv zeta.
  destruct (2 <=? List.length (AxisEdit.dedupe _))%nat eqn:Hded; [|exact Same].
  clear Same. apply Nat.leb_gt in Hlen. apply Nat.leb_le in Hded.
  destruct coords as [|c0 rest]; [cbn in Hlen; lia|].
  assert (Hrest : rest <> []) by (destruct rest; [cbn in Hlen; lia|discriminate]).
  revert Hded. cbn [hd tl].
  destruct (SimplifyFacts.keepCorners_spec (Js.max 0.5 angleDeg * PI / 180) rest [c0])
    as [l [El Sl]].
  rewrite El.
  assert (Elast : last (c0 :: rest) (0, 0) = last rest (0, 0)).
  { destruct rest; [congruence|reflexivity]. }
  rewrite Elast. unfold AxisEdit.dedupe.
  change (([c0] ++ l) ++ [last rest (0, 0)]) with (c0 :: (l ++ [last rest (0, 0)])).
  cbn [hd tl].
  assert (HS0 : Sorted (fun q p => 1e-12 < AxisEdit.dist p q) [c0])
    by repeat constructor.
  assert (Hne0 : [c0] <> []) by discriminate.
  destruct (SimplifyFacts.dedupe_fold (l ++ [last rest (0, 0)]) [c0] Hne0 HS0)
    as [[l' [El' Sl']] [HSr Hl]].
  cbv zeta in El', HSr, Hl. rewrite El' in *. intros Hded.
  split; [|split; [reflexivity|split; [intros _; exact Hded|split]]].
  - cbn [app]. apply AxisEdit.subseq_keep.
    eapply SimplifyFacts.subseq_trans; [exact Sl'|].
    rewrite (app_removelast_last (0, 0) Hrest) at 2.
    apply SimplifyFacts.subseq_app; [exact Sl|apply SimplifyFacts.subseq_refl].
  - rewrite <- (last_last l (last rest (0, 0)) (0, 0)) at 1.
    apply Hl. now destruct l.
  - right. exact HSr.
Qed.

(** ** editor.js: deleting a vertex, and undoing it *)

Module EditFacts.
Import Editor AxisEdit.

Lemma splice1_nth {A : Type} (i : nat) :
  forall (l : list A) (j : nat),
    nth_error (splice1 l i) j = nth_error l (if (j <? i)%nat then j else S j).
Proof.
  unfold splice1. induction i as [|i IH]; intros l j.
  - replace (j <? 0)%nat with false by (symmetry; apply Nat.ltb_ge; lia).
    destruct l as [|a l]; [now destruct j|reflexivity].
  - destruct l as [|a l]; [now destruct j; destruct (_ <? _)%nat|].
    cbn [firstn skipn app]. destruct j as [|j]; [reflexivity|].
    cbn [nth_error]. rewrite IH.
    change (S j <? S i)%nat with (j <? i)%nat.
    destruct (j <? i)%nat; reflexivity.
Qed.

Lemma copy_id (coords : list (R * R)) :
  List.map (fun c => (fst c, snd c)) coords = coords.
Proof.
  induction coords as [|[a b] l IH]; [reflexivity|].
  cbn [List.map fst snd]. now rewrite IH.
Qed.

Lemma rev_snoc {A : Type} (l : list A) (a : A) : rev (l ++ [a]) = a :: rev l.
Proof. apply rev_unit. Qed.

End EditFacts.

(** X30: in edit mode, with a vertex selected on an axis of more than two
    vertices, [deleteSelectedVertex] removes that vertex: the vertices after
    it move down by one index, while the table of rounding factors, keyed by
    index, is left as it is.  A following [undoEdit] puts back the
    coordinates: the registries and the history are again what they were
    before the deletion. *)
Theorem delete_then_undo (s : AxisEdit.EditState) (id : string)
  (f : Editor.Feature) :
  AxisEdit.mode s = AxisEdit.Edit ->
  (0 <= AxisEdit.selectedVertexIdx s)%Z ->
  AxisEdit.activeId s = Some id ->
  id <> EmptyString ->
  Editor.map_get (Editor.roadsById (AxisEdit.session s)) id = Some f ->
  (2 < List.length (Editor.coordinates f))%nat ->
  let s1 := AxisEdit.deleteSelectedVertex s in
  let i := Z.to_nat (AxisEdit.selectedVertexIdx s) in
  (exists f1,
      Editor.map_get (Editor.roadsById (AxisEdit.session s1)) id = Some f1
      /\ forall j, nth_error (Editor.coordinates f1) j
                   = nth_error (Editor.coordinates f)
                       (if (j <? i)%nat then j else S j))
  /\ Editor.roundingByAxis (AxisEdit.session s1)
     = Editor.roundingByAxis (AxisEdit.session s)
  /\ AxisEdit.session (AxisEdit.undoEdit s1) = AxisEdit.session s
  /\ AxisEdit.historyEdit (AxisEdit.undoEdit s1) = AxisEdit.historyEdit s.
Proof.
  intros Hmode Hidx Hact Hid Hget Hlen. cbv zeta.
  assert (E1 : AxisEdit.deleteSelectedVertex s
               = AxisEdit.mkEdit
                   (AxisEdit.setCoordinates (AxisEdit.session s) id f
                      (AxisEdit.splice1 (Editor.coordinates f)
                         (Z.to_nat (AxisEdit.selectedVertexIdx s))))
                   (AxisEdit.mode s) (AxisEdit.activeId s)
                   (Z.min (AxisEdit.selectedVertexIdx s)
                      (Z.of_nat (List.length
                         (AxisEdit.splice1 (Editor.coordinates f)
                            (Z.to_nat (AxisEdit.selectedVertexIdx s)))) - 1))
                   (AxisEdit.historyEdit s
                      ++ [AxisEdit.mkAction (Some id) (Editor.coordinates f)])).
  { unfold AxisEdit.deleteSelectedVertex. rewrite Hmode, Hact, Hget.
    rewrite (proj2 (Z.ltb_ge _ _) Hidx).
    rewrite (proj2 (Nat.leb_gt _ _) Hlen). cbv zeta.
    now rewrite EditFacts.copy_id. }
  rewrite E1. cbn [AxisEdit.session AxisEdit.setCoordinates Editor.roadsById
                     Editor.roundingByAxis].
  split; [|split; [reflexivity|]].
  - eexists. split; [apply MapFacts.map_get_set_same|].
    intros j. cbn [Editor.coordinates]. apply EditFacts.splice1_nth.
  - unfold AxisEdit.undoEdit.
    cbn [AxisEdit.historyEdit AxisEdit.session AxisEdit.mode AxisEdit.activeId
           AxisEdit.selectedVertexIdx].
    rewrite EditFacts.rev_snoc. cbn [AxisEdit.a_id AxisEdit.prevCoords].
    destruct id as [|c id']; [congruence|].
    cbn [AxisEdit.setCoordinates Editor.roadsById].
    rewrite MapFacts.map_get_set_same.
    cbn [AxisEdit.session AxisEdit.historyEdit AxisEdit.setCoordinates
           Editor.roadsById Editor.roundingByAxis Editor.importedAxisIds
           Editor.nextN Editor.f_id].
    rewrite EditFacts.copy_id, rev_involutive.
    split; [|reflexivity].
    unfold AxisEdit.setCoordinates.
    cbn [Editor.roadsById Editor.roundingByAxis Editor.importedAxisIds
           Editor.nextN Editor.f_id].
    rewrite MapFacts.map_set_set.
    replace (Editor.mkFeature (Editor.f_id f) (Editor.coordinates f)) with f
      by (now destruct f).
    rewrite MapFacts.map_set_same by exact Hget.
    now destruct (AxisEdit.session s).
Qed.

Lemma delete_then_undo_witness :
  AxisEdit.session (AxisEdit.undoEdit (AxisEdit.deleteSelectedVertex AxisEdit.editingCorner))
  = AxisEdit.session AxisEdit.editingCorner.
Proof.
  apply (delete_then_undo AxisEdit.editingCorner "axis_1"
           (Editor.mkFeature "axis_1" [(0, 0); (10, 0); (10, 10)])).
  - reflexivity.
  - cbn [AxisEdit.editingCorner AxisEdit.selectedVertexIdx]. lia.
  - reflexivity.
  - discriminate.
  - reflexivity.
  - cbn [Editor.coordinates List.length]. lia.
Defined.

